(** * NetworkGraph: a shallow embedding of the React/D3 network-graph component

    The development follows [NetworkGraph.tsx]: the model construction of the
    set-up effect, the D3 scales, the interaction handlers (legend toggles,
    link filter, hover, drag) and the per-tick coordinate lookups.

    Conventions.
    - A JavaScript [number] is modelled by [JS.number]: the three kinds of
      IEEE value the program can tell apart ([NaN], the two infinities, a
      finite value) with finite values taken as exact rationals.  Rounding
      within the range of a double and the sign of zero are outside the
      model.  [Math.pow] takes its result to the range of a double
      ([JS.to_range]): the cube of the width scale is where a finite value
      of the input overflows or underflows.  Sums, products and quotients
      are exact.
    - [undefined] is [None]; a value that may be [null] or [undefined] has a
      type of its own ([JS.nullable]).
    - Node objects are shared between the [nodes] array of the set-up effect,
      the [nodesArray] state, the data bound to the SVG elements and the
      resolved link endpoints.  They live in one arena (a list), and every
      alias is an index into it. *)

From Stdlib Require Import QArith Qcanon.
From stdpp Require Import gmap strings list.
From Stdlib Require Import Ascii Sorted.

Local Open Scope string_scope.
Local Open Scope list_scope.

(* ================================================================= *)
(** ** JavaScript values *)

Module JS.

Inductive number : Type :=
| NaN
| PInf
| NInf
| Fin (q : Qc).

#[global] Instance number_eq_dec : EqDecision number.
Proof. solve_decision. Defined.

(** [number | null | undefined], as the type of [fx] and [fy]. *)
Inductive nullable : Type :=
| Undefined
| Null
| Num (n : number).

#[global] Instance nullable_eq_dec : EqDecision nullable.
Proof. solve_decision. Defined.

Definition of_Z (z : Z) : number := Fin (Q2Qc (inject_Z z)).
Definition of_Q (q : Q) : number := Fin (Q2Qc q).

Definition zero : number := Fin 0%Qc.
Definition one : number := Fin 1%Qc.

Definition isNaN (a : number) : bool :=
  match a with NaN => true | _ => false end.

Definition isFinite (a : number) : bool :=
  match a with Fin _ => true | _ => false end.

(** [a < b] *)
Definition lt (a b : number) : bool :=
  match a, b with
  | NaN, _ | _, NaN => false
  | Fin p, Fin q => match (p ?= q)%Qc with Lt => true | _ => false end
  | NInf, NInf => false
  | NInf, _ => true
  | _, NInf => false
  | PInf, _ => false
  | Fin _, PInf => true
  end.

(** [a >= b] *)
Definition ge (a b : number) : bool :=
  match a, b with
  | NaN, _ | _, NaN => false
  | Fin p, Fin q => match (p ?= q)%Qc with Lt => false | _ => true end
  | PInf, _ => true
  | _, NInf => true
  | NInf, _ => false
  | Fin _, PInf => false
  end.

(** ToBoolean on a number: [0] and [NaN] are falsy. *)
Definition truthy (a : number) : bool :=
  match a with
  | NaN => false
  | Fin q => if decide (q = 0%Qc) then false else true
  | _ => true
  end.

(** [a || b] where [a] may be [undefined]. *)
Definition or_else (a : option number) (b : number) : number :=
  match a with
  | Some v => if truthy v then v else b
  | None => b
  end.

Definition neg (a : number) : number :=
  match a with
  | NaN => NaN
  | PInf => NInf
  | NInf => PInf
  | Fin q => Fin (- q)%Qc
  end.

Definition add (a b : number) : number :=
  match a, b with
  | NaN, _ | _, NaN => NaN
  | PInf, NInf | NInf, PInf => NaN
  | PInf, _ | _, PInf => PInf
  | NInf, _ | _, NInf => NInf
  | Fin p, Fin q => Fin (p + q)%Qc
  end.

Definition sub (a b : number) : number := add a (neg b).

(** The sign of a finite value, for products and quotients with an
    infinity. *)
Definition inf_of_sign (c : comparison) : number :=
  match c with Gt => PInf | Lt => NInf | Eq => NaN end.

Definition flip (c : comparison) : comparison := CompOpp c.

Definition mul (a b : number) : number :=
  match a, b with
  | NaN, _ | _, NaN => NaN
  | PInf, PInf | NInf, NInf => PInf
  | PInf, NInf | NInf, PInf => NInf
  | PInf, Fin q | Fin q, PInf => inf_of_sign (q ?= 0)%Qc
  | NInf, Fin q | Fin q, NInf => inf_of_sign (flip (q ?= 0)%Qc)
  | Fin p, Fin q => Fin (p * q)%Qc
  end.

(** A zero divisor is read as [+0]. *)
Definition div (a b : number) : number :=
  match a, b with
  | NaN, _ | _, NaN => NaN
  | (PInf | NInf), (PInf | NInf) => NaN
  | PInf, Fin q =>
      match (q ?= 0)%Qc with Lt => NInf | _ => PInf end
  | NInf, Fin q =>
      match (q ?= 0)%Qc with Lt => PInf | _ => NInf end
  | Fin _, (PInf | NInf) => Fin 0%Qc
  | Fin p, Fin q =>
      if decide (q = 0%Qc) then inf_of_sign (p ?= 0)%Qc
      else Fin (p / q)%Qc
  end.

(** The range of a double.  Rounding to nearest takes a magnitude of at
    least [2^1024 - 2^970] to an infinity and one of at most [2^-1075] to
    zero; a value in between is kept as it is. *)
Definition overflow : Qc := Q2Qc (inject_Z (2 ^ 1024 - 2 ^ 970)).
Definition underflow : Qc := Q2Qc (1 # 2 ^ 1075).

Definition to_range (a : number) : number :=
  match a with
  | Fin q =>
      if ge a (Fin overflow) then PInf
      else if ge (Fin (- overflow)%Qc) a then NInf
      else if ge (Fin underflow) a && ge a (Fin (- underflow)%Qc) then zero
      else a
  | _ => a
  end.

End JS.

Module Math.

Definition abs (a : JS.number) : JS.number :=
  match a with
  | JS.NaN => JS.NaN
  | JS.PInf | JS.NInf => JS.PInf
  | JS.Fin q => match (q ?= 0)%Qc with Lt => JS.Fin (- q)%Qc | _ => a end
  end.

(** The power [a^e] as a real number, for an exponent that is a
    non-negative integer, the only kind the component passes
    ([exponent(3)]). *)
Fixpoint pow_exact (a : JS.number) (e : nat) : JS.number :=
  match e with
  | O => JS.one
  | S e' => JS.mul a (pow_exact a e')
  end.

(** [Math.pow(a, e)]: the power, as a double.  A large cube overflows to
    an infinity and a small one underflows to zero. *)
Definition pow (a : JS.number) (e : nat) : JS.number :=
  JS.to_range (pow_exact a e).

End Math.

Abbreviation number := JS.number.

(* ================================================================= *)
(** ** Objects used as maps, and [Object.entries] *)

Module Object.

(** An object with number-valued own properties, listed in the order the
    properties were created; the keys are pairwise distinct. *)
Definition t : Type := list (string * number).

Definition digit_of (c : ascii) : option N :=
  let n := N_of_ascii c in
  if ((48 <=? n) && (n <=? 57))%N then Some (n - 48)%N else None.

Fixpoint digits_value (s : string) (acc : N) : option N :=
  match s with
  | EmptyString => Some acc
  | String c s' =>
      match digit_of c with
      | Some d => digits_value s' (10 * acc + d)%N
      | None => None
      end
  end.

(** A key is an array index when it is the canonical decimal form of an
    integer in [0, 2^32 - 2]. *)
Definition array_index (s : string) : option N :=
  match s with
  | EmptyString => None
  | String c s' =>
      if Ascii.eqb c "0"%char then
        match s' with EmptyString => Some 0%N | _ => None end
      else
        match digits_value s 0%N with
        | Some n => if (n <? 4294967295)%N then Some n else None
        | None => None
        end
  end.

Definition is_index (e : string * number) : bool :=
  match array_index e.1 with Some _ => true | None => false end.

Fixpoint insert_index (n : N) (e : string * number)
    (l : list (N * (string * number))) : list (N * (string * number)) :=
  match l with
  | [] => [(n, e)]
  | (m, e') :: l' =>
      if (n <? m)%N then (n, e) :: l else (m, e') :: insert_index n e l'
  end.

(** The array-index properties, in ascending numeric order. *)
Definition index_props (o : t) : list (N * (string * number)) :=
  fold_right
    (fun e acc =>
       match array_index e.1 with
       | Some n => insert_index n e acc
       | None => acc
       end) [] o.

(** The other properties, in creation order. *)
Definition string_props (o : t) : list (string * number) :=
  List.filter (fun e => negb (is_index e)) o.

(** OrdinaryOwnPropertyKeys: array indices ascending, then strings in
    creation order. *)
Definition entries (o : t) : list (string * number) :=
  map snd (index_props o) ++ string_props o.

Definition keys (o : t) : list string := map fst o.

End Object.

(* ================================================================= *)
(** ** The data model *)

Record EdgeData : Type := mkEdge {
  edge_source : string;
  edge_target : string;
  edge_value : number;
}.

Module Node.
(** [vx], [vy] and [index] of [SimulationNodeDatum] are never read by the
    component and are left out. *)
Record t : Type := mk {
  id : string;
  originalName : string;
  group : string;
  value : number;
  visible : bool;
  x : option number;
  y : option number;
  fx : JS.nullable;
  fy : JS.nullable;
}.

Definition set_visible (b : bool) (n : t) : t :=
  mk (id n) (originalName n) (group n) (value n) b (x n) (y n) (fx n) (fy n).

Definition set_xy (px py : option number) (n : t) : t :=
  mk (id n) (originalName n) (group n) (value n) (visible n) px py
     (fx n) (fy n).

Definition set_fixed (qx qy : JS.nullable) (n : t) : t :=
  mk (id n) (originalName n) (group n) (value n) (visible n) (x n) (y n)
     qx qy.
End Node.

(** A link endpoint is a node id until [d3.forceLink] resolves it, and the
    node object afterwards; [Obj r] is the object at index [r] of the node
    arena. *)
Inductive endpoint : Type :=
| Str (s : string)
| Obj (r : nat).

Module Link.
Record t : Type := mk {
  source : endpoint;
  target : endpoint;
  value : number;
}.
End Link.

(* ================================================================= *)
(** ** Model construction (set-up effect, first part) *)

Definition has_id (nodes : list Node.t) (s : string) : bool :=
  existsb (fun n => String.eqb (Node.id n) s) nodes.

Definition build_nodes (nodeData : Object.t) : list Node.t :=
  map (fun '(key, value) =>
         Node.mk key key key value true None None JS.Undefined JS.Undefined)
      (Object.entries nodeData).

Definition edge_kept (nodes : list Node.t) (d : EdgeData) : bool :=
  has_id nodes (edge_source d) && has_id nodes (edge_target d).

Definition link_of_edge (d : EdgeData) : Link.t :=
  Link.mk (Str (edge_source d)) (Str (edge_target d)) (edge_value d).

Definition build_links (nodes : list Node.t) (edgeData : list EdgeData)
    : list Link.t :=
  map link_of_edge (List.filter (edge_kept nodes) edgeData).

Definition build (nodeData : Object.t) (edgeData : list EdgeData)
    : list Node.t * list Link.t :=
  let nodes := build_nodes nodeData in
  (nodes, build_links nodes edgeData).

(* ================================================================= *)
(** ** Configuration ([config.ts]) *)

Module config.
Definition minNodeSize : number := JS.of_Z 5.
Definition maxNodeSize : number := JS.of_Z 20.
Definition minLinkWidth : number := JS.of_Q (5 # 4).
Definition maxLinkWidth : number := JS.of_Z 3.
Definition labelOffset : number := JS.of_Z 5.
Definition defaultLinkOpacity : number := JS.of_Q (3 # 5).
Definition highlightOpacity : number := JS.of_Z 1.
Definition fadedOpacity : number := JS.of_Q (1 # 20).
Definition legendOpacity : number := JS.of_Q (1 # 2).
Definition zoomExtent : number * number := (JS.of_Q (1 # 10), JS.of_Z 8).
Definition nodeCharge : number := JS.of_Z (-200).
Definition linkStrength : number := JS.of_Q (1 # 1000).
Definition collisionForce : number := JS.of_Z 5.
Definition simulationAlpha : number := JS.of_Q (1 # 200).
Definition colors : list string :=
  ["#e6194B"; "#3cb44b"; "#9999FF"; "#FFA07A"; "#F0E68C"; "#FF99FF";
   "#00FFFF"; "#800000"; "#1ABC9C"; "#000080"; "#808000";
   "#800080"; "#008080"; "#FFA500"; "#A52A2A"; "#FFC0CB";
   "#98FB98"; "#DDA0DD"; "#FFD700"; "#40E0D0"].
End config.

(* ================================================================= *)
(** ** The parts of D3 the component calls *)

Module d3.

(** [d3.max(values, valueof)]: values that do not compare with themselves
    ([NaN]) are skipped; [undefined] when nothing is left. *)
Definition max_step (m : option number) (v : number) : option number :=
  match m with
  | None => if JS.ge v v then Some v else None
  | Some mx => if JS.lt mx v then Some v else m
  end.

Definition max {A : Type} (values : list A) (valueof : A -> number)
    : option number :=
  fold_left (fun m a => max_step m (valueof a)) values None.

(** [interpolateNumber(a, b)(t)] *)
Definition interpolateNumber (a b t : number) : number :=
  JS.add (JS.mul a (JS.sub JS.one t)) (JS.mul b t).

(** [normalize(a, b)(x)] of d3-scale's continuous scales. *)
Definition normalize (a b x : number) : number :=
  let b' := JS.sub b a in
  if JS.truthy b' then JS.div (JS.sub x a) b'
  else if JS.isNaN b' then JS.NaN else JS.of_Q (1 # 2).

(** [bimap(domain, range, interpolate)(x)] *)
Definition bimap (d0 d1 r0 r1 x : number) : number :=
  if JS.lt d1 d0 then interpolateNumber r1 r0 (normalize d1 d0 x)
  else interpolateNumber r0 r1 (normalize d0 d1 x).

(** A continuous scale with a two-point domain and range, no clamping. *)
Record continuous : Type := mkScale {
  transform : number -> number;
  domain : number * number;
  range : number * number;
}.

(** Calling the scale: [NaN] maps to the scale's [unknown] value, which
    is [undefined]. *)
Definition call (s : continuous) (x : number) : option number :=
  if JS.isNaN x then None
  else Some (bimap (transform s (domain s).1) (transform s (domain s).2)
                   (range s).1 (range s).2 (transform s x)).

Definition scaleLinear (dom rng : number * number) : continuous :=
  mkScale (fun x => x) dom rng.

Definition transformPow (exponent : nat) (x : number) : number :=
  if JS.lt x JS.zero then JS.neg (Math.pow (JS.neg x) exponent)
  else Math.pow x exponent.

Definition scalePow (exponent : nat) (dom rng : number * number)
    : continuous :=
  mkScale (transformPow exponent) dom rng.

(** [d3.scaleOrdinal().range(range)] with an implicit domain: a key gets
    the position at which it was first looked up.  [domain] is the list of
    keys looked up so far. *)
Fixpoint index_of (k : string) (dom : list string) : option nat :=
  match dom with
  | [] => None
  | k' :: dom' => if String.eqb k' k then Some O else S <$> index_of k dom'
  end.

Definition ordinal_domain (keys : list string) : list string :=
  fold_left
    (fun dom k => match index_of k dom with
                  | Some _ => dom
                  | None => dom ++ [k]
                  end) keys [].

Definition ordinal (rng : list string) (dom : list string) (k : string)
    : option string :=
  let i := match index_of k dom with
           | Some i => i
           | None => length dom
           end in
  rng !! (i mod length rng)%nat.

(** The simulation as the component sees it: the temperature, its target
    and whether the internal timer runs.  The forces and the positions
    they compute are not modelled. *)
Record Simulation : Type := mkSim {
  alpha : number;
  alphaTarget : number;
  running : bool;
}.

Definition forceSimulation : Simulation := mkSim JS.one JS.zero true.

Definition set_alphaTarget (a : number) (sim : Simulation) : Simulation :=
  mkSim (alpha sim) a (running sim).

Definition restart (sim : Simulation) : Simulation :=
  mkSim (alpha sim) (alphaTarget sim) true.

Definition stop (sim : Simulation) : Simulation :=
  mkSim (alpha sim) (alphaTarget sim) false.

End d3.

(** A thrown [Error], by its message. *)
Inductive result (A : Type) : Type :=
| Ok (a : A)
| Throw (message : string).
Arguments Ok {A} a.
Arguments Throw {A} message.

(** [d3.forceLink(links).id(d => d.id)] once registered on the simulation:
    every endpoint that is still an id is replaced by the node object of
    that id (the last one, were an id to occur twice). *)
Fixpoint find_ref (nodes : list Node.t) (s : string) : option nat :=
  match nodes with
  | [] => None
  | n :: nodes' =>
      match find_ref nodes' s with
      | Some r => Some (S r)
      | None => if String.eqb (Node.id n) s then Some O else None
      end
  end.

Definition resolve (nodes : list Node.t) (e : endpoint) : result endpoint :=
  match e with
  | Obj r => Ok (Obj r)
  | Str s =>
      match find_ref nodes s with
      | Some r => Ok (Obj r)
      | None => Throw ("node not found: " ++ s)
      end
  end.

Fixpoint forceLink (nodes : list Node.t) (links : list Link.t)
    : result (list Link.t) :=
  match links with
  | [] => Ok []
  | l :: links' =>
      match resolve nodes (Link.source l) with
      | Throw m => Throw m
      | Ok src =>
          match resolve nodes (Link.target l) with
          | Throw m => Throw m
          | Ok tgt =>
              match forceLink nodes links' with
              | Throw m => Throw m
              | Ok ls => Ok (Link.mk src tgt (Link.value l) :: ls)
              end
          end
      end
  end.

(* ================================================================= *)
(** ** The rendered elements *)

(** What the component has set on a [line.link] element: the classes it
    toggles and the inline styles, [None] for a style that is not set.  A
    style holds the value handed to [selection.style]. *)
Record LinkElt : Type := mkLinkElt {
  negative : bool;
  faded_link : bool;
  highlighted : bool;
  stroke_width : option number;
  stroke : option string;
  stroke_opacity : option number;
  display : option string;
}.

Record NodeElt : Type := mkNodeElt {
  r : option number;
  fill : option string;
  opacity : option number;
}.

Record LabelElt : Type := mkLabelElt {
  text : string;
  dx : number;
  dy : number;
  label_opacity : option number;
}.

(** [selection.style(name, (d, i) => ...)] and the like: element [i] is
    updated from the datum bound to it, [data[i]]. *)
Definition each {D E : Type} (f : nat -> D -> E -> E) (data : list D)
    (elts : list E) : list E :=
  imap (fun i e => match data !! i with Some d => f i d e | None => e end)
       elts.

(* ================================================================= *)
(** ** The component *)

(** Props, React state and the closure variables of the set-up effect, as
    they stand once React has finished rendering and running effects. *)
Record State : Type := mkState {
  nodeData : Object.t;
  edgeData : list EdgeData;
  currentFilter : string;
  (** the node objects: [nodes] of the effect and [nodesArray] *)
  nodes : list Node.t;
  (** the link objects: [links] of the effect and [linksArray] *)
  links : list Link.t;
  simulation : option d3.Simulation;
  (** ghost: how many times the set-up effect has run *)
  generation : nat;
  (** the simulations of earlier runs of the set-up effect, as its clean-up
      left them, latest first *)
  retired : list d3.Simulation;
  linkElts : list LinkElt;
  nodeElts : list NodeElt;
  labelElts : list LabelElt;
}.

Definition with_nodes (ns : list Node.t) (s : State) : State :=
  mkState (nodeData s) (edgeData s) (currentFilter s) ns (links s)
          (simulation s) (generation s) (retired s) (linkElts s) (nodeElts s)
          (labelElts s).

Definition with_simulation (sim : option d3.Simulation) (s : State)
    : State :=
  mkState (nodeData s) (edgeData s) (currentFilter s) (nodes s) (links s)
          sim (generation s) (retired s) (linkElts s) (nodeElts s)
          (labelElts s).

Definition with_elts (le : list LinkElt) (ne : list NodeElt)
    (lb : list LabelElt) (s : State) : State :=
  mkState (nodeData s) (edgeData s) (currentFilter s) (nodes s) (links s)
          (simulation s) (generation s) (retired s) le ne lb.

Definition set_stroke_opacity (o : option number) (e : LinkElt) : LinkElt :=
  mkLinkElt (negative e) (faded_link e) (highlighted e) (stroke_width e)
            (stroke e) o (display e).

Definition set_stroke_width (w : option number) (e : LinkElt) : LinkElt :=
  mkLinkElt (negative e) (faded_link e) (highlighted e) w (stroke e)
            (stroke_opacity e) (display e).

Definition set_display (d : option string) (e : LinkElt) : LinkElt :=
  mkLinkElt (negative e) (faded_link e) (highlighted e) (stroke_width e)
            (stroke e) (stroke_opacity e) d.

Definition set_opacity (o : option number) (e : NodeElt) : NodeElt :=
  mkNodeElt (r e) (fill e) o.

Definition set_label_opacity (o : option number) (e : LabelElt) : LabelElt :=
  mkLabelElt (text e) (dx e) (dy e) o.

(** [undefined] in arithmetic is [NaN]. *)
Definition to_number (o : option number) : number :=
  match o with Some v => v | None => JS.NaN end.

Definition isLinkVisible (currentFilter : string) (link : Link.t) : bool :=
  String.eqb currentFilter "all"
  || (String.eqb currentFilter "positive" && JS.ge (Link.value link) JS.zero)
  || (String.eqb currentFilter "negative" && JS.lt (Link.value link) JS.zero).

Definition getNodeX (node : string + Node.t) : number :=
  match node with
  | inr n => match Node.x n with Some v => v | None => JS.zero end
  | inl _ => JS.zero
  end.

Definition getNodeY (node : string + Node.t) : number :=
  match node with
  | inr n => match Node.y n with Some v => v | None => JS.zero end
  | inl _ => JS.zero
  end.

Definition sizeScale (nodes : list Node.t) : d3.continuous :=
  d3.scaleLinear
    (JS.zero, JS.or_else (d3.max nodes Node.value) JS.one)
    (config.minNodeSize, config.maxNodeSize).

Definition linkScale (links : list Link.t) : d3.continuous :=
  d3.scalePow 3
    (JS.zero,
     JS.or_else (d3.max links (fun d => Math.abs (Link.value d))) JS.one)
    (config.minLinkWidth, config.maxLinkWidth).

(** [colorScale] after the circles have been filled in node order. *)
Definition colorScale (nodes : list Node.t) (group : string) : option string :=
  d3.ordinal config.colors (d3.ordinal_domain (map Node.group nodes)) group.

(** The values the two scales are called with while the graph is set up:
    every node's value ([r], [dx], [dy], collision radius) and the absolute
    value of every link's value ([stroke-width]). *)
Definition sizeScale_inputs (nodes : list Node.t) : list number :=
  map Node.value nodes.

Definition linkScale_inputs (links : list Link.t) : list number :=
  map (fun d => Math.abs (Link.value d)) links.

(** What an endpoint stands for when it is read: the string itself, or the
    node object it refers to. *)
Definition deref (nodes : list Node.t) (e : endpoint)
    : option (string + Node.t) :=
  match e with
  | Str s => Some (inl s)
  | Obj r => inr <$> nodes !! r
  end.

(** [typeof e === 'object' ? e.id : e] *)
Definition endpoint_id (nodes : list Node.t) (e : endpoint) : option string :=
  match e with
  | Str s => Some s
  | Obj r => Node.id <$> nodes !! r
  end.

(** [typeof e === 'object' ? e : nodes.find((n) => n.id === e)] *)
Definition node_of (nodes : list Node.t) (e : endpoint) : option Node.t :=
  match e with
  | Str s => List.find (fun n => String.eqb (Node.id n) s) nodes
  | Obj r => nodes !! r
  end.

(** [nodesArray.find((n) => n.id === id)?.visible], read as a condition. *)
Definition find_visible (nodes : list Node.t) (id : string) : bool :=
  match List.find (fun n => String.eqb (Node.id n) id) nodes with
  | Some n => Node.visible n
  | None => false
  end.

Definition baseline_opacity (n : Node.t) : number :=
  if Node.visible n then config.highlightOpacity else config.fadedOpacity.

(** The [display] style the visibility effect gives a link. *)
Definition link_display (currentFilter : string) (nodes : list Node.t)
    (d : Link.t) : option string :=
  sourceId ← endpoint_id nodes (Link.source d);
  targetId ← endpoint_id nodes (Link.target d);
  let sourceVisible := find_visible nodes sourceId in
  let targetVisible := find_visible nodes targetId in
  Some (if negb sourceVisible || negb targetVisible then "none"
        else if isLinkVisible currentFilter d then "inline" else "none").

(** The effect "to toggle nodes and links on and off". *)
Definition visibilityEffect (s : State) : State :=
  match simulation s with
  | None => s
  | Some _ =>
      with_elts
        (each (fun _ d e =>
                 match link_display (currentFilter s) (nodes s) d with
                 | Some v => set_display (Some v) e
                 | None => e
                 end) (links s) (linkElts s))
        (each (fun _ d e => set_opacity (Some (baseline_opacity d)) e)
              (nodes s) (nodeElts s))
        (each (fun _ d e => set_label_opacity (Some (baseline_opacity d)) e)
              (nodes s) (labelElts s))
        s
  end.

(** *** Legend handlers *)

Definition updateNodeVisibility (clickedNode : nat) (s : State) : State :=
  visibilityEffect
    (with_nodes
       (alter (fun n => Node.set_visible (negb (Node.visible n)) n)
              clickedNode (nodes s)) s).

(** Every node has a circle and a label, so both passes of [selectAll] and
    [selectNone] reach every node. *)
Definition selectAll (s : State) : State :=
  visibilityEffect (with_nodes (map (Node.set_visible true) (nodes s)) s).

Definition selectNone (s : State) : State :=
  visibilityEffect (with_nodes (map (Node.set_visible false) (nodes s)) s).

(** *** Per-tick positions *)

Definition tick_link (nodes : list Node.t) (d : Link.t)
    : option (number * number * number * number) :=
  src ← deref nodes (Link.source d);
  tgt ← deref nodes (Link.target d);
  Some (getNodeX src, getNodeY src, getNodeX tgt, getNodeY tgt).

Definition tick_node (d : Node.t) : number * number :=
  (default JS.zero (Node.x d), default JS.zero (Node.y d)).

(** *** Drag handlers *)

Definition of_option (o : option number) : JS.nullable :=
  match o with Some v => JS.Num v | None => JS.Undefined end.

(** [active] is [event.active]: the number of other drag gestures in
    progress. *)
Definition dragstarted (active : nat) (d : nat) (s : State) : State :=
  let sim :=
    if Nat.eqb active 0
    then (fun sim => d3.restart (d3.set_alphaTarget config.simulationAlpha sim))
           <$> simulation s
    else simulation s in
  with_nodes
    (alter (fun n => Node.set_fixed (of_option (Node.x n))
                                    (of_option (Node.y n)) n) d (nodes s))
    (with_simulation sim s).

Definition dragged (event_x event_y : number) (d : nat) (s : State) : State :=
  with_nodes
    (alter (Node.set_fixed (JS.Num event_x) (JS.Num event_y)) d (nodes s)) s.

Definition dragended (active : nat) (d : nat) (s : State) : State :=
  let sim :=
    if Nat.eqb active 0
    then d3.set_alphaTarget JS.zero <$> simulation s
    else simulation s in
  with_nodes
    (alter (Node.set_fixed JS.Null JS.Null) d (nodes s))
    (with_simulation sim s).

(** *** Hover handlers *)

Definition id_is (o : option Node.t) (id : string) : bool :=
  match o with Some n => String.eqb (Node.id n) id | None => false end.

Definition is_visible (o : option Node.t) : bool :=
  match o with Some n => Node.visible n | None => false end.

(** The condition under which [links.forEach] records link [l]. *)
Definition connects (currentFilter : string) (nodes : list Node.t)
    (d : Node.t) (l : Link.t) : bool :=
  let sourceNode := node_of nodes (Link.source l) in
  let targetNode := node_of nodes (Link.target l) in
  ((id_is sourceNode (Node.id d) && is_visible targetNode)
   || (id_is targetNode (Node.id d) && is_visible sourceNode))
  && isLinkVisible currentFilter l.

Definition add_node (o : option Node.t) (ids : gset string) : gset string :=
  match o with Some n => {[Node.id n]} ∪ ids | None => ids end.

Definition connected_step (currentFilter : string) (nodes : list Node.t)
    (d : Node.t) (acc : gset string * gset nat) (il : nat * Link.t)
    : gset string * gset nat :=
  if connects currentFilter nodes d il.2 then
    (add_node (node_of nodes (Link.target il.2))
       (add_node (node_of nodes (Link.source il.2)) acc.1),
     {[il.1]} ∪ acc.2)
  else acc.

(** [connectedNodeIds] and [connectedLinkIndices] once the loop is done. *)
Definition connected (currentFilter : string) (nodes : list Node.t)
    (links : list Link.t) (d : Node.t) : gset string * gset nat :=
  fold_left (connected_step currentFilter nodes d)
            (imap (fun index l => (index, l)) links)
            ({[Node.id d]}, ∅).

Definition highlightConnectedNodes (hovered : nat) (s : State) : State :=
  match nodes s !! hovered with
  | None => s
  | Some d =>
      if negb (Node.visible d) then s
      else
        let nodeColor := colorScale (nodes s) (Node.group d) in
        let '(connectedNodeIds, connectedLinkIndices) :=
          connected (currentFilter s) (nodes s) (links s) d in
        let node_opacity (n : Node.t) : number :=
          if negb (Node.visible n) then config.fadedOpacity
          else if bool_decide (Node.id n ∈ connectedNodeIds)
               then config.highlightOpacity else config.fadedOpacity in
        with_elts
          (imap (fun i e =>
                   let has := bool_decide (i ∈ connectedLinkIndices) in
                   mkLinkElt (negative e) (negb has) has (stroke_width e)
                     (if has then nodeColor else None)
                     (Some (if has then config.highlightOpacity
                            else config.fadedOpacity))
                     (display e))
                (linkElts s))
          (each (fun _ n e => set_opacity (Some (node_opacity n)) e)
                (nodes s) (nodeElts s))
          (each (fun _ n e => set_label_opacity (Some (node_opacity n)) e)
                (nodes s) (labelElts s))
          s
  end.

(** [classed('highlighted faded', false)] clears [highlighted]; no element
    ever has the class [faded], and [faded-link] stays. *)
Definition resetHighlightedNodes (s : State) : State :=
  with_elts
    (map (fun e =>
            mkLinkElt (negative e) (faded_link e) false (stroke_width e)
                      None (Some config.defaultLinkOpacity) (display e))
         (linkElts s))
    (each (fun _ n e => set_opacity (Some (baseline_opacity n)) e)
          (nodes s) (nodeElts s))
    (each (fun _ n e => set_label_opacity (Some (baseline_opacity n)) e)
          (nodes s) (labelElts s))
    s.

Definition highlightLink (hovered : nat) (s : State) : State :=
  match links s !! hovered with
  | None => s
  | Some d =>
      let width :=
        JS.mul (to_number (d3.call (linkScale (links s))
                                   (Math.abs (Link.value d))))
               (JS.of_Q (3 # 2)) in
      let sourceId := endpoint_id (nodes s) (Link.source d) in
      let targetId := endpoint_id (nodes s) (Link.target d) in
      let node_opacity (n : Node.t) : number :=
        if negb (Node.visible n) then config.fadedOpacity
        else if bool_decide (Some (Node.id n) = sourceId)
                || bool_decide (Some (Node.id n) = targetId)
             then config.highlightOpacity else config.fadedOpacity in
      with_elts
        (imap (fun i e =>
                 if Nat.eqb i hovered
                 then set_stroke_width (Some width)
                        (set_stroke_opacity (Some (JS.of_Z 1)) e)
                 else set_stroke_opacity (Some config.fadedOpacity) e)
              (linkElts s))
        (each (fun _ n e => set_opacity (Some (node_opacity n)) e)
              (nodes s) (nodeElts s))
        (each (fun _ n e => set_label_opacity (Some (node_opacity n)) e)
              (nodes s) (labelElts s))
        s
  end.

Definition resetLinkHighlight (s : State) : State :=
  with_elts
    (map (set_stroke_opacity (Some config.defaultLinkOpacity)) (linkElts s))
    (each (fun _ n e => set_opacity (Some (baseline_opacity n)) e)
          (nodes s) (nodeElts s))
    (each (fun _ n e => set_label_opacity (Some (baseline_opacity n)) e)
          (nodes s) (labelElts s))
    s.

(** *** The set-up effect and the link filter *)

Section SetUp.

(** [d3.forceSimulation(nodes)] moves a node to its fixed position, if it
    has one, and places a node that has no position on a spiral around
    the origin, by its index.  The coordinates on the spiral are
    irrational, so the placement is a parameter. *)
Variable initialPosition : nat -> number * number.

Definition initializeNodes (nodes : list Node.t) : list Node.t :=
  imap (fun i n =>
          let px := match Node.fx n with
                    | JS.Num v => Some v
                    | _ => Node.x n
                    end in
          let py := match Node.fy n with
                    | JS.Num v => Some v
                    | _ => Node.y n
                    end in
          if JS.isNaN (to_number px) || JS.isNaN (to_number py)
          then Node.set_xy (Some (initialPosition i).1)
                           (Some (initialPosition i).2) n
          else Node.set_xy px py n) nodes.

(** The body of the set-up effect, for the props [nodeData] and
    [edgeData] and the filter of the render it belongs to; [gen] counts
    the runs before this one and [old] holds their simulations. *)
Definition setup (nodeData : Object.t) (edgeData : list EdgeData)
    (currentFilter : string) (gen : nat) (old : list d3.Simulation)
    : result State :=
  let nodes := build_nodes nodeData in
  let links := build_links nodes edgeData in
  let size := sizeScale nodes in
  let width := linkScale links in
  let nodes := initializeNodes nodes in
  match forceLink nodes links with
  | Throw m => Throw m
  | Ok links =>
      Ok (mkState nodeData edgeData currentFilter nodes links
            (Some d3.forceSimulation) (S gen) old
            (map (fun d =>
                    mkLinkElt (JS.lt (Link.value d) JS.zero) false false
                      (d3.call width (Math.abs (Link.value d)))
                      None None None) links)
            (map (fun d =>
                    mkNodeElt (d3.call size (Node.value d))
                      (colorScale nodes (Node.group d)) None) nodes)
            (map (fun d =>
                    let radius := to_number (d3.call size (Node.value d)) in
                    mkLabelElt (Node.originalName d)
                      (JS.add radius config.labelOffset)
                      (JS.div radius (JS.of_Z 2)) None) nodes))
  end.

(** The component once mounted: [currentFilter] starts as ['all'], the
    set-up effect runs, and the visibility effect runs on the state it
    has set. *)
Definition mount (nodeData : Object.t) (edgeData : list EdgeData)
    : result State :=
  match setup nodeData edgeData "all" 0 [] with
  | Throw m => Throw m
  | Ok s => Ok (visibilityEffect s)
  end.

(** The clean-up of the set-up effect: [sim.stop()]. *)
Definition cleanup (s : State) : list d3.Simulation :=
  match simulation s with
  | Some sim => d3.stop sim :: retired s
  | None => retired s
  end.

(** [setCurrentFilter(mode)].  Setting the value the state already has
    renders nothing.  Otherwise [isLinkVisible] is a new function, which
    is a dependency of the set-up effect: its clean-up stops the old
    simulation, the effect runs again, and the visibility effect
    follows. *)
Definition setCurrentFilter (mode : string) (s : State) : result State :=
  if String.eqb mode (currentFilter s) then Ok s
  else
    match setup (nodeData s) (edgeData s) mode (generation s) (cleanup s)
    with
    | Throw m => Throw m
    | Ok s' => Ok (visibilityEffect s')
    end.

Definition showNegativeLinks : State -> result State :=
  setCurrentFilter "negative".
Definition showPositiveLinks : State -> result State :=
  setCurrentFilter "positive".
Definition resetView : State -> result State :=
  setCurrentFilter "all".

End SetUp.

(** [hasNegativeLinks] *)
Definition hasNegativeLinks (s : State) : bool :=
  existsb (fun link => JS.lt (Link.value link) JS.zero) (links s).

(** The example of [App.tsx]. *)
Definition app_nodeData : Object.t :=
  [("Node 1", JS.of_Z 10); ("Node 2", JS.of_Z 20); ("Node 3", JS.of_Z 15);
   ("Node 4", JS.of_Z 25); ("Node 5", JS.of_Z 30)].

Definition app_edgeData : list EdgeData :=
  [mkEdge "Node 1" "Node 2" (JS.of_Z 1);
   mkEdge "Node 1" "Node 3" (JS.of_Z (-2));
   mkEdge "Node 2" "Node 4" (JS.of_Z 3);
   mkEdge "Node 3" "Node 5" (JS.of_Z 4);
   mkEdge "Node 4" "Node 5" (JS.of_Z (-5))].

(** The component before its first effect has run. *)
Definition unmounted (nd : Object.t) (ed : list EdgeData) : State :=
  mkState nd ed "all" [] [] None 0 [] [] [] [].

(** A placement to run examples with. *)
Definition origin (i : nat) : number * number := (JS.zero, JS.zero).


(** The state a step has led to, for running examples. *)
Definition get (res : result State) : State :=
  match res with
  | Ok s => s
  | Throw _ => unmounted [] []
  end.

(** The example of [App.tsx], mounted. *)
Definition app_state : State := get (mount origin app_nodeData app_edgeData).

(** Two nodes joined by a link whose value is [NaN], mounted, with the
    filter then set to ['negative']. *)
Definition nan_state : State :=
  get (showNegativeLinks origin
         (get (mount origin [("A", JS.of_Z 1); ("B", JS.of_Z 2)]
                     [mkEdge "A" "B" JS.NaN]))).

(** The scenario of the specification: three nodes, and three edges of
    which the last refers to a node that does not exist. *)
Definition scenario_state : State :=
  get (mount origin
         [("A", JS.of_Z 10); ("B", JS.of_Z 20); ("C", JS.of_Z 15)]
         [mkEdge "A" "B" (JS.of_Z 5); mkEdge "B" "C" (JS.of_Z (-3));
          mkEdge "A" "D" (JS.of_Z 1)]).

(** The two sets [highlightConnectedNodes] computes for the node at index
    [hovered]. *)
Definition connected_of (hovered : nat) (s : State)
    : option (gset string * gset nat) :=
  d ← nodes s !! hovered;
  Some (connected (currentFilter s) (nodes s) (links s) d).

(** The filter modes, and the string [currentFilter] holds for each. *)
Inductive FilterMode : Type := All | Positive | Negative.

Definition mode_name (m : FilterMode) : string :=
  match m with
  | All => "all"
  | Positive => "positive"
  | Negative => "negative"
  end.

(** *** Ticks

    The forces are not modelled: a tick of the simulation may move any
    node anywhere.  [positions] gives the new coordinates by node index. *)
Definition tick (positions : list (number * number)) (s : State) : State :=
  with_nodes
    (imap (fun i n =>
             match positions !! i with
             | Some p => Node.set_xy (Some p.1) (Some p.2) n
             | None => n
             end) (nodes s)) s.

(** *** The states the component reaches *)

Inductive reachable (initialPosition : nat -> number * number)
    : State -> Prop :=
| reach_mount nd ed s :
    NoDup (Object.keys nd) ->
    mount initialPosition nd ed = Ok s ->
    reachable initialPosition s
| reach_filter m s s' :
    reachable initialPosition s ->
    setCurrentFilter initialPosition (mode_name m) s = Ok s' ->
    reachable initialPosition s'
| reach_toggle i s :
    reachable initialPosition s ->
    reachable initialPosition (updateNodeVisibility i s)
| reach_selectAll s :
    reachable initialPosition s -> reachable initialPosition (selectAll s)
| reach_selectNone s :
    reachable initialPosition s -> reachable initialPosition (selectNone s)
| reach_hover_node h s :
    reachable initialPosition s ->
    reachable initialPosition (highlightConnectedNodes h s)
| reach_leave_node s :
    reachable initialPosition s ->
    reachable initialPosition (resetHighlightedNodes s)
| reach_hover_link i s :
    reachable initialPosition s ->
    reachable initialPosition (highlightLink i s)
| reach_leave_link s :
    reachable initialPosition s ->
    reachable initialPosition (resetLinkHighlight s)
| reach_dragstarted active d s :
    reachable initialPosition s ->
    reachable initialPosition (dragstarted active d s)
| reach_dragged ex ey d s :
    reachable initialPosition s ->
    reachable initialPosition (dragged ex ey d s)
| reach_dragended active d s :
    reachable initialPosition s ->
    reachable initialPosition (dragended active d s)
| reach_tick positions s :
    reachable initialPosition s ->
    reachable initialPosition (tick positions s).

(** *** The legend

    One entry per node of [nodesArray], in order: the name, the colour of
    the swatch and the opacity of the entry. *)
Record LegendItem : Type := mkLegendItem {
  legend_text : string;
  legend_color : option string;
  legend_opacity : number;
}.

Definition legend (s : State) : list LegendItem :=
  imap (fun index node =>
          mkLegendItem (Node.originalName node)
            (config.colors !! (index mod length config.colors)%nat)
            (if Node.visible node then JS.of_Z 1 else config.legendOpacity))
       (nodes s).

(** *** A drag gesture

    [dragstarted] restarts the timer of the simulation, so the simulation
    ticks between the events of a gesture.  A tick of d3 puts a node whose
    [fx] ([fy]) is a number at that coordinate; a node that is not fixed
    goes where the forces take it, [forces i] for the node of index [i]. *)
Definition pinned (c : JS.nullable) (free : number) : number :=
  match c with JS.Num v => v | _ => free end.

Definition simulation_tick (forces : nat -> number * number) (s : State)
    : State :=
  tick (imap (fun i n => (pinned (Node.fx n) (forces i).1,
                          pinned (Node.fy n) (forces i).2)) (nodes s)) s.

(** What happens while the node is held: the pointer moves, or the
    simulation ticks. *)
Inductive GestureStep : Type :=
| Move (event_x event_y : number)
| Tick (forces : nat -> number * number).

Definition gesture_step (d : nat) (s : State) (e : GestureStep) : State :=
  match e with
  | Move event_x event_y => dragged event_x event_y d s
  | Tick forces => simulation_tick forces s
  end.

(** Node [d] is grabbed and held through [steps], with no other gesture
    in progress. *)
Definition drag_run (d : nat) (steps : list GestureStep) (s : State)
    : State :=
  fold_left (gesture_step d) steps (dragstarted 0 d s).

(** The whole gesture: grabbed, held through [steps], released. *)
Definition drag_gesture (d : nat) (steps : list GestureStep) (s : State)
    : State :=
  dragended 0 d (drag_run d steps s).

(* ================================================================= *)
(** ** Vocabulary of the statements *)

(** The entry of [nodeData] a node stands for. *)
Definition entry_of (n : Node.t) : string * number :=
  (Node.id n, Node.value n).

(** A node as the set-up effect creates it. *)
Definition fresh_node (n : Node.t) : Prop :=
  Node.visible n = true /\ Node.originalName n = Node.id n
  /\ Node.group n = Node.id n
  /\ Node.x n = None /\ Node.y n = None
  /\ Node.fx n = JS.Undefined /\ Node.fy n = JS.Undefined.

(** Both endpoints of an edge are ids of the list. *)
Definition both_endpoints_known (ids : list string) (d : EdgeData) : Prop :=
  edge_source d ∈ ids /\ edge_target d ∈ ids.

#[global] Instance both_endpoints_known_dec ids d :
  Decision (both_endpoints_known ids d).
Proof. unfold both_endpoints_known. apply _. Defined.

(** An endpoint that [d3.forceLink] has resolved to a node of the list. *)
Definition resolved (ns : list Node.t) (e : endpoint) : Prop :=
  match e with
  | Obj r => r < length ns
  | Str _ => False
  end.

#[global] Instance resolved_dec ns e : Decision (resolved ns e).
Proof. destruct e; cbn; apply _. Defined.

(** Endpoint by endpoint, what [forceLink] makes of a list of links. *)
Definition resolves_to (ns : list Node.t) (l l' : Link.t) : Prop :=
  resolve ns (Link.source l) = Ok (Link.source l')
  /\ resolve ns (Link.target l) = Ok (Link.target l')
  /\ Link.value l' = Link.value l
  /\ resolved ns (Link.source l') /\ resolved ns (Link.target l').

(** The shape of every state the component reaches: node ids are pairwise
    distinct, every link endpoint is a node object of the current node list,
    and every datum has its element. *)
Record wf (s : State) : Prop := mk_wf {
  wf_ids : NoDup (map Node.id (nodes s));
  wf_links :
    Forall (fun l => resolved (nodes s) (Link.source l)
                     /\ resolved (nodes s) (Link.target l)) (links s);
  wf_linkElts : length (linkElts s) = length (links s);
  wf_nodeElts : length (nodeElts s) = length (nodes s);
  wf_labelElts : length (labelElts s) = length (nodes s);
}.

(** The filter test of the code, mode by mode. *)
Definition passes (m : FilterMode) (v : number) : bool :=
  match m with
  | All => true
  | Positive => JS.ge v JS.zero
  | Negative => JS.lt v JS.zero
  end.

(** The sign class in the words of the specification: positive when
    [value >= 0], negative otherwise. *)
Inductive SignClass : Type := PositiveClass | NegativeClass.

Definition sign_class (v : number) : SignClass :=
  if JS.ge v JS.zero then PositiveClass else NegativeClass.

Definition class_matches (m : FilterMode) (c : SignClass) : bool :=
  match m, c with
  | All, _ => true
  | Positive, PositiveClass => true
  | Negative, NegativeClass => true
  | _, _ => false
  end.

(** The [visible] flag of the node object an endpoint refers to. *)
Definition endpoint_visible (ns : list Node.t) (e : endpoint) : bool :=
  match e with
  | Obj i => match ns !! i with Some n => Node.visible n | None => false end
  | Str _ => false
  end.

(** Link renderability in the words of the specification. *)
Definition spec_renders (m : FilterMode) (ns : list Node.t) (d : Link.t)
    : bool :=
  endpoint_visible ns (Link.source d) && endpoint_visible ns (Link.target d)
  && class_matches m (sign_class (Link.value d)).

(** The render decision of the code: the [display] style is ['inline']. *)
Definition renders (currentFilter : string) (ns : list Node.t) (d : Link.t)
    : bool :=
  bool_decide (link_display currentFilter ns d = Some "inline").

(** Link [l] qualifies for the hovered node: the hovered node object is
    one endpoint, the node object [other] is the other endpoint and is
    visible, and the link passes the current filter predicate. *)
Definition qualifies (currentFilter : string) (ns : list Node.t)
    (hovered : nat) (l : Link.t) (other : nat) : Prop :=
  ((Link.source l = Obj hovered /\ Link.target l = Obj other)
   \/ (Link.target l = Obj hovered /\ Link.source l = Obj other))
  /\ endpoint_visible ns (Obj other) = true
  /\ isLinkVisible currentFilter l = true.

(** The upper end of a scale's domain, given the maximum [d3.max] has
    found: the maximum itself, or 1 when there is none or it is 0. *)
Definition domain_top (mx : option number) : number :=
  match mx with
  | Some m => if decide (m = JS.zero) then JS.one else m
  | None => JS.one
  end.

(** Some node value or link value of the input is [NaN] or infinite. *)
Definition has_non_finite (nd : Object.t) (ed : list EdgeData) : Prop :=
  Exists (fun e => JS.isFinite e.2 = false) nd
  \/ Exists (fun d => JS.isFinite (edge_value d) = false) ed.

(** What holds of every reachable state. *)
Definition invariant (s : State) : Prop :=
  wf s
  /\ NoDup (Object.keys (nodeData s))
  /\ is_Some (simulation s)
  /\ exists m : FilterMode, currentFilter s = mode_name m.

(** Every node has a position. *)
Definition positioned (s : State) : Prop :=
  Forall (fun n => is_Some (Node.x n) /\ is_Some (Node.y n)) (nodes s).

(** The simulations of earlier runs are stopped, and there is one of them
    for every run of the set-up effect but the latest. *)
Definition superseded_stopped (s : State) : Prop :=
  Forall (fun sim => d3.running sim = false) (retired s)
  /\ S (length (retired s)) = generation s.

(** The edges of [edgeData] that model construction keeps. *)
Definition kept_edges (nd : Object.t) (ed : list EdgeData) : list EdgeData :=
  filter (both_endpoints_known (Object.keys nd)) ed.

(** Link [l] is the edge [d] with its endpoints resolved to the node
    objects of those ids. *)
Definition link_of (ns : list Node.t) (d : EdgeData) (l : Link.t) : Prop :=
  endpoint_id ns (Link.source l) = Some (edge_source d)
  /\ endpoint_id ns (Link.target l) = Some (edge_target d)
  /\ resolved ns (Link.source l) /\ resolved ns (Link.target l)
  /\ Link.value l = edge_value d.

(** A finite value within the closed interval of two others. *)
Definition between (lo hi v : number) : Prop :=
  JS.isFinite v = true /\ JS.ge v lo = true /\ JS.ge hi v = true.

(** What a handler other than the set-up effect leaves alone: the props,
    the filter, the run count and the superseded simulations, the presence
    of the current simulation, the ids and values of the nodes, the links,
    the fill of every circle, and the fact that every node has a
    position. *)
Definition keeps_setup (s s' : State) : Prop :=
  nodeData s' = nodeData s /\ edgeData s' = edgeData s
  /\ currentFilter s' = currentFilter s
  /\ retired s' = retired s /\ generation s' = generation s
  /\ (is_Some (simulation s) -> is_Some (simulation s'))
  /\ map entry_of (nodes s') = map entry_of (nodes s)
  /\ links s' = links s
  /\ map fill (nodeElts s') = map fill (nodeElts s)
  /\ (positioned s -> positioned s').

(** The pointer position a gesture reported last, [start] when the pointer
    has not moved. *)
Definition last_pointer (start : number * number)
    (steps : list GestureStep) : number * number :=
  fold_left (fun p e => match e with
                        | Move event_x event_y => (event_x, event_y)
                        | Tick _ => p
                        end) steps start.

Definition is_move (e : GestureStep) : Prop :=
  match e with Move _ _ => True | Tick _ => False end.

(** Node [n] at position [pos], fixed at [pin]. *)
Definition held (pos pin : number * number) (n : Node.t) : Node.t :=
  Node.set_fixed (JS.Num pin.1) (JS.Num pin.2)
    (Node.set_xy (Some pos.1) (Some pos.2) n).

(** What a gesture on node [d] leaves alone: everything but the
    simulation, the positions of the nodes and the fixed position of
    [d]. *)
Definition gesture_frame (d : nat) (s s' : State) : Prop :=
  nodeData s' = nodeData s /\ edgeData s' = edgeData s
  /\ currentFilter s' = currentFilter s /\ links s' = links s
  /\ generation s' = generation s /\ retired s' = retired s
  /\ linkElts s' = linkElts s /\ nodeElts s' = nodeElts s
  /\ labelElts s' = labelElts s
  /\ length (nodes s') = length (nodes s)
  /\ forall j : nat,
       j <> d ->
       Node.set_xy None None <$> nodes s' !! j
       = Node.set_xy None None <$> nodes s !! j.

(* ================================================================= *)
(** * Facts *)

(** ** Strings and numbers *)

Lemma eqb_true_iff (a b : string) : String.eqb a b = true <-> a = b.
Proof. apply String.eqb_eq. Qed.

Lemma has_id_spec (ns : list Node.t) (k : string) :
  has_id ns k = true <-> k ∈ map Node.id ns.
Proof.
  unfold has_id. rewrite existsb_exists, list_elem_of_fmap.
  split.
  - intros (n & Hin & Heq). apply eqb_true_iff in Heq.
    exists n. split; [done | by apply list_elem_of_In].
  - intros (n & -> & Hin). exists n.
    split; [by apply list_elem_of_In | by apply eqb_true_iff].
Qed.

(** [Array.prototype.filter] with a boolean callback against the filter of
    a decidable property. *)
Lemma filter_bool_prop {A : Type} (f : A -> bool) (P : A -> Prop)
    `{!forall a, Decision (P a)} (l : list A) :
  (forall a, f a = true <-> P a) -> List.filter f l = filter P l.
Proof.
  intros Hf. induction l as [| a l IH]; [done |].
  cbn [List.filter]. rewrite filter_cons. destruct (decide (P a)) as [HP | HP].
  - apply Hf in HP. rewrite HP. by f_equal.
  - destruct (f a) eqn:Hfa; [by apply Hf in Hfa | done].
Qed.

(** ** [Object.entries] *)

Lemma insert_index_perm n e l :
  Object.insert_index n e l ≡ₚ (n, e) :: l.
Proof.
  induction l as [| [m e'] l IH]; cbn [Object.insert_index]; [done |].
  destruct (n <? m)%N; [done |].
  rewrite IH. apply Permutation_swap.
Qed.

Lemma index_props_perm (o : Object.t) :
  map snd (Object.index_props o) ≡ₚ List.filter Object.is_index o.
Proof.
  induction o as [| e o IH]; [done |].
  cbn [Object.index_props fold_right List.filter]. unfold Object.is_index.
  fold (Object.index_props o).
  destruct (Object.array_index e.1) as [n |]; [| exact IH].
  rewrite insert_index_perm. cbn. by rewrite IH.
Qed.

Lemma filter_split_perm {A : Type} (f : A -> bool) (l : list A) :
  List.filter f l ++ List.filter (fun a => negb (f a)) l ≡ₚ l.
Proof.
  induction l as [| a l IH]; [done |].
  cbn [List.filter]. destruct (f a); cbn.
  - by rewrite IH.
  - rewrite <- Permutation_middle. by rewrite IH.
Qed.

Lemma entries_perm (o : Object.t) : Object.entries o ≡ₚ o.
Proof.
  unfold Object.entries, Object.string_props.
  rewrite index_props_perm. apply filter_split_perm.
Qed.

Lemma insert_index_sorted n e l :
  StronglySorted N.le (map fst l) ->
  StronglySorted N.le (map fst (Object.insert_index n e l)).
Proof.
  induction l as [| [m e'] l IH]; intros Hs; cbn [Object.insert_index].
  - repeat constructor.
  - inversion Hs as [| ? ? Hs' Hall]; subst.
    destruct (n <? m)%N eqn:Hnm.
    + apply N.ltb_lt in Hnm. cbn. constructor; [done |].
      constructor; [lia |].
      eapply Forall_impl; [exact Hall |]. cbn. intros; lia.
    + apply N.ltb_ge in Hnm. cbn. constructor; [by apply IH |].
      rewrite (insert_index_perm n e l). cbn. by constructor.
Qed.

Lemma index_props_sorted (o : Object.t) :
  StronglySorted N.le (map fst (Object.index_props o)).
Proof.
  induction o as [| e o IH]; [constructor |].
  cbn [Object.index_props fold_right]. fold (Object.index_props o).
  destruct (Object.array_index e.1); [by apply insert_index_sorted | done].
Qed.

Lemma index_props_keys (o : Object.t) :
  Forall (fun ne => Object.array_index ne.2.1 = Some ne.1)
         (Object.index_props o).
Proof.
  induction o as [| e o IH]; [constructor |].
  cbn [Object.index_props fold_right]. fold (Object.index_props o).
  destruct (Object.array_index e.1) eqn:He; [| done].
  rewrite (insert_index_perm n e). by constructor.
Qed.

Lemma index_props_no_index (o : Object.t) :
  Forall (fun e => Object.array_index e.1 = None) o ->
  Object.index_props o = [] /\ Object.string_props o = o.
Proof.
  induction 1 as [| e o He _ [IH1 IH2]]; [done |].
  unfold Object.string_props, Object.is_index in *.
  cbn [Object.index_props fold_right List.filter].
  fold (Object.index_props o). rewrite He. cbn. split; [done | by f_equal].
Qed.

Lemma entries_no_index (o : Object.t) :
  Forall (fun e => Object.array_index e.1 = None) o -> Object.entries o = o.
Proof.
  intros [H1 H2]%index_props_no_index. unfold Object.entries.
  by rewrite H1, H2.
Qed.

(** ** Model construction *)

Lemma build_nodes_entries (nd : Object.t) :
  map entry_of (build_nodes nd) = Object.entries nd.
Proof.
  unfold build_nodes. rewrite map_map.
  induction (Object.entries nd) as [| [k v] l IH]; [done |].
  cbn. by rewrite IH.
Qed.

Lemma build_nodes_ids (nd : Object.t) :
  map Node.id (build_nodes nd) = map fst (Object.entries nd).
Proof.
  rewrite <- build_nodes_entries, map_map. done.
Qed.

Lemma build_nodes_fresh (nd : Object.t) :
  Forall fresh_node (build_nodes nd).
Proof.
  unfold build_nodes. apply Forall_fmap, Forall_forall.
  intros [k v] _. by repeat split.
Qed.

Lemma build_links_filter (ns : list Node.t) (ed : list EdgeData) :
  build_links ns ed
  = link_of_edge <$> filter (both_endpoints_known (map Node.id ns)) ed.
Proof.
  unfold build_links. f_equal. apply filter_bool_prop.
  intros d. unfold edge_kept, both_endpoints_known.
  by rewrite andb_true_iff, !has_id_spec.
Qed.

(** ** Resolving link endpoints *)

Lemma find_ref_lookup (ns : list Node.t) (k : string) (i : nat) :
  find_ref ns k = Some i ->
  exists n, ns !! i = Some n /\ Node.id n = k.
Proof.
  revert i. induction ns as [| n ns IH]; intros i; [done |].
  cbn [find_ref]. destruct (find_ref ns k) as [j |] eqn:Hj.
  - intros [= <-]. destruct (IH j eq_refl) as (m & Hm & Hid). by exists m.
  - destruct (String.eqb (Node.id n) k) eqn:Hk; [| done].
    intros [= <-]. exists n. split; [done | by apply eqb_true_iff].
Qed.

Lemma find_ref_elem (ns : list Node.t) (k : string) :
  k ∈ map Node.id ns -> is_Some (find_ref ns k).
Proof.
  induction ns as [| n ns IH]; cbn [map find_ref].
  - by intros ?%elem_of_nil.
  - intros [-> | Hin]%elem_of_cons.
    + destruct (find_ref ns (Node.id n)); [done |].
      by rewrite String.eqb_refl.
    + destruct (IH Hin) as [j ->]. done.
Qed.

Lemma resolve_known (ns : list Node.t) (k : string) :
  k ∈ map Node.id ns ->
  exists i, resolve ns (Str k) = Ok (Obj i) /\ resolved ns (Obj i)
            /\ Node.id <$> ns !! i = Some k.
Proof.
  intros [i Hi]%find_ref_elem. exists i. cbn. rewrite Hi.
  destruct (find_ref_lookup _ _ _ Hi) as (n & Hn & Hid).
  split; [done |]. split.
  - by apply lookup_lt_Some in Hn.
  - by rewrite Hn, <- Hid.
Qed.

Lemma forceLink_known (ns : list Node.t) (ed : list EdgeData) :
  Forall (both_endpoints_known (map Node.id ns)) ed ->
  exists ls, forceLink ns (map link_of_edge ed) = Ok ls
             /\ Forall2 (resolves_to ns) (map link_of_edge ed) ls.
Proof.
  induction 1 as [| d ed [Hs Ht] _ (ls & Hls & Hall)].
  - exists []. split; [done | constructor].
  - destruct (resolve_known ns _ Hs) as (i & Hi & Hri & _).
    destruct (resolve_known ns _ Ht) as (j & Hj & Hrj & _).
    exists (Link.mk (Obj i) (Obj j) (edge_value d) :: ls).
    cbn [map forceLink link_of_edge Link.source Link.target Link.value].
    rewrite Hi, Hj. cbn [map] in Hls. rewrite Hls. split; [done |].
    constructor; [| done]. by repeat split.
Qed.

(** ** The set-up effect *)

Section SetUpFacts.

Variable initialPosition : nat -> number * number.

Lemma initializeNodes_lookup (ns : list Node.t) (i : nat) (n : Node.t) :
  initializeNodes initialPosition ns !! i = Some n ->
  exists n0, ns !! i = Some n0
             /\ Node.id n = Node.id n0 /\ Node.value n = Node.value n0
             /\ Node.visible n = Node.visible n0
             /\ Node.group n = Node.group n0
             /\ Node.originalName n = Node.originalName n0.
Proof.
  unfold initializeNodes. rewrite list_lookup_imap.
  destruct (ns !! i) as [n0 |]; [| done]. cbn.
  intros [= <-]. exists n0. split; [done |].
  by destruct (_ || _).
Qed.

Lemma initializeNodes_length (ns : list Node.t) :
  length (initializeNodes initialPosition ns) = length ns.
Proof. apply length_imap. Qed.

Lemma initializeNodes_map {B : Type} (f : Node.t -> B) (ns : list Node.t) :
  (forall px py n, f (Node.set_xy px py n) = f n) ->
  map f (initializeNodes initialPosition ns) = map f ns.
Proof.
  intros Hf. unfold initializeNodes. apply list_eq. intros i.
  rewrite !list_lookup_fmap, list_lookup_imap.
  destruct (ns !! i) as [n |]; [| done]. cbn. f_equal.
  by destruct (_ || _).
Qed.

Lemma initializeNodes_ids (ns : list Node.t) :
  map Node.id (initializeNodes initialPosition ns) = map Node.id ns.
Proof. by apply initializeNodes_map. Qed.

Lemma build_links_known (ns ns' : list Node.t) (ed : list EdgeData) :
  map Node.id ns' = map Node.id ns ->
  Forall (both_endpoints_known (map Node.id ns'))
         (List.filter (edge_kept ns) ed).
Proof.
  intros ->. apply Forall_forall. intros d Hd%list_elem_of_In.
  apply filter_In in Hd as [_ Hd]. unfold edge_kept in Hd.
  apply andb_true_iff in Hd as [H1 H2].
  split; by apply has_id_spec.
Qed.

(** The set-up effect never throws: every endpoint [forceLink] has to
    look up belongs to a node, because the links were filtered. *)
Lemma setup_ok (nd : Object.t) (ed : list EdgeData) (f : string)
    (gen : nat) (old : list d3.Simulation) :
  exists s, setup initialPosition nd ed f gen old = Ok s
    /\ nodeData s = nd /\ edgeData s = ed /\ currentFilter s = f
    /\ nodes s = initializeNodes initialPosition (build_nodes nd)
    /\ Forall2 (resolves_to (nodes s))
               (build_links (build_nodes nd) ed) (links s)
    /\ simulation s = Some d3.forceSimulation
    /\ generation s = S gen
    /\ retired s = old
    /\ length (linkElts s) = length (links s)
    /\ length (nodeElts s) = length (nodes s)
    /\ length (labelElts s) = length (nodes s).
Proof.
  unfold setup.
  destruct (forceLink_known
              (initializeNodes initialPosition (build_nodes nd))
              (List.filter (edge_kept (build_nodes nd)) ed))
    as (ls & Hls & Hall).
  { apply build_links_known, initializeNodes_ids. }
  unfold build_links. rewrite Hls. eexists. split; [done |].
  cbn. by rewrite !length_map.
Qed.

Lemma setup_wf (nd : Object.t) (ed : list EdgeData) (f : string)
    (gen : nat) (old : list d3.Simulation) (s : State) :
  NoDup (Object.keys nd) ->
  setup initialPosition nd ed f gen old = Ok s -> wf s.
Proof.
  intros Hnd Hs.
  destruct (setup_ok nd ed f gen old)
    as (s' & Hs' & _ & _ & _ & Hn & Hl & _ & _ & _ & H1 & H2 & H3).
  rewrite Hs in Hs'. injection Hs' as <-.
  split; try done.
  - rewrite Hn, initializeNodes_ids, build_nodes_ids.
    unfold Object.keys in Hnd. by rewrite entries_perm.
  - apply Forall_forall. intros l Hl'.
    apply list_elem_of_lookup in Hl' as [i Hi].
    destruct (Forall2_lookup_r _ _ _ _ _ Hl Hi) as (l0 & _ & Hr).
    by destruct Hr as (_ & _ & _ & ? & ?).
Qed.

End SetUpFacts.

(** C1 (amended).  Model construction makes exactly one node per entry of
    [nodeData], with [visible] true, in the order of [Object.entries]: the
    keys that are array indices first, in ascending numeric order, then the
    other keys in insertion order; this is insertion order when no key is an
    array index.  It keeps exactly the edges whose source and target are
    both ids of produced nodes, in their relative order.  Nothing throws,
    and empty input gives empty node and link lists. *)
Theorem build_model (nd : Object.t) (ed : list EdgeData) :
  let nodes := (build nd ed).1 in
  let links := (build nd ed).2 in
  map entry_of nodes ≡ₚ nd
  /\ (exists ixs : list (N * (string * number)),
        map entry_of nodes
        = map snd ixs ++ filter (fun e => Object.array_index e.1 = None) nd
        /\ map snd ixs
           ≡ₚ filter (fun e => is_Some (Object.array_index e.1)) nd
        /\ Forall (fun ne => Object.array_index ne.2.1 = Some ne.1) ixs
        /\ StronglySorted N.le (map fst ixs))
  /\ (Forall (fun e => Object.array_index e.1 = None) nd ->
      map entry_of nodes = nd)
  /\ Forall fresh_node nodes
  /\ links
     = link_of_edge <$> filter (both_endpoints_known (map Node.id nodes)) ed
  /\ (forall initialPosition f gen old,
        exists s, setup initialPosition nd ed f gen old = Ok s)
  /\ build [] ed = ([], [])
  /\ (build nd []).2 = [].
Proof.
  cbn zeta. unfold build. cbn [fst snd].
  rewrite build_nodes_entries.
  split; [apply entries_perm |].
  split.
  { exists (Object.index_props nd). split; [| split; [| split]].
    - unfold Object.entries, Object.string_props. f_equal.
      apply filter_bool_prop. intros e. unfold Object.is_index.
      destruct (Object.array_index e.1); by split.
    - rewrite index_props_perm.
      rewrite (filter_bool_prop Object.is_index
                 (fun e => is_Some (Object.array_index e.1))); [done |].
      intros e. unfold Object.is_index.
      destruct (Object.array_index e.1); split; try done.
    - apply index_props_keys.
    - apply index_props_sorted. }
  split; [apply entries_no_index |].
  split; [apply build_nodes_fresh |].
  split; [apply build_links_filter |].
  split; [| split; [| done]].
  - intros ip f gen old.
    destruct (setup_ok ip nd ed f gen old) as (s & Hs & _).
    by exists s.
  - f_equal. unfold build_links.
    by induction ed as [| d ed' IH].
Qed.

Lemma build_model_witness :
  Forall (fun e => Object.array_index e.1 = None) app_nodeData
  /\ map entry_of (build app_nodeData app_edgeData).1 = app_nodeData.
Proof.
  split; [by repeat constructor |].
  apply (build_model app_nodeData app_edgeData). by repeat constructor.
Defined.

(** C1, as first stated, fails: with the keys ["b"] and ["1"] inserted in
    this order, the node for ["1"] comes first. *)
Lemma build_order_counterexample :
  let nd : Object.t := [("b", JS.of_Z 1); ("1", JS.of_Z 2)] in
  NoDup (Object.keys nd)
  /\ map Node.id (build nd []).1 = ["1"; "b"]
  /\ map Node.id (build nd []).1 <> Object.keys nd.
Proof.
  cbn zeta. split; [| split].
  - compute_done.
  - reflexivity.
  - discriminate.
Qed.

(** ** The visibility effect and the legend *)

Lemma each_length {D E : Type} (f : nat -> D -> E -> E) (data : list D)
    (elts : list E) :
  length (each f data elts) = length elts.
Proof. apply length_imap. Qed.

Lemma each_lookup {D E : Type} (f : nat -> D -> E -> E) (data : list D)
    (elts : list E) (i : nat) (d : D) (e : E) :
  data !! i = Some d -> elts !! i = Some e ->
  each f data elts !! i = Some (f i d e).
Proof.
  intros Hd He. unfold each. by rewrite list_lookup_imap, He; cbn; rewrite Hd.
Qed.

Lemma visibilityEffect_nodes (s : State) :
  nodes (visibilityEffect s) = nodes s.
Proof. unfold visibilityEffect. by destruct (simulation s). Qed.

Lemma visibilityEffect_links (s : State) :
  links (visibilityEffect s) = links s.
Proof. unfold visibilityEffect. by destruct (simulation s). Qed.

Lemma visibilityEffect_simulation (s : State) :
  simulation (visibilityEffect s) = simulation s.
Proof. unfold visibilityEffect. by destruct (simulation s) eqn:E. Qed.

Lemma visibilityEffect_filter (s : State) :
  currentFilter (visibilityEffect s) = currentFilter s.
Proof. unfold visibilityEffect. by destruct (simulation s). Qed.

Lemma visibilityEffect_generation (s : State) :
  generation (visibilityEffect s) = generation s.
Proof. unfold visibilityEffect. by destruct (simulation s). Qed.

Lemma visibilityEffect_retired (s : State) :
  retired (visibilityEffect s) = retired s.
Proof. unfold visibilityEffect. by destruct (simulation s). Qed.

Lemma visibilityEffect_props (s : State) :
  nodeData (visibilityEffect s) = nodeData s
  /\ edgeData (visibilityEffect s) = edgeData s.
Proof. unfold visibilityEffect. by destruct (simulation s). Qed.

Lemma visibilityEffect_wf (s : State) : wf s -> wf (visibilityEffect s).
Proof.
  intros Hwf. unfold visibilityEffect.
  destruct (simulation s); [| done].
  destruct Hwf. split; cbn; by rewrite ?each_length.
Qed.

Lemma app_state_wf : wf app_state.
Proof. split; compute_done. Qed.

(** C8.  Clicking the legend entry of a node twice restores the [visible]
    flag of every node (the node list as a whole is as before); a single
    click does flip the flag of the clicked node. *)
Theorem toggle_twice (s : State) (i : nat) (n : Node.t) :
  nodes s !! i = Some n ->
  nodes (updateNodeVisibility i s) !! i
  = Some (Node.set_visible (negb (Node.visible n)) n)
  /\ nodes (updateNodeVisibility i (updateNodeVisibility i s)) = nodes s
  /\ map Node.visible
       (nodes (updateNodeVisibility i (updateNodeVisibility i s)))
     = map Node.visible (nodes s).
Proof.
  intros Hn. unfold updateNodeVisibility.
  rewrite !visibilityEffect_nodes. cbn [nodes with_nodes].
  assert (alter (fun n0 => Node.set_visible (negb (Node.visible n0)) n0) i
            (alter (fun n0 => Node.set_visible (negb (Node.visible n0)) n0) i
               (nodes s)) = nodes s) as Heq.
  { apply list_eq. intros j. destruct (decide (j = i)) as [-> | Hne].
    - rewrite !list_lookup_alter_eq, Hn. cbn. f_equal.
      destruct n. cbn. by rewrite negb_involutive.
    - by rewrite !list_lookup_alter_ne. }
  split; [| split].
  - by rewrite list_lookup_alter_eq, Hn.
  - exact Heq.
  - by rewrite Heq.
Qed.

Lemma toggle_twice_witness :
  nodes app_state !! 0 <> None
  /\ map Node.visible
       (nodes (updateNodeVisibility 0 (updateNodeVisibility 0 app_state)))
     = map Node.visible (nodes app_state).
Proof.
  split; [compute_done |].
  eapply (toggle_twice app_state 0). reflexivity.
Defined.

(** ** Dragging *)

(** C9 (amended).  Drag-start fixes the node at its current coordinates
    and, when no other drag gesture is active, sets the target temperature
    to [simulationAlpha] and restarts the simulation; each drag event sets
    the fixed position to the pointer position; drag-end releases the fixed
    position ([null]) and, when no other drag gesture is active, sets the
    target temperature to zero.  While another gesture is active the
    simulation is left as it is.  No other node is touched. *)
Theorem drag_protocol (s : State) (d : nat) (n : Node.t)
    (sim : d3.Simulation) (active : nat) (event_x event_y : number) :
  nodes s !! d = Some n ->
  simulation s = Some sim ->
  (nodes (dragstarted active d s) !! d
   = Some (Node.set_fixed (of_option (Node.x n)) (of_option (Node.y n)) n)
   /\ simulation (dragstarted active d s)
      = Some (if Nat.eqb active 0
              then d3.mkSim (d3.alpha sim) config.simulationAlpha true
              else sim))
  /\ (nodes (dragged event_x event_y d s) !! d
      = Some (Node.set_fixed (JS.Num event_x) (JS.Num event_y) n)
      /\ simulation (dragged event_x event_y d s) = Some sim)
  /\ (nodes (dragended active d s) !! d
      = Some (Node.set_fixed JS.Null JS.Null n)
      /\ simulation (dragended active d s)
         = Some (if Nat.eqb active 0
                 then d3.mkSim (d3.alpha sim) JS.zero (d3.running sim)
                 else sim))
  /\ (forall j, j <> d ->
        nodes (dragstarted active d s) !! j = nodes s !! j
        /\ nodes (dragged event_x event_y d s) !! j = nodes s !! j
        /\ nodes (dragended active d s) !! j = nodes s !! j).
Proof.
  intros Hn Hsim. unfold dragstarted, dragged, dragended.
  cbn [nodes simulation with_nodes with_simulation].
  rewrite !list_lookup_alter_eq, Hn, Hsim. cbn [fmap option_fmap option_map].
  repeat split; try by destruct (Nat.eqb active 0).
  all: by rewrite list_lookup_alter_ne.
Qed.

Lemma drag_protocol_witness :
  simulation (dragstarted 0 0 app_state)
  = Some (d3.mkSim JS.one config.simulationAlpha true).
Proof.
  eapply (drag_protocol app_state 0 _ d3.forceSimulation 0 JS.zero JS.zero);
    reflexivity.
Defined.

(** C9, as first stated, fails: a first gesture starts, a second gesture
    starts on another node, and the first one ends while the second is
    still active; the target temperature is not reset to zero. *)
Lemma drag_end_counterexample :
  let s1 := dragstarted 0 0 app_state in
  let s2 := dragstarted 1 1 s1 in
  let s3 := dragended 1 0 s2 in
  d3.alphaTarget <$> simulation s3 = Some config.simulationAlpha
  /\ config.simulationAlpha <> JS.zero.
Proof. cbn zeta. split; [reflexivity | compute_done]. Qed.

(** ** Per-tick coordinate lookups *)

Lemma tick_link_total (s : State) (l : Link.t) :
  wf s -> l ∈ links s -> is_Some (tick_link (nodes s) l).
Proof.
  intros Hwf Hl. destruct Hwf as [_ Hlinks _ _ _].
  rewrite Forall_forall in Hlinks. destruct (Hlinks l Hl) as [Hs Ht].
  unfold tick_link.
  destruct (Link.source l) as [? | a], (Link.target l) as [? | b];
    try done.
  cbn in Hs, Ht. apply lookup_lt_is_Some in Hs as [na Hna].
  apply lookup_lt_is_Some in Ht as [nb Hnb].
  cbn. rewrite Hna, Hnb. cbn. done.
Qed.

(** C10.  [getNodeX] and [getNodeY] are total: on an endpoint that is
    still a string id they return 0; on a node object they return the
    coordinate when it is defined and 0 when it is [undefined]; and in
    every well-formed state the tick handler gets the four coordinates of
    every link. *)
Theorem getNode_total :
  (forall k : string,
     getNodeX (inl k) = JS.zero /\ getNodeY (inl k) = JS.zero)
  /\ (forall (n : Node.t) (v : number),
        Node.x n = Some v -> getNodeX (inr n) = v)
  /\ (forall (n : Node.t) (v : number),
        Node.y n = Some v -> getNodeY (inr n) = v)
  /\ (forall n : Node.t, Node.x n = None -> getNodeX (inr n) = JS.zero)
  /\ (forall n : Node.t, Node.y n = None -> getNodeY (inr n) = JS.zero)
  /\ (forall (s : State) (l : Link.t),
        wf s -> l ∈ links s -> is_Some (tick_link (nodes s) l)).
Proof.
  repeat split.
  - intros n v Hv. cbn. by rewrite Hv.
  - intros n v Hv. cbn. by rewrite Hv.
  - intros n Hv. cbn. by rewrite Hv.
  - intros n Hv. cbn. by rewrite Hv.
  - apply tick_link_total.
Qed.

(** ** Link renderability *)

Lemma lt_zero_not_ge (v : number) :
  v <> JS.NaN -> JS.lt v JS.zero = negb (JS.ge v JS.zero).
Proof.
  destruct v as [| | | q]; try done. intros _. cbn.
  by destruct (q ?= _)%Qc.
Qed.

Lemma passes_class (m : FilterMode) (v : number) :
  v <> JS.NaN -> passes m v = class_matches m (sign_class v).
Proof.
  intros Hv. unfold sign_class. destruct m; cbn.
  - by destruct (JS.ge v JS.zero).
  - by destruct (JS.ge v JS.zero).
  - rewrite (lt_zero_not_ge v Hv). by destruct (JS.ge v JS.zero).
Qed.

Lemma isLinkVisible_passes (m : FilterMode) (d : Link.t) :
  isLinkVisible (mode_name m) d = passes m (Link.value d).
Proof.
  unfold isLinkVisible. destruct m; cbn; [done | |].
  - by rewrite orb_false_r.
  - done.
Qed.

Lemma find_by_id (ns : list Node.t) (i : nat) (n : Node.t) :
  NoDup (map Node.id ns) -> ns !! i = Some n ->
  List.find (fun m => String.eqb (Node.id m) (Node.id n)) ns = Some n.
Proof.
  revert i. induction ns as [| m ns IH]; intros i Hnd Hi; [done |].
  cbn [map] in Hnd. apply NoDup_cons in Hnd as [Hm Hnd].
  cbn [List.find]. destruct i as [| i]; cbn in Hi.
  - injection Hi as ->. by rewrite String.eqb_refl.
  - destruct (String.eqb (Node.id m) (Node.id n)) eqn:Heq.
    + apply eqb_true_iff in Heq. exfalso. apply Hm. rewrite Heq.
      apply list_elem_of_fmap. exists n. split; [done |].
      by eapply list_elem_of_lookup_2.
    + by eapply IH.
Qed.

Lemma find_visible_lookup (ns : list Node.t) (i : nat) (n : Node.t) :
  NoDup (map Node.id ns) -> ns !! i = Some n ->
  find_visible ns (Node.id n) = Node.visible n.
Proof.
  intros Hnd Hi. unfold find_visible. by rewrite (find_by_id ns i n).
Qed.

Lemma resolved_endpoint (ns : list Node.t) (e : endpoint) :
  resolved ns e -> exists i n, e = Obj i /\ ns !! i = Some n.
Proof.
  destruct e as [k | i]; [done |]. cbn.
  intros [n Hn]%lookup_lt_is_Some. by exists i, n.
Qed.

Lemma link_display_resolved (f : string) (ns : list Node.t) (d : Link.t) :
  NoDup (map Node.id ns) ->
  resolved ns (Link.source d) -> resolved ns (Link.target d) ->
  link_display f ns d
  = Some (if endpoint_visible ns (Link.source d)
             && endpoint_visible ns (Link.target d)
             && isLinkVisible f d
          then "inline" else "none").
Proof.
  intros Hnd (a & na & Ha & Hna)%resolved_endpoint
         (b & nb & Hb & Hnb)%resolved_endpoint.
  unfold link_display. rewrite Ha, Hb. cbn. rewrite Hna, Hnb. cbn.
  rewrite (find_visible_lookup ns a na), (find_visible_lookup ns b nb)
    by done.
  by destruct (Node.visible na), (Node.visible nb), (isLinkVisible f d).
Qed.

(** C2 (amended).  In every well-formed state a link renders exactly when
    both endpoint nodes are visible and its value passes the filter test:
    any value under ['all'], [value >= 0] under ['positive'], [value < 0]
    under ['negative'].  For a value other than [NaN] this is the match of
    the sign class (positive iff [value >= 0]) with the filter mode.
    Hiding either endpoint removes the link under every mode, and the
    visibility effect sets the link's [display] accordingly. *)
Theorem link_renderability (s : State) (i : nat) (d : Link.t)
    (m : FilterMode) :
  wf s ->
  currentFilter s = mode_name m ->
  links s !! i = Some d ->
  renders (currentFilter s) (nodes s) d
  = endpoint_visible (nodes s) (Link.source d)
    && endpoint_visible (nodes s) (Link.target d)
    && passes m (Link.value d)
  /\ (Link.value d <> JS.NaN ->
      renders (currentFilter s) (nodes s) d = spec_renders m (nodes s) d)
  /\ (endpoint_visible (nodes s) (Link.source d) = false
      \/ endpoint_visible (nodes s) (Link.target d) = false ->
      renders (currentFilter s) (nodes s) d = false)
  /\ (is_Some (simulation s) ->
      display <$> linkElts (visibilityEffect s) !! i
      = Some (Some (if renders (currentFilter s) (nodes s) d
                    then "inline" else "none"))).
Proof.
  intros Hwf Hm Hd.
  assert (Hwf' := Hwf). destruct Hwf' as [Hnd Hlinks Hlen _ _].
  rewrite Forall_forall in Hlinks.
  destruct (Hlinks d) as [Hs Ht]; [by eapply list_elem_of_lookup_2 |].
  assert (renders (currentFilter s) (nodes s) d
          = endpoint_visible (nodes s) (Link.source d)
            && endpoint_visible (nodes s) (Link.target d)
            && passes m (Link.value d)) as Hr.
  { unfold renders. rewrite link_display_resolved by done.
    rewrite Hm, isLinkVisible_passes.
    destruct (_ && _ && _); reflexivity. }
  split; [exact Hr |]. split; [| split].
  - intros Hv. rewrite Hr. unfold spec_renders. by rewrite passes_class.
  - rewrite Hr. intros [-> | ->]; [done |]. by rewrite andb_false_r.
  - intros [sim Hsim]. unfold visibilityEffect. rewrite Hsim.
    cbn [linkElts with_elts].
    destruct (lookup_lt_is_Some_2 (linkElts s) i) as [e He].
    { rewrite Hlen. by eapply lookup_lt_Some. }
    rewrite (each_lookup _ _ _ i d e) by done.
    unfold renders. rewrite link_display_resolved by done.
    cbn. clear Hr.
    destruct (endpoint_visible _ _ && endpoint_visible _ _
              && isLinkVisible _ _); reflexivity.
Qed.

Lemma link_renderability_witness :
  wf app_state /\ currentFilter app_state = mode_name All
  /\ display <$> linkElts (visibilityEffect app_state) !! 1
     = Some (Some "inline").
Proof.
  split; [exact app_state_wf |]. split; [reflexivity |].
  destruct (link_renderability app_state 1
              (Link.mk (Obj 0) (Obj 2) (JS.of_Z (-2))) All
              app_state_wf eq_refl eq_refl) as (_ & _ & _ & H).
  exact (H (mk_is_Some _ _ eq_refl)).
Defined.

(** C2, as first stated, fails on a link whose value is [NaN]: its sign
    class is not positive, so under ['negative'] the stated rule renders
    it, while the code hides it ([NaN < 0] is false). *)
Lemma renderability_nan_counterexample :
  wf nan_state /\ currentFilter nan_state = mode_name Negative
  /\ exists d : Link.t,
       links nan_state !! 0 = Some d
       /\ spec_renders Negative (nodes nan_state) d = true
       /\ renders (currentFilter nan_state) (nodes nan_state) d = false
       /\ display <$> linkElts nan_state !! 0 = Some (Some "none").
Proof.
  split; [split; compute_done |]. split; [reflexivity |].
  eexists. split; [reflexivity |]. by repeat split.
Qed.

(** ** Hovering a node *)

Lemma elem_of_add_node (o : option Node.t) (ids : gset string) (k : string) :
  k ∈ add_node o ids <-> (exists n, o = Some n /\ k = Node.id n) \/ k ∈ ids.
Proof.
  destruct o as [n |]; cbn.
  - rewrite elem_of_union, elem_of_singleton. split.
    + intros [-> | H]; [left; by exists n | by right].
    + intros [(n' & [= <-] & ->) | H]; [by left | by right].
  - split; [by right |]. by intros [(n & ? & _) | H].
Qed.

(** What the loop of [highlightConnectedNodes] has collected, in terms of
    the links it has accepted. *)
Lemma connected_fold (f : string) (ns : list Node.t) (d : Node.t)
    (ls : list Link.t) :
  forall (off : nat) (acc : gset string * gset nat),
    let res := fold_left (connected_step f ns d)
                 (imap (fun index l => (off + index, l)) ls) acc in
    (forall k, k ∈ res.1 <->
       k ∈ acc.1
       \/ exists i l n, ls !! i = Some l /\ connects f ns d l = true
            /\ (node_of ns (Link.source l) = Some n
                \/ node_of ns (Link.target l) = Some n)
            /\ k = Node.id n)
    /\ (forall j, j ∈ res.2 <->
          j ∈ acc.2
          \/ exists i l, ls !! i = Some l /\ connects f ns d l = true
               /\ j = off + i).
Proof.
  induction ls as [| l ls IH]; intros off acc; cbn zeta.
  - cbn. split; intros x; (split; [by left |]).
    + by intros [? | (i & l & n & ? & _)].
    + by intros [? | (i & l & ? & _)].
  - cbn [imap fold_left].
    rewrite (imap_ext _ (fun index l0 => (S off + index, l0)))
      by (intros; cbn; f_equal; lia).
    set (acc' := connected_step f ns d acc (off + 0, l)).
    destruct (IH (S off) acc') as [IH1 IH2]. cbn zeta in IH1, IH2.
    split.
    + intros k. rewrite IH1. clear IH1 IH2.
      subst acc'. unfold connected_step. cbn [fst snd].
      destruct (connects f ns d l) eqn:Hc; cbn [fst].
      * rewrite !elem_of_add_node. split.
        -- intros [[(n & Hn & ->) | [(n & Hn & ->) | Hk]]
                  | (i & l' & n & Hi & Hc' & Hn & ->)].
           ++ right. exists 0, l, n. by eauto.
           ++ right. exists 0, l, n. by eauto.
           ++ by left.
           ++ right. exists (S i), l', n. by eauto.
        -- intros [Hk | (i & l' & n & Hi & Hc' & Hn & ->)]; [by eauto |].
           destruct i as [| i]; cbn in Hi.
           ++ injection Hi as <-. left. destruct Hn; by eauto.
           ++ right. exists i, l', n. by eauto.
      * split.
        -- intros [Hk | (i & l' & n & Hi & Hc' & Hn & ->)]; [by left |].
           right. exists (S i), l', n. by eauto.
        -- intros [Hk | (i & l' & n & Hi & Hc' & Hn & ->)]; [by left |].
           destruct i as [| i]; cbn in Hi.
           ++ injection Hi as <-. congruence.
           ++ right. exists i, l', n. by eauto.
    + intros j. rewrite IH2. clear IH1 IH2.
      subst acc'. unfold connected_step. cbn [fst snd].
      destruct (connects f ns d l) eqn:Hc; cbn [snd].
      * rewrite elem_of_union, elem_of_singleton. split.
        -- intros [[-> | Hj] | (i & l' & Hi & Hc' & ->)].
           ++ right. exists 0, l. by eauto.
           ++ by left.
           ++ right. exists (S i), l'. split; [done |]. split; [done | lia].
        -- intros [Hj | (i & l' & Hi & Hc' & ->)]; [by eauto |].
           destruct i as [| i]; cbn in Hi.
           ++ injection Hi as <-. by eauto.
           ++ right. exists i, l'. split; [done |]. split; [done | lia].
      * split.
        -- intros [Hj | (i & l' & Hi & Hc' & ->)]; [by left |].
           right. exists (S i), l'. split; [done |]. split; [done | lia].
        -- intros [Hj | (i & l' & Hi & Hc' & ->)]; [by left |].
           destruct i as [| i]; cbn in Hi.
           ++ injection Hi as <-. congruence.
           ++ right. exists i, l'. split; [done |]. split; [done | lia].
Qed.

Lemma id_lookup_inj (ns : list Node.t) (a b : nat) (na nb : Node.t) :
  NoDup (map Node.id ns) ->
  ns !! a = Some na -> ns !! b = Some nb -> Node.id na = Node.id nb ->
  a = b.
Proof.
  intros Hnd Ha Hb Hid.
  apply (NoDup_lookup (map Node.id ns) a b (Node.id na) Hnd).
  - by rewrite list_lookup_fmap, Ha.
  - by rewrite list_lookup_fmap, Hb, Hid.
Qed.

Lemma connects_qualifies (f : string) (ns : list Node.t) (h : nat)
    (d : Node.t) (l : Link.t) :
  NoDup (map Node.id ns) -> ns !! h = Some d ->
  resolved ns (Link.source l) -> resolved ns (Link.target l) ->
  connects f ns d l = true <-> exists o, qualifies f ns h l o.
Proof.
  intros Hnd Hh (a & na & Ha & Hna)%resolved_endpoint
         (b & nb & Hb & Hnb)%resolved_endpoint.
  unfold connects, qualifies. rewrite Ha, Hb. cbn [node_of].
  rewrite Hna, Hnb. cbn [id_is is_visible endpoint_visible].
  rewrite andb_true_iff, orb_true_iff, !andb_true_iff, !eqb_true_iff.
  split.
  - intros [[[Hid Hv] | [Hid Hv]] Hf].
    + exists b. rewrite Hnb.
      by rewrite (id_lookup_inj ns a h na d) by done; eauto.
    + exists a. rewrite Hna.
      by rewrite (id_lookup_inj ns b h nb d) by done; eauto.
  - intros (o & [[[= ->] [= ->]] | [[= ->] [= ->]]] & Hv & Hf).
    + rewrite Hnb in Hv. assert (na = d) as -> by congruence. eauto.
    + rewrite Hna in Hv. assert (nb = d) as -> by congruence. eauto.
Qed.

(** C5.  For a visible hovered node, [connectedNodeIds] holds the hovered
    node's id and, for each link of which the hovered node is one endpoint,
    whose other endpoint is visible and which passes the current filter
    predicate, the other endpoint's id, whichever of source and target the
    hovered node is; [connectedLinkIndices] holds the indices of exactly
    those links.  Hovering a node that is not visible leaves the state as
    it is. *)
Theorem hover_connected (s : State) (h : nat) (d : Node.t) :
  wf s ->
  nodes s !! h = Some d ->
  (Node.visible d = true ->
   let sets := connected (currentFilter s) (nodes s) (links s) d in
   (forall k : string,
      k ∈ sets.1 <->
      k = Node.id d
      \/ exists (i : nat) (l : Link.t) (o : nat) (n : Node.t),
           links s !! i = Some l
           /\ qualifies (currentFilter s) (nodes s) h l o
           /\ nodes s !! o = Some n /\ k = Node.id n)
   /\ (forall i : nat,
         i ∈ sets.2 <->
         exists (l : Link.t) (o : nat),
           links s !! i = Some l
           /\ qualifies (currentFilter s) (nodes s) h l o))
  /\ (Node.visible d = false -> highlightConnectedNodes h s = s).
Proof.
  intros [Hnd Hlinks _ _ _] Hh. split.
  2: { intros Hv. unfold highlightConnectedNodes. by rewrite Hh, Hv. }
  intros _. cbn zeta. unfold connected.
  rewrite Forall_forall in Hlinks.
  assert (forall i l, links s !! i = Some l ->
            (connects (currentFilter s) (nodes s) d l = true
             <-> exists o, qualifies (currentFilter s) (nodes s) h l o)
            /\ exists a na b nb,
                 Link.source l = Obj a /\ nodes s !! a = Some na
                 /\ Link.target l = Obj b /\ nodes s !! b = Some nb)
    as Hq.
  { intros i l Hl. destruct (Hlinks l) as [Hs Ht];
      [by eapply list_elem_of_lookup_2 |].
    split; [by apply connects_qualifies |].
    apply resolved_endpoint in Hs as (a & na & ? & ?).
    apply resolved_endpoint in Ht as (b & nb & ? & ?).
    by exists a, na, b, nb. }
  destruct (connected_fold (currentFilter s) (nodes s) d (links s) 0
              ({[Node.id d]}, ∅)) as [H1 H2].
  cbn zeta in H1, H2. cbn [fst snd] in H1, H2. split.
  - intros k. rewrite H1, elem_of_singleton. clear H1 H2. split.
    + intros [-> | (i & l & n & Hl & Hc & Hn & ->)]; [by left |].
      destruct (Hq i l Hl) as [Hcq (a & na & b & nb & Ha & Hna & Hb & Hnb)].
      apply Hcq in Hc as [o Ho]. assert (Ho' := Ho).
      destruct Ho' as ([[Hs Ht] | [Ht Hs]] & Hv & Hf).
      * rewrite Hs, Ht in Hn. cbn in Hn. destruct Hn as [Hn | Hn].
        -- left. congruence.
        -- right. exists i, l, o, n. by eauto.
      * rewrite Hs, Ht in Hn. cbn in Hn. destruct Hn as [Hn | Hn].
        -- right. exists i, l, o, n. by eauto.
        -- left. congruence.
    + intros [-> | (i & l & o & n & Hl & Ho & Hn & ->)]; [by left |].
      right. exists i, l, n. split; [done |].
      destruct (Hq i l Hl) as [Hcq _]. split; [apply Hcq; by eauto |].
      split; [| done].
      destruct Ho as ([[Hs Ht] | [Ht Hs]] & _).
      * right. by rewrite Ht.
      * left. by rewrite Hs.
  - intros i. rewrite H2. clear H1 H2. split.
    + intros [?%elem_of_empty | (i' & l & Hl & Hc & ->)]; [done |].
      destruct (Hq i' l Hl) as [Hcq _]. apply Hcq in Hc as [o Ho].
      by exists l, o.
    + intros (l & o & Hl & Ho). right. exists i, l.
      destruct (Hq i l Hl) as [Hcq _]. split; [done |].
      split; [apply Hcq; by eauto | done].
Qed.

(** ** The scales *)

Section ScaleFacts.

Local Open Scope Qc_scope.

Lemma lt_Fin p q : JS.lt (JS.Fin p) (JS.Fin q) = true <-> p < q.
Proof. cbn. rewrite Qclt_alt. by destruct (p ?= q). Qed.

Lemma ge_Fin p q : JS.ge (JS.Fin p) (JS.Fin q) = true <-> q <= p.
Proof.
  cbn. change (q <= p) with (p >= q). rewrite Qcge_alt.
  by destruct (p ?= q).
Qed.

Lemma opp_nonzero (m : Qc) : m <> 0 -> 0 + - m <> 0.
Proof.
  intros Hm E. apply Hm. replace m with (- (0 + - m)) by ring.
  rewrite E. ring.
Qed.

Lemma sub_zero_nonzero (m : Qc) : m <> 0 -> m + - 0 <> 0.
Proof. intros Hm E. apply Hm. rewrite <- E. ring. Qed.

Lemma bimap_linear (m a b q : Qc) :
  m <> 0 ->
  d3.bimap JS.zero (JS.Fin m) (JS.Fin a) (JS.Fin b) (JS.Fin q)
  = JS.Fin (a + (b - a) * (q / m)).
Proof.
  intros Hm. unfold d3.bimap, d3.normalize, d3.interpolateNumber.
  destruct (JS.lt (JS.Fin m) JS.zero).
  - cbn. destruct (decide (0 + - m = 0)) as [E | E];
      [by apply opp_nonzero in E |].
    cbn. f_equal. field. split; [done |].
    intros E'. apply E. rewrite E'. ring.
  - cbn. destruct (decide (m + - 0 = 0)) as [E | E];
      [by apply sub_zero_nonzero in E |].
    cbn. f_equal. field. done.
Qed.

Lemma cube_nonzero (q : Qc) : q <> 0 -> q * (q * (q * 1)) <> 0.
Proof.
  intros Hq E. apply Qcmult_integral in E as [E | E]; [done |].
  apply Qcmult_integral in E as [E | E]; [done |].
  apply Qcmult_integral in E as [E | E]; [done |]. discriminate E.
Qed.

(** Equalities between finite values, by field arithmetic. *)
Ltac qc_solve :=
  do 2 f_equal; try (field; first [done | by apply cube_nonzero]).

Lemma ge_Fin_false p q : JS.ge (JS.Fin p) (JS.Fin q) = false <-> p < q.
Proof.
  rewrite <- not_true_iff_false, ge_Fin.
  split; [apply Qcnot_le_lt | apply Qclt_not_le].
Qed.

Lemma underflow_pos : 0 < JS.underflow.
Proof. by vm_compute. Qed.

Lemma underflow_overflow : JS.underflow < JS.overflow.
Proof. by vm_compute. Qed.

Lemma pow_cube (q : Qc) :
  Math.pow (JS.Fin q) 3 = JS.to_range (JS.Fin (q * (q * (q * 1)))).
Proof. reflexivity. Qed.

(** How a value that is not negative is taken to the range of a double. *)
Lemma to_range_nonneg (c : Qc) :
  0 <= c ->
  (JS.overflow <= c /\ JS.to_range (JS.Fin c) = JS.PInf)
  \/ (c <= JS.underflow /\ JS.to_range (JS.Fin c) = JS.zero)
  \/ (JS.underflow < c /\ c < JS.overflow
      /\ JS.to_range (JS.Fin c) = JS.Fin c).
Proof.
  intros Hc. unfold JS.to_range.
  destruct (JS.ge (JS.Fin c) (JS.Fin JS.overflow)) eqn:Ho.
  { left. by apply ge_Fin in Ho. }
  apply ge_Fin_false in Ho.
  destruct (JS.ge (JS.Fin (- JS.overflow)) (JS.Fin c)) eqn:Hn.
  { apply ge_Fin in Hn. exfalso.
    apply (Qclt_not_le (- JS.overflow) 0); [by vm_compute |].
    by eapply Qcle_trans. }
  destruct (JS.ge (JS.Fin JS.underflow) (JS.Fin c)) eqn:Hu.
  - apply ge_Fin in Hu.
    assert (JS.ge (JS.Fin c) (JS.Fin (- JS.underflow)) = true) as ->.
    { apply ge_Fin. apply Qcle_trans with 0; [by vm_compute | done]. }
    right. left. done.
  - apply ge_Fin_false in Hu. right. right. done.
Qed.

Lemma pow_zero : Math.pow JS.zero 3 = JS.zero.
Proof. compute_done. Qed.

Lemma pow_one : Math.pow JS.one 3 = JS.one.
Proof. compute_done. Qed.

Lemma transformPow_nonneg (q : Qc) :
  0 <= q -> d3.transformPow 3 (JS.Fin q) = Math.pow (JS.Fin q) 3.
Proof.
  intros Hq. unfold d3.transformPow.
  destruct (JS.lt (JS.Fin q) JS.zero) eqn:E; [| done].
  apply lt_Fin in E. by apply Qclt_not_le in E.
Qed.

Lemma cube_within (q t : Qc) :
  0 <= q -> q <= t ->
  0 <= q * (q * (q * 1)) /\ q * (q * (q * 1)) <= t * (t * (t * 1)).
Proof.
  intros Hq Hqt. assert (0 <= t) as Ht by (by eapply Qcle_trans).
  rewrite !Qcmult_1_r. split.
  - by repeat apply Qcmult_nonneg_nonneg.
  - apply Qcle_trans with (q * (t * t)).
    + apply Qcmult_le_mono_nonneg_l; [done |].
      apply Qcle_trans with (q * t).
      * by apply Qcmult_le_mono_nonneg_l.
      * by apply Qcmult_le_mono_nonneg_r.
    + apply Qcmult_le_mono_nonneg_r; [| done].
      by apply Qcmult_nonneg_nonneg.
Qed.

(** The cube of a value that is not negative: an infinity when it
    overflows, zero when it underflows, and the cube itself otherwise. *)
Lemma pow_nonneg (q : Qc) :
  0 <= q ->
  (JS.overflow <= q * (q * (q * 1)) /\ Math.pow (JS.Fin q) 3 = JS.PInf)
  \/ (q * (q * (q * 1)) <= JS.underflow /\ Math.pow (JS.Fin q) 3 = JS.zero)
  \/ (JS.underflow < q * (q * (q * 1)) /\ q * (q * (q * 1)) < JS.overflow
      /\ Math.pow (JS.Fin q) 3 = JS.Fin (q * (q * (q * 1)))).
Proof.
  intros Hq. rewrite pow_cube. apply to_range_nonneg.
  by destruct (cube_within q q Hq (Qcle_refl q)).
Qed.

(** The cube is monotone on values that are not negative, also where it
    underflows. *)
Lemma pow_mono (q t c : Qc) :
  0 <= q -> q <= t -> Math.pow (JS.Fin t) 3 = JS.Fin c ->
  exists c' : Qc,
    Math.pow (JS.Fin q) 3 = JS.Fin c' /\ 0 <= c' /\ c' <= c.
Proof.
  intros Hq Hqt Hc. assert (0 <= t) as Ht by (by eapply Qcle_trans).
  destruct (cube_within q t Hq Hqt) as [Hq3 Hqt3].
  destruct (pow_nonneg t Ht) as [[_ E] | [[Hu E] | (Hu & Ho & E)]];
    rewrite E in Hc; [done | |]; injection Hc as <-.
  - destruct (pow_nonneg q Hq) as [[Ho' _] | [[_ E'] | (Hu' & _ & _)]].
    + exfalso. apply (Qclt_not_le _ _ underflow_overflow).
      eapply Qcle_trans; [exact Ho' |]. by eapply Qcle_trans.
    + exists 0. split; [done |]. split; apply Qcle_refl.
    + exfalso. apply (Qclt_not_le _ _ Hu'). by eapply Qcle_trans.
  - destruct (pow_nonneg q Hq) as [[Ho' _] | [[_ E'] | (_ & _ & E')]].
    + exfalso. apply (Qclt_not_le _ _ Ho). by eapply Qcle_trans.
    + exists 0. split; [done |]. split; [apply Qcle_refl |].
      by eapply Qcle_trans.
    + by eexists.
Qed.

Lemma pow_call (t c a b q cq : Qc) :
  0 <= t -> Math.pow (JS.Fin t) 3 = JS.Fin c -> c <> 0 ->
  0 <= q -> Math.pow (JS.Fin q) 3 = JS.Fin cq ->
  d3.call (d3.scalePow 3 (JS.zero, JS.Fin t) (JS.Fin a, JS.Fin b)) (JS.Fin q)
  = Some (JS.Fin (a + (b - a) * (cq / c))).
Proof.
  intros Ht Hc Hne Hq Hcq. unfold d3.call.
  cbn [JS.isNaN d3.scalePow d3.transform d3.domain d3.range fst snd].
  unfold JS.zero.
  rewrite !transformPow_nonneg by (done || apply Qcle_refl).
  fold JS.zero. rewrite pow_zero, Hc, Hcq. f_equal.
  by apply bimap_linear.
Qed.

(** A domain whose upper end has overflowed. *)
Lemma pow_call_overflow (t a b : Qc) :
  0 <= t -> Math.pow (JS.Fin t) 3 = JS.PInf ->
  let scale := d3.scalePow 3 (JS.zero, JS.Fin t) (JS.Fin a, JS.Fin b) in
  d3.call scale (JS.Fin t) = Some JS.NaN
  /\ forall q cq : Qc,
       0 <= q -> Math.pow (JS.Fin q) 3 = JS.Fin cq ->
       d3.call scale (JS.Fin q) = Some (JS.Fin a).
Proof.
  intros Ht Hc. cbn zeta. unfold d3.call.
  cbn [JS.isNaN d3.scalePow d3.transform d3.domain d3.range fst snd].
  unfold JS.zero.
  rewrite !transformPow_nonneg by (done || apply Qcle_refl).
  fold JS.zero. rewrite pow_zero, Hc. split; [done |].
  intros q cq Hq Hcq. rewrite transformPow_nonneg, Hcq by done.
  cbn. do 2 f_equal. ring.
Qed.

(** A domain whose upper end has underflowed to its lower end. *)
Lemma pow_call_underflow (t a b : Qc) (x : number) :
  0 <= t -> Math.pow (JS.Fin t) 3 = JS.zero -> JS.isNaN x = false ->
  d3.call (d3.scalePow 3 (JS.zero, JS.Fin t) (JS.Fin a, JS.Fin b)) x
  = Some (d3.interpolateNumber (JS.Fin a) (JS.Fin b) (JS.of_Q (1 # 2))).
Proof.
  intros Ht Hc Hx. unfold d3.call. rewrite Hx.
  cbn [d3.scalePow d3.transform d3.domain d3.range fst snd].
  unfold JS.zero at 1.
  rewrite !transformPow_nonneg by (done || apply Qcle_refl).
  fold JS.zero. rewrite pow_zero, Hc.
  unfold d3.bimap, d3.normalize. cbn zeta.
  assert (JS.lt JS.zero JS.zero = false) as -> by reflexivity.
  assert (JS.truthy (JS.sub JS.zero JS.zero) = false) as -> by compute_done.
  by assert (JS.isNaN (JS.sub JS.zero JS.zero) = false) as -> by reflexivity.
Qed.

Lemma max_fold_finite {A : Type} (f : A -> number) (vs : list A) :
  Forall (fun a => JS.isFinite (f a) = true) vs ->
  forall m0 : Qc,
  exists m : Qc,
    fold_left (fun m a => d3.max_step m (f a)) vs (Some (JS.Fin m0))
    = Some (JS.Fin m)
    /\ m0 <= m
    /\ (m = m0 \/ JS.Fin m ∈ map f vs)
    /\ Forall (fun a => JS.ge (JS.Fin m) (f a) = true) vs.
Proof.
  induction 1 as [| a vs Ha _ IH]; intros m0.
  - exists m0. cbn. repeat split; [apply Qcle_refl | by left | constructor].
  - cbn [fold_left map]. destruct (f a) as [| | | q] eqn:Hfa; try done.
    unfold d3.max_step. destruct (JS.lt (JS.Fin m0) (JS.Fin q)) eqn:Hlt.
    + apply lt_Fin in Hlt. destruct (IH q) as (m & Hm & Hle & Hin & Hall).
      exists m. split; [done |]. split; [| split].
      * apply Qclt_le_weak in Hlt. by eapply Qcle_trans.
      * right. destruct Hin as [-> | Hin]; [by left | by right].
      * constructor; [| done]. rewrite Hfa. by apply ge_Fin.
    + assert (q <= m0) as Hq.
      { apply Qcnot_lt_le. intros Hc%lt_Fin. congruence. }
      destruct (IH m0) as (m & Hm & Hle & Hin & Hall).
      exists m. split; [done |]. split; [done |]. split.
      * destruct Hin as [-> | Hin]; [by left | right; by right].
      * constructor; [| done]. rewrite Hfa. apply ge_Fin.
        by eapply Qcle_trans.
Qed.

Lemma max_finite {A : Type} (f : A -> number) (vs : list A) :
  Forall (fun a => JS.isFinite (f a) = true) vs ->
  match d3.max vs f with
  | None => vs = []
  | Some m =>
      JS.isFinite m = true /\ m ∈ map f vs
      /\ Forall (fun a => JS.ge m (f a) = true) vs
  end.
Proof.
  intros Hvs. unfold d3.max. destruct Hvs as [| a vs Ha Hvs]; [done |].
  cbn [fold_left]. destruct (f a) as [| | | q] eqn:Hfa; try done.
  unfold d3.max_step at 2.
  assert (JS.ge (JS.Fin q) (JS.Fin q) = true) as -> by (apply ge_Fin, Qcle_refl).
  destruct (max_fold_finite f vs Hvs q) as (m & -> & Hle & Hin & Hall).
  split; [done |]. split.
  - cbn [map]. rewrite Hfa. destruct Hin as [-> | Hin]; [by left | by right].
  - constructor; [| done]. rewrite Hfa. by apply ge_Fin.
Qed.

Lemma or_else_top (mx : option number) :
  (forall m, mx = Some m -> JS.isFinite m = true) ->
  exists t : Qc, t <> 0 /\ JS.or_else mx JS.one = JS.Fin t
                 /\ domain_top mx = JS.Fin t.
Proof.
  intros Hfin. destruct mx as [m |]; cbn.
  - specialize (Hfin m eq_refl). destruct m as [| | | q]; try done.
    cbn. destruct (decide (q = 0)) as [-> | Hq].
    + exists 1. rewrite decide_True by done. done.
    + exists q. rewrite decide_False by (by intros [= ?]). done.
  - by exists 1.
Qed.

Lemma interpolation_form (a b q t : Qc) :
  t <> 0 ->
  JS.Fin (a + (b - a) * (q / t))
  = JS.add (JS.Fin a)
      (JS.mul (JS.sub (JS.Fin b) (JS.Fin a)) (JS.div (JS.Fin q) (JS.Fin t))).
Proof. intros Ht. cbn. by rewrite decide_False by done. Qed.

Lemma linear_call (t a b q : Qc) :
  t <> 0 ->
  d3.call (d3.scaleLinear (JS.zero, JS.Fin t) (JS.Fin a, JS.Fin b)) (JS.Fin q)
  = Some (JS.Fin (a + (b - a) * (q / t))).
Proof. intros Ht. unfold d3.call. cbn. f_equal. by apply bimap_linear. Qed.

Lemma abs_finite (v : number) :
  JS.isFinite v = true -> JS.isFinite (Math.abs v) = true.
Proof. destruct v as [| | | q]; try done. cbn. by destruct (q ?= 0). Qed.

Lemma pos_of_nonneg (m : Qc) : 0 <= m -> m <> 0 -> 0 < m.
Proof.
  intros H0 Hne. apply Qcnot_le_lt. intros Hle. apply Hne.
  by apply Qcle_antisym.
Qed.

Lemma top_within {A : Type} (f : A -> number) (vs : list A) :
  Forall (fun a => exists q, f a = JS.Fin q /\ 0 <= q) vs ->
  exists t : Qc,
    0 < t /\ JS.or_else (d3.max vs f) JS.one = JS.Fin t
    /\ Forall (fun a => exists q, f a = JS.Fin q /\ 0 <= q /\ q <= t) vs.
Proof.
  intros Hvs.
  assert (Forall (fun a => JS.isFinite (f a) = true) vs) as Hfin.
  { eapply Forall_impl; [exact Hvs |]. by intros a (q & -> & _). }
  pose proof (max_finite f vs Hfin) as Hmax.
  destruct (d3.max vs f) as [m |].
  - destruct Hmax as (Hm & Hin & Hall).
    destruct m as [| | | m]; try done.
    assert (0 <= m) as Hm0.
    { apply list_elem_of_fmap in Hin as (a & Ha & Hin).
      rewrite Forall_forall in Hvs.
      destruct (Hvs a Hin) as (q & Hq & Hq0). congruence. }
    cbn. destruct (decide (m = 0)) as [-> | Hne].
    + exists 1. split; [done |]. split; [done |].
      rewrite Forall_forall in Hvs, Hall. apply Forall_forall.
      intros a Ha. destruct (Hvs a Ha) as (q & Hq & Hq0).
      exists q. split; [done |]. split; [done |].
      specialize (Hall a Ha). rewrite Hq in Hall. apply ge_Fin in Hall.
      by apply Qcle_trans with 0.
    + exists m. split; [by apply pos_of_nonneg |]. split; [done |].
      rewrite Forall_forall in Hvs, Hall. apply Forall_forall.
      intros a Ha. destruct (Hvs a Ha) as (q & Hq & Hq0).
      exists q. split; [done |]. split; [done |].
      specialize (Hall a Ha). rewrite Hq in Hall. by apply ge_Fin in Hall.
  - subst vs. exists 1. by repeat split.
Qed.

Lemma abs_nonneg (v : number) :
  JS.isFinite v = true -> exists q, Math.abs v = JS.Fin q /\ 0 <= q.
Proof.
  destruct v as [| | | q]; try done. intros _. cbn.
  destruct (q ?= 0) eqn:Hc.
  - exists q. split; [done |]. apply Qceq_alt in Hc. rewrite Hc.
    apply Qcle_refl.
  - exists (- q). split; [done |]. apply Qclt_alt in Hc.
    apply Qclt_le_weak. apply Qclt_minus_iff in Hc.
    by rewrite Qcplus_0_l in Hc.
  - exists q. split; [done |]. apply Qcgt_alt in Hc.
    by apply Qclt_le_weak.
Qed.

Lemma link_top (ls : list Link.t) :
  Forall (fun l => JS.isFinite (Link.value l) = true) ls ->
  exists t : Qc,
    0 < t
    /\ JS.or_else (d3.max ls (fun l => Math.abs (Link.value l))) JS.one
       = JS.Fin t
    /\ domain_top (d3.max ls (fun l => Math.abs (Link.value l))) = JS.Fin t.
Proof.
  intros Hls.
  destruct (top_within (fun l => Math.abs (Link.value l)) ls)
    as (t & Ht & Ho & _).
  { eapply Forall_impl; [exact Hls |]. intros l. apply abs_nonneg. }
  exists t. split; [done |]. split; [done |].
  destruct (or_else_top (d3.max ls (fun l => Math.abs (Link.value l))))
    as (t' & _ & Ho' & Hd).
  { intros m Hm.
    assert (Forall (fun l => JS.isFinite (Math.abs (Link.value l)) = true)
                   ls) as Hls'.
    { eapply Forall_impl; [exact Hls |]. intros l. apply abs_finite. }
    pose proof (max_finite (fun l => Math.abs (Link.value l)) ls Hls')
      as Hmax.
    rewrite Hm in Hmax. by destruct Hmax. }
  congruence.
Qed.

(** C7 (amended).  When every node value and link value is finite: the
    size scale is linear from the domain [0, top] onto [minNodeSize,
    maxNodeSize], where [top] is the maximum node value, or 1 when there are
    no nodes or the maximum is 0; it maps 0 to [minNodeSize] and [top] to
    [maxNodeSize].  The width scale has the domain [0, top], where [top] is
    the maximum absolute link value, or 1 when there are no links or the
    maximum is 0; [top] is positive.  When the cube of [top] is a finite
    double other than 0, the scale is the cubic map onto [minLinkWidth,
    maxLinkWidth]: it maps 0 to [minLinkWidth] and [top] to
    [maxLinkWidth].  When the cube of [top] overflows, the scale maps
    [top] to [NaN] and every value with a finite cube to [minLinkWidth].
    When the cube of [top] underflows to 0, the scale maps every value to
    the middle of the range, 2.125.  [d3.max] does return the maximum. *)
Theorem scale_boundary (ns : list Node.t) (ls : list Link.t) :
  Forall (fun n => JS.isFinite (Node.value n) = true) ns ->
  Forall (fun l => JS.isFinite (Link.value l) = true) ls ->
  let node_max := d3.max ns Node.value in
  let link_max := d3.max ls (fun l => Math.abs (Link.value l)) in
  let node_top := domain_top node_max in
  let link_top := domain_top link_max in
  let cube := Math.pow link_top 3 in
  (d3.domain (sizeScale ns) = (JS.zero, node_top)
   /\ d3.call (sizeScale ns) JS.zero = Some config.minNodeSize
   /\ d3.call (sizeScale ns) node_top = Some config.maxNodeSize
   /\ (forall q : Qc,
         JS.ge (Math.abs node_top) (Math.abs (JS.Fin q)) = true ->
         d3.call (sizeScale ns) (JS.Fin q)
         = Some (JS.add config.minNodeSize
                   (JS.mul (JS.sub config.maxNodeSize config.minNodeSize)
                           (JS.div (JS.Fin q) node_top))))
   /\ match node_max with
      | None => ns = []
      | Some m => m ∈ map Node.value ns
                  /\ Forall (fun n => JS.ge m (Node.value n) = true) ns
      end)
  /\ (d3.domain (linkScale ls) = (JS.zero, link_top)
      /\ JS.isFinite link_top = true
      /\ JS.lt JS.zero link_top = true
      /\ (JS.isFinite cube = true -> JS.truthy cube = true ->
          d3.call (linkScale ls) JS.zero = Some config.minLinkWidth
          /\ d3.call (linkScale ls) link_top = Some config.maxLinkWidth
          /\ forall q : Qc,
               JS.ge (JS.Fin q) JS.zero = true ->
               JS.ge link_top (JS.Fin q) = true ->
               d3.call (linkScale ls) (JS.Fin q)
               = Some (JS.add config.minLinkWidth
                         (JS.mul
                            (JS.sub config.maxLinkWidth config.minLinkWidth)
                            (JS.div (Math.pow (JS.Fin q) 3) cube))))
      /\ (cube = JS.PInf ->
          d3.call (linkScale ls) link_top = Some JS.NaN
          /\ forall q : Qc,
               JS.ge (JS.Fin q) JS.zero = true ->
               JS.isFinite (Math.pow (JS.Fin q) 3) = true ->
               d3.call (linkScale ls) (JS.Fin q) = Some config.minLinkWidth)
      /\ (cube = JS.zero ->
          forall q : Qc,
            d3.call (linkScale ls) (JS.Fin q) = Some (JS.of_Q (17 # 8)))
      /\ ((JS.isFinite cube = true /\ JS.truthy cube = true)
          \/ cube = JS.PInf \/ cube = JS.zero)
      /\ match link_max with
         | None => ls = []
         | Some m => m ∈ map (fun l => Math.abs (Link.value l)) ls
                     /\ Forall (fun l => JS.ge m (Math.abs (Link.value l))
                                         = true) ls
         end).
Proof.
  intros Hns Hls. cbn zeta. split.
  - pose proof (max_finite Node.value ns Hns) as Hmax.
    destruct (or_else_top (d3.max ns Node.value)) as (t & Ht & Ho & Hd).
    { intros m Hm. rewrite Hm in Hmax. by destruct Hmax. }
    unfold sizeScale. rewrite Ho, Hd. unfold config.minNodeSize,
      config.maxNodeSize, JS.of_Z.
    split; [done |]. split; [| split; [| split]].
    + unfold JS.zero at 2. rewrite linear_call by done. qc_solve.
    + rewrite linear_call by done. qc_solve.
    + intros q _. rewrite linear_call by done. f_equal.
      by apply interpolation_form.
    + destruct (d3.max ns Node.value); [by destruct Hmax | done].
  - destruct (link_top ls Hls) as (t & Ht & Ho & Hd).
    pose proof (Qclt_le_weak _ _ Ht) as Ht0.
    unfold linkScale. rewrite Ho, Hd. unfold config.minLinkWidth,
      config.maxLinkWidth, JS.of_Z, JS.of_Q.
    split; [done |]. split; [done |]. split; [by apply lt_Fin |].
    split; [| split; [| split; [| split]]].
    + intros Hfin Htr.
      destruct (Math.pow (JS.Fin t) 3) as [| | | c] eqn:Hc; try done.
      assert (c <> 0) as Hne.
      { intros ->. cbn in Htr. by rewrite decide_True in Htr. }
      split; [| split].
      * unfold JS.zero at 2.
        rewrite (pow_call t c _ _ 0 0) by (done || apply Qcle_refl
                                           || apply pow_zero).
        do 2 f_equal; try by field.
      * rewrite (pow_call t c _ _ t c) by done.
        do 2 f_equal; try by field.
      * intros q Hq0%ge_Fin Hqt%ge_Fin.
        destruct (pow_mono q t c Hq0 Hqt Hc) as (c' & Hc' & _).
        rewrite (pow_call t c _ _ q c') by done. rewrite Hc'. f_equal.
        by apply interpolation_form.
    + intros Hc.
      destruct (pow_call_overflow t (Q2Qc (5 # 4)) (Q2Qc (inject_Z 3))
                  Ht0 Hc) as [Htop Hq].
      split; [exact Htop |]. intros q Hq0%ge_Fin Hfin.
      destruct (Math.pow (JS.Fin q) 3) as [| | | cq] eqn:Hcq; try done.
      by apply (Hq q cq).
    + intros Hc q. rewrite pow_call_underflow by done. f_equal.
      compute_done.
    + destruct (pow_nonneg t Ht0) as [[_ E] | [[_ E] | (Hu & _ & E)]].
      * right. by left.
      * right. by right.
      * left. rewrite E. split; [done |]. cbn.
        rewrite decide_False; [done |]. intros E0. rewrite E0 in Hu.
        apply (Qclt_not_le _ _ Hu). apply Qclt_le_weak, underflow_pos.
    + assert (Forall (fun l => JS.isFinite (Math.abs (Link.value l)) = true)
                     ls) as Hls'.
      { eapply Forall_impl; [exact Hls |]. intros l. apply abs_finite. }
      pose proof (max_finite (fun l => Math.abs (Link.value l)) ls Hls')
        as Hmax.
      destruct (d3.max ls _); [by destruct Hmax | done].
Qed.

End ScaleFacts.

(** With an infinite maximum the scale has no finite image of it. *)
Example scale_infinite_max :
  let ns := build_nodes [("A", JS.PInf)] in
  d3.max ns Node.value = Some JS.PInf
  /\ d3.call (sizeScale ns) JS.PInf = Some JS.NaN.
Proof. by split. Qed.

(** A link value whose cube overflows: the widest link gets no width. *)
Example scale_overflow :
  let ls := [Link.mk (Obj 0) (Obj 1) (JS.of_Z (10 ^ 200))] in
  d3.max ls (fun l => Math.abs (Link.value l)) = Some (JS.of_Z (10 ^ 200))
  /\ Math.pow (JS.of_Z (10 ^ 200)) 3 = JS.PInf
  /\ d3.call (linkScale ls) (JS.of_Z (10 ^ 200)) = Some JS.NaN.
Proof. cbn zeta. split; [| split]; compute_done. Qed.

(** Link values whose cubes underflow: every link gets the middle width. *)
Example scale_underflow :
  let ls := [Link.mk (Obj 0) (Obj 1) (JS.of_Q (1 # 10 ^ 200))] in
  Math.pow (JS.of_Q (1 # 10 ^ 200)) 3 = JS.zero
  /\ d3.call (linkScale ls) (JS.of_Q (1 # 10 ^ 200))
     = Some (JS.of_Q (17 # 8))
  /\ d3.call (linkScale ls) JS.zero = Some (JS.of_Q (17 # 8)).
Proof. cbn zeta. split; [| split]; compute_done. Qed.

Lemma scale_boundary_witness :
  Forall (fun n => JS.isFinite (Node.value n) = true) (nodes app_state)
  /\ Forall (fun l => JS.isFinite (Link.value l) = true) (links app_state)
  /\ d3.call (sizeScale (nodes app_state)) (JS.of_Z 30)
     = Some config.maxNodeSize
  /\ d3.call (linkScale (links app_state)) (JS.of_Z 5)
     = Some config.maxLinkWidth.
Proof.
  assert (Forall (fun n => JS.isFinite (Node.value n) = true)
                 (nodes app_state)) as Hn by compute_done.
  assert (Forall (fun l => JS.isFinite (Link.value l) = true)
                 (links app_state)) as Hl by compute_done.
  split; [exact Hn |]. split; [exact Hl |].
  destruct (scale_boundary (nodes app_state) (links app_state) Hn Hl)
    as [(_ & _ & H1 & _) (_ & _ & _ & H2 & _)].
  split; [exact H1 |].
  destruct H2 as (_ & H2 & _); [reflexivity | reflexivity |]. exact H2.
Defined.

(** C7, as first stated, fails when the maximum node value is 0: the
    domain is then [0, 1], and the maximum is mapped to [minNodeSize]. *)
Lemma scale_zero_max_counterexample :
  let ns := build_nodes [("A", JS.zero)] in
  d3.max ns Node.value = Some JS.zero
  /\ d3.call (sizeScale ns) JS.zero = Some config.minNodeSize
  /\ config.minNodeSize <> config.maxNodeSize.
Proof. cbn zeta. split; [reflexivity |]. split; compute_done. Qed.

(** ** Ingestion *)

Lemma resolves_to_values (ns : list Node.t) (ls ls' : list Link.t) :
  Forall2 (resolves_to ns) ls ls' -> map Link.value ls' = map Link.value ls.
Proof.
  induction 1 as [| l l' ls ls' (_ & _ & Hv & _) _ IH]; [done |].
  cbn. by rewrite Hv, IH.
Qed.

Lemma max_map {A : Type} (f : A -> number) (vs : list A) :
  d3.max vs f = d3.max (map f vs) (fun v => v).
Proof.
  unfold d3.max. generalize (@None number).
  induction vs as [| a vs IH]; intros m; [done |]. cbn. apply IH.
Qed.

Lemma sizeScale_values (ns ns' : list Node.t) :
  map Node.value ns' = map Node.value ns -> sizeScale ns' = sizeScale ns.
Proof.
  intros H. unfold sizeScale.
  by rewrite (max_map Node.value ns'), H, <- max_map.
Qed.

Lemma linkScale_values (ls ls' : list Link.t) :
  map Link.value ls' = map Link.value ls -> linkScale ls' = linkScale ls.
Proof.
  intros H. unfold linkScale.
  rewrite (max_map _ ls'), (max_map _ ls).
  by rewrite <- !(map_map Link.value Math.abs), H.
Qed.

Lemma visibilityEffect_attrs (s : State) :
  map r (nodeElts (visibilityEffect s)) = map r (nodeElts s)
  /\ map stroke_width (linkElts (visibilityEffect s))
     = map stroke_width (linkElts s).
Proof.
  unfold visibilityEffect. destruct (simulation s); [| done].
  cbn [nodeElts linkElts with_elts]. unfold each. split.
  - apply list_eq. intros i. rewrite !list_lookup_fmap, list_lookup_imap.
    destruct (nodeElts s !! i); [| done]. cbn. by destruct (nodes s !! i).
  - apply list_eq. intros i. rewrite !list_lookup_fmap, list_lookup_imap.
    destruct (linkElts s !! i); [| done]. cbn.
    destruct (links s !! i); [| done]. by destruct (link_display _ _ _).
Qed.

(** The radius of every circle is the size scale called on the node's
    value, and the stroke width of every line is the width scale called on
    the absolute value of the link's value. *)
Lemma setup_scale_calls (ip : nat -> number * number) (nd : Object.t)
    (ed : list EdgeData) (f : string) (gen : nat)
    (old : list d3.Simulation) (s : State) :
  setup ip nd ed f gen old = Ok s ->
  map r (nodeElts s)
  = map (d3.call (sizeScale (nodes s))) (sizeScale_inputs (nodes s))
  /\ map stroke_width (linkElts s)
     = map (d3.call (linkScale (links s))) (linkScale_inputs (links s)).
Proof.
  intros Hs.
  destruct (setup_ok ip nd ed f gen old)
    as (s' & Hs' & _ & _ & _ & Hn & Hl & _).
  rewrite Hs in Hs'. injection Hs' as <-.
  assert (sizeScale (nodes s) = sizeScale (build_nodes nd)) as Hsize.
  { apply sizeScale_values. rewrite Hn. by apply initializeNodes_map. }
  assert (linkScale (links s)
          = linkScale (build_links (build_nodes nd) ed)) as Hwidth.
  { apply linkScale_values. by eapply resolves_to_values. }
  rewrite Hsize, Hwidth. clear Hsize Hwidth Hn Hl.
  unfold setup in Hs. destruct (forceLink _ _) as [ls |]; [| done].
  injection Hs as <-. cbn [nodeElts linkElts nodes links].
  unfold sizeScale_inputs, linkScale_inputs. by rewrite !map_map.
Qed.

(** C4 (amended).  The component has no validation step: mounting accepts
    every input and never throws, whatever the values, and every node
    value and the absolute value of every kept link value, finite or not,
    is handed to the size scale (for the radius) and to the width scale
    (for the stroke width). *)
Theorem ingestion_accepts_all (initialPosition : nat -> number * number)
    (nd : Object.t) (ed : list EdgeData) :
  exists s : State,
    mount initialPosition nd ed = Ok s
    /\ sizeScale_inputs (nodes s) ≡ₚ map snd nd
    /\ linkScale_inputs (links s)
       = map (fun d => Math.abs (edge_value d))
             (filter (both_endpoints_known (Object.keys nd)) ed)
    /\ map r (nodeElts s)
       = map (d3.call (sizeScale (nodes s))) (sizeScale_inputs (nodes s))
    /\ map stroke_width (linkElts s)
       = map (d3.call (linkScale (links s))) (linkScale_inputs (links s)).
Proof.
  unfold mount.
  destruct (setup_ok initialPosition nd ed "all" 0 [])
    as (s & Hs & _ & _ & _ & Hn & Hl & _).
  rewrite Hs. exists (visibilityEffect s). split; [done |].
  destruct (visibilityEffect_attrs s) as [-> ->].
  rewrite visibilityEffect_nodes, visibilityEffect_links.
  split; [| split; [| by eapply setup_scale_calls]].
  - unfold sizeScale_inputs. rewrite Hn.
    rewrite initializeNodes_map by done.
    replace (map Node.value (build_nodes nd))
      with (map snd (map entry_of (build_nodes nd)))
      by (by rewrite map_map).
    by rewrite build_nodes_entries, entries_perm.
  - unfold linkScale_inputs.
    rewrite <- (map_map Link.value Math.abs).
    rewrite (resolves_to_values _ _ _ Hl), build_links_filter.
    rewrite build_nodes_ids.
    assert (forall d, both_endpoints_known (map fst (Object.entries nd)) d
                      <-> both_endpoints_known (Object.keys nd) d) as Hk.
    { intros d. unfold both_endpoints_known, Object.keys.
      by rewrite (entries_perm nd). }
    rewrite (list_filter_iff _ _ _ Hk).
    by rewrite !map_map.
Qed.

(** C4, as first stated, fails: a [NaN] node value is not rejected, and
    it is handed to the size scale. *)
Lemma ingestion_counterexample :
  let nd : Object.t := [("A", JS.NaN)] in
  has_non_finite nd []
  /\ exists s : State,
       mount origin nd [] = Ok s
       /\ JS.NaN ∈ sizeScale_inputs (nodes s)
       /\ map r (nodeElts s) = [d3.call (sizeScale (nodes s)) JS.NaN].
Proof.
  cbn zeta. split.
  - left. by constructor.
  - eexists. split; [reflexivity |]. cbn. split; [by left | done].
Qed.

(** ** Changing the link filter *)

Lemma build_nodes_visible (ip : nat -> number * number) (nd : Object.t) :
  Forall (fun n => Node.visible n = true)
         (initializeNodes ip (build_nodes nd)).
Proof.
  apply Forall_forall. intros n Hn.
  apply list_elem_of_lookup in Hn as [i Hi].
  apply initializeNodes_lookup in Hi as (n0 & Hn0 & _ & _ & Hv & _).
  rewrite Hv. pose proof (build_nodes_fresh nd) as Hf.
  rewrite Forall_forall in Hf.
  by destruct (Hf n0) as [? _]; [eapply list_elem_of_lookup_2 |].
Qed.

Lemma setup_display (ip : nat -> number * number) (nd : Object.t)
    (ed : list EdgeData) (f : string) (gen : nat)
    (old : list d3.Simulation) (s : State) :
  setup ip nd ed f gen old = Ok s ->
  map display (linkElts (visibilityEffect s))
  = map (link_display f (nodes s)) (links s).
Proof.
  unfold setup. destruct (forceLink _ _) as [ls |]; [| done].
  intros [= <-]. unfold visibilityEffect.
  cbn [simulation linkElts with_elts links nodes currentFilter].
  apply list_eq. intros i. unfold each.
  rewrite !list_lookup_fmap, list_lookup_imap, list_lookup_fmap.
  destruct (ls !! i) as [d |]; [| done]. cbn.
  by destruct (link_display _ _ d).
Qed.

(** C3 (amended).  Setting the filter mode the component already has
    changes nothing.  Setting a different mode sets the filter mode and,
    [isLinkVisible] being a dependency of the set-up effect, runs that
    effect again: a new simulation is created (the old one is stopped and
    dropped) over node objects built anew from [nodeData], so with the same
    ids and values in the same order, [visible] true and positions
    initialised afresh, and over links built anew from [edgeData]; link
    renderability is then recomputed for all links under the new mode. *)
Theorem filter_change (initialPosition : nat -> number * number)
    (s : State) (mode : string) :
  if decide (mode = currentFilter s)
  then setCurrentFilter initialPosition mode s = Ok s
  else
    exists s' : State,
      setCurrentFilter initialPosition mode s = Ok s'
      /\ currentFilter s' = mode
      /\ nodeData s' = nodeData s /\ edgeData s' = edgeData s
      /\ generation s' = S (generation s)
      /\ retired s' = cleanup s
      /\ simulation s' = Some d3.forceSimulation
      /\ nodes s' = initializeNodes initialPosition
                      (build_nodes (nodeData s))
      /\ map entry_of (nodes s') = Object.entries (nodeData s)
      /\ Forall (fun n => Node.visible n = true) (nodes s')
      /\ Forall2 (resolves_to (nodes s'))
                 (build_links (build_nodes (nodeData s)) (edgeData s))
                 (links s')
      /\ map display (linkElts s')
         = map (link_display mode (nodes s')) (links s').
Proof.
  unfold setCurrentFilter.
  destruct (decide (mode = currentFilter s)) as [-> | Hne].
  - by rewrite String.eqb_refl.
  - destruct (String.eqb mode (currentFilter s)) eqn:Heq;
      [by apply eqb_true_iff in Heq |].
    destruct (setup_ok initialPosition (nodeData s) (edgeData s) mode
                (generation s) (cleanup s))
      as (s' & Hs' & Hnd & Hed & Hf & Hn & Hl & Hsim & Hgen & Hret & _).
    rewrite Hs'. exists (visibilityEffect s'). split; [done |].
    rewrite visibilityEffect_filter, visibilityEffect_generation,
      visibilityEffect_retired, visibilityEffect_simulation,
      visibilityEffect_nodes, visibilityEffect_links.
    destruct (visibilityEffect_props s') as [-> ->].
    repeat split; try done.
    + rewrite Hn, initializeNodes_map by done. apply build_nodes_entries.
    + rewrite Hn. apply build_nodes_visible.
    + eapply setup_display. exact Hs'.
Qed.

(** C3, as first stated, fails: hide a node, then set the filter to
    ['positive']; the node is visible again and the set-up effect has run
    once more, with a new simulation. *)
Lemma filter_change_counterexample :
  let s := updateNodeVisibility 0 app_state in
  let s' := get (showPositiveLinks origin s) in
  showPositiveLinks origin s = Ok s'
  /\ Node.visible <$> nodes s !! 0 = Some false
  /\ Node.visible <$> nodes s' !! 0 = Some true
  /\ generation s = 1 /\ generation s' = 2
  /\ retired s = [] /\ retired s' = [d3.stop d3.forceSimulation].
Proof. cbn zeta. by repeat split. Qed.

(** ** Clearing a hover *)

Lemma highlightConnectedNodes_frame (h : nat) (s : State) :
  nodes (highlightConnectedNodes h s) = nodes s
  /\ map stroke_width (linkElts (highlightConnectedNodes h s))
     = map stroke_width (linkElts s)
  /\ length (nodeElts (highlightConnectedNodes h s)) = length (nodeElts s)
  /\ length (labelElts (highlightConnectedNodes h s))
     = length (labelElts s).
Proof.
  unfold highlightConnectedNodes.
  destruct (nodes s !! h) as [d |]; [| done].
  destruct (negb (Node.visible d)); [done |].
  destruct (connected _ _ _ d) as [ids ixs].
  cbn [nodes linkElts nodeElts labelElts with_elts].
  rewrite !each_length. repeat split.
  apply list_eq. intros i. rewrite !list_lookup_fmap, list_lookup_imap.
  by destruct (linkElts s !! i).
Qed.

Lemma highlightLink_frame (i : nat) (s : State) :
  nodes (highlightLink i s) = nodes s
  /\ length (linkElts (highlightLink i s)) = length (linkElts s)
  /\ length (nodeElts (highlightLink i s)) = length (nodeElts s)
  /\ length (labelElts (highlightLink i s)) = length (labelElts s).
Proof.
  unfold highlightLink. destruct (links s !! i) as [d |]; [| done].
  cbn [nodes linkElts nodeElts labelElts with_elts].
  by rewrite !each_length, length_imap.
Qed.

Lemma baseline_nodes (ns : list Node.t) (es : list NodeElt) (i : nat)
    (n : Node.t) :
  length es = length ns -> ns !! i = Some n ->
  opacity <$> each (fun _ n e => set_opacity (Some (baseline_opacity n)) e)
                   ns es !! i
  = Some (Some (baseline_opacity n)).
Proof.
  intros Hlen Hn. destruct (lookup_lt_is_Some_2 es i) as [e He].
  { rewrite Hlen. by eapply lookup_lt_Some. }
  by rewrite (each_lookup _ _ _ i n e).
Qed.

Lemma baseline_labels (ns : list Node.t) (es : list LabelElt) (i : nat)
    (n : Node.t) :
  length es = length ns -> ns !! i = Some n ->
  label_opacity
    <$> each (fun _ n e => set_label_opacity (Some (baseline_opacity n)) e)
             ns es !! i
  = Some (Some (baseline_opacity n)).
Proof.
  intros Hlen Hn. destruct (lookup_lt_is_Some_2 es i) as [e He].
  { rewrite Hlen. by eapply lookup_lt_Some. }
  by rewrite (each_lookup _ _ _ i n e).
Qed.

(** X16.  After a node hover, mouse-out does restore the baseline: every
    link is at [defaultLinkOpacity] with the stroke width it had, and every
    node and label is at [highlightOpacity] if visible and at
    [fadedOpacity] otherwise. *)
Lemma clear_node_hover (s : State) (h : nat) :
  wf s ->
  let s' := resetHighlightedNodes (highlightConnectedNodes h s) in
  Forall (fun e => stroke_opacity e = Some config.defaultLinkOpacity)
         (linkElts s')
  /\ map stroke_width (linkElts s') = map stroke_width (linkElts s)
  /\ (forall i n, nodes s !! i = Some n ->
        opacity <$> nodeElts s' !! i = Some (Some (baseline_opacity n))
        /\ label_opacity <$> labelElts s' !! i
           = Some (Some (baseline_opacity n))).
Proof.
  intros [_ _ _ Hne Hle]. cbn zeta.
  destruct (highlightConnectedNodes_frame h s) as (Hn & Hw & Hl1 & Hl2).
  unfold resetHighlightedNodes.
  cbn [linkElts nodeElts labelElts with_elts]. rewrite Hn.
  split; [| split].
  - apply Forall_fmap, Forall_forall. by intros e _.
  - rewrite <- Hw, map_map. done.
  - intros i n Hi. split.
    + apply baseline_nodes; [congruence | done].
    + apply baseline_labels; [congruence | done].
Qed.

(** After a link hover, mouse-out restores the opacities, but the hovered
    link keeps one and a half times its scaled width. *)
Lemma clear_link_hover (s : State) (i : nat) (d : Link.t) :
  wf s ->
  links s !! i = Some d ->
  let s' := resetLinkHighlight (highlightLink i s) in
  Forall (fun e => stroke_opacity e = Some config.defaultLinkOpacity)
         (linkElts s')
  /\ stroke_width <$> linkElts s' !! i
     = Some (Some (JS.mul (to_number (d3.call (linkScale (links s))
                                              (Math.abs (Link.value d))))
                          (JS.of_Q (3 # 2))))
  /\ (forall j n, nodes s !! j = Some n ->
        opacity <$> nodeElts s' !! j = Some (Some (baseline_opacity n))
        /\ label_opacity <$> labelElts s' !! j
           = Some (Some (baseline_opacity n))).
Proof.
  intros [_ _ Hll Hne Hle] Hd. cbn zeta.
  destruct (highlightLink_frame i s) as (Hn & _ & Hl1 & Hl2).
  unfold resetLinkHighlight.
  cbn [linkElts nodeElts labelElts with_elts]. rewrite Hn.
  split; [| split].
  - apply Forall_fmap, Forall_forall. by intros e _.
  - unfold highlightLink. rewrite Hd. cbn [linkElts with_elts].
    destruct (lookup_lt_is_Some_2 (linkElts s) i) as [e He].
    { rewrite Hll. by eapply lookup_lt_Some. }
    rewrite !list_lookup_fmap, list_lookup_imap, He. cbn.
    by rewrite Nat.eqb_refl.
  - intros j n Hj. split.
    + apply baseline_nodes; [congruence | done].
    + apply baseline_labels; [congruence | done].
Qed.

(** C6 fails on the code for a link hover.  In the example of [App.tsx],
    the first link has the scaled width 1.264; after hovering it and
    leaving it, its opacity is back to [defaultLinkOpacity] but its width
    is 1.896, one and a half times the base width. *)
Theorem link_hover_width_stays :
  let s := resetLinkHighlight (highlightLink 0 app_state) in
  stroke_width <$> linkElts app_state !! 0
  = Some (Some (JS.of_Q (158 # 125)))
  /\ d3.call (linkScale (links app_state)) (Math.abs (JS.of_Z 1))
     = Some (JS.of_Q (158 # 125))
  /\ stroke_opacity <$> linkElts s !! 0
     = Some (Some config.defaultLinkOpacity)
  /\ stroke_width <$> linkElts s !! 0 = Some (Some (JS.of_Q (237 # 125)))
  /\ JS.of_Q (237 # 125) <> JS.of_Q (158 # 125).
Proof. cbn zeta. repeat split; compute_done. Qed.

(** ** Reachable states are well formed *)

Lemma invariant_frame (s s' : State) :
  invariant s ->
  map Node.id (nodes s') = map Node.id (nodes s) ->
  links s' = links s ->
  length (linkElts s') = length (linkElts s) ->
  length (nodeElts s') = length (nodeElts s) ->
  length (labelElts s') = length (labelElts s) ->
  nodeData s' = nodeData s ->
  (is_Some (simulation s) -> is_Some (simulation s')) ->
  currentFilter s' = currentFilter s ->
  invariant s'.
Proof.
  intros ([Hnd Hl H1 H2 H3] & Hk & Hsim & Hm) Hids Hlinks E1 E2 E3 End Es Ef.
  assert (length (nodes s') = length (nodes s)) as Hlen.
  { by rewrite <- (length_map Node.id (nodes s')), Hids, length_map. }
  split; [split |].
  - by rewrite Hids.
  - rewrite Hlinks. eapply Forall_impl; [exact Hl |].
    intros l [Ha Hb]. unfold resolved in *.
    destruct (Link.source l), (Link.target l); try done.
    rewrite Hlen. done.
  - congruence.
  - congruence.
  - congruence.
  - rewrite End, Ef. by eauto.
Qed.

Lemma alter_ids (f : Node.t -> Node.t) (i : nat) (ns : list Node.t) :
  (forall n, Node.id (f n) = Node.id n) ->
  map Node.id (alter f i ns) = map Node.id ns.
Proof.
  intros Hf. apply list_eq. intros j. rewrite !list_lookup_fmap.
  destruct (decide (j = i)) as [-> | Hne].
  - rewrite list_lookup_alter_eq. destruct (ns !! i); cbn; by rewrite ?Hf.
  - by rewrite list_lookup_alter_ne.
Qed.

Lemma map_ids (f : Node.t -> Node.t) (ns : list Node.t) :
  (forall n, Node.id (f n) = Node.id n) ->
  map Node.id (map f ns) = map Node.id ns.
Proof. intros Hf. rewrite map_map. by apply map_ext. Qed.

Lemma visibilityEffect_invariant (s : State) :
  invariant s -> invariant (visibilityEffect s).
Proof.
  intros Hs. apply (invariant_frame s); try done.
  - by rewrite visibilityEffect_nodes.
  - apply visibilityEffect_links.
  - unfold visibilityEffect. destruct (simulation s); [| done].
    apply each_length.
  - unfold visibilityEffect. destruct (simulation s); [| done].
    apply each_length.
  - unfold visibilityEffect. destruct (simulation s); [| done].
    apply each_length.
  - apply visibilityEffect_props.
  - by rewrite visibilityEffect_simulation.
  - apply visibilityEffect_filter.
Qed.

Theorem reachable_invariant (initialPosition : nat -> number * number)
    (s : State) :
  reachable initialPosition s -> invariant s.
Proof.
  induction 1 as [nd ed s Hk Hs | m s s' _ IH Hs | i s _ IH | s _ IH
                  | s _ IH | h s _ IH | s _ IH | i s _ IH | s _ IH
                  | a d s _ IH | ex ey d s _ IH | a d s _ IH | ps s _ IH].
  - unfold mount in Hs.
    destruct (setup_ok initialPosition nd ed "all" 0 [])
      as (s0 & Hs0 & Hnd & _ & Hf & _ & _ & Hsim & _).
    rewrite Hs0 in Hs. injection Hs as <-.
    apply visibilityEffect_invariant. split; [by eapply setup_wf |].
    rewrite Hnd, Hsim, Hf. split; [done |]. split; [done |]. by exists All.
  - unfold setCurrentFilter in Hs.
    destruct (String.eqb _ _); [by injection Hs as <- |].
    destruct (setup_ok initialPosition (nodeData s) (edgeData s)
                (mode_name m) (generation s) (cleanup s))
      as (s0 & Hs0 & Hnd & _ & Hf & _ & _ & Hsim & _).
    rewrite Hs0 in Hs. injection Hs as <-.
    destruct IH as (_ & Hk & _).
    apply visibilityEffect_invariant. split; [by eapply setup_wf |].
    rewrite Hnd, Hsim, Hf. split; [done |]. split; [done |]. by exists m.
  - apply visibilityEffect_invariant.
    apply (invariant_frame s); try done. by apply alter_ids.
  - apply visibilityEffect_invariant.
    apply (invariant_frame s); try done. by apply map_ids.
  - apply visibilityEffect_invariant.
    apply (invariant_frame s); try done. by apply map_ids.
  - unfold highlightConnectedNodes.
    destruct (nodes s !! h) as [d |]; [| done].
    destruct (negb (Node.visible d)); [done |].
    destruct (connected _ _ _ d) as [ids ixs].
    apply (invariant_frame s); try done; cbn;
      by rewrite ?each_length, ?length_imap.
  - apply (invariant_frame s); try done; cbn;
      by rewrite ?each_length, ?length_map.
  - unfold highlightLink. destruct (links s !! i) as [d |]; [| done].
    apply (invariant_frame s); try done; cbn;
      by rewrite ?each_length, ?length_imap.
  - apply (invariant_frame s); try done; cbn;
      by rewrite ?each_length, ?length_map.
  - apply (invariant_frame s); try done.
    + by apply alter_ids.
    + cbn. intros [sim ->]. by destruct (Nat.eqb a 0).
  - apply (invariant_frame s); try done. by apply alter_ids.
  - apply (invariant_frame s); try done.
    + by apply alter_ids.
    + cbn. intros [sim ->]. by destruct (Nat.eqb a 0).
  - apply (invariant_frame s); try done. cbn.
    apply list_eq. intros j.
    rewrite !list_lookup_fmap, list_lookup_imap.
    destruct (nodes s !! j) as [n |]; [| done]. cbn.
    by destruct (ps !! j).
Qed.

(** ** Worked examples *)

Lemma hover_connected_witness :
  wf app_state
  /\ exists d : Node.t,
       nodes app_state !! 1 = Some d
       /\ Node.visible d = true
       /\ forall i : nat,
            i ∈ (connected (currentFilter app_state) (nodes app_state)
                           (links app_state) d).2
            <-> exists (l : Link.t) (o : nat),
                  links app_state !! i = Some l
                  /\ qualifies (currentFilter app_state) (nodes app_state)
                               1 l o.
Proof.
  split; [exact app_state_wf |].
  eexists. split; [reflexivity |]. split; [reflexivity |].
  apply (hover_connected app_state 1 _ app_state_wf eq_refl). reflexivity.
Defined.

Lemma getNode_total_witness :
  is_Some (tick_link (nodes app_state)
             (Link.mk (Obj 0) (Obj 1) (JS.of_Z 1))).
Proof.
  apply getNode_total; [exact app_state_wf |].
  by apply (list_elem_of_lookup_2 _ 0).
Defined.

Example entries_order :
  Object.entries [("b", JS.of_Z 1); ("10", JS.of_Z 2); ("a", JS.of_Z 3);
                  ("9", JS.of_Z 4); ("01", JS.of_Z 5)]
  = [("9", JS.of_Z 4); ("10", JS.of_Z 2); ("b", JS.of_Z 1); ("a", JS.of_Z 3);
     ("01", JS.of_Z 5)].
Proof. reflexivity. Qed.

Example scenario_model :
  map Node.id (nodes scenario_state) = ["A"; "B"; "C"]
  /\ map (fun l => (Link.source l, Link.target l)) (links scenario_state)
     = [(Obj 0, Obj 1); (Obj 1, Obj 2)]
  /\ hasNegativeLinks scenario_state = true.
Proof. by repeat split. Qed.

Example scenario_hover_B :
  connected_of 1 scenario_state
  = Some ({["A"; "B"; "C"]}, {[0; 1]}).
Proof. compute_done. Qed.

Example scenario_hover_B_positive :
  connected_of 1 (get (showPositiveLinks origin scenario_state))
  = Some ({["A"; "B"]}, {[0]}).
Proof. compute_done. Qed.

Example scenario_hover_B_hidden_A :
  connected_of 1 (updateNodeVisibility 0 scenario_state)
  = Some ({["B"; "C"]}, {[1]}).
Proof. compute_done. Qed.

Example app_state_reachable : reachable origin app_state.
Proof.
  apply (reach_mount origin app_nodeData app_edgeData);
    [compute_done | reflexivity].
Qed.


(* ================================================================= *)
(** * Further properties *)

(** ** Links and the nodes they refer to *)

Lemma resolves_to_link_of (ns : list Node.t) (d : EdgeData) (l : Link.t) :
  resolves_to ns (link_of_edge d) l -> link_of ns d l.
Proof.
  intros (Hs & Ht & Hv & Hrs & Hrt). cbn in Hs, Ht, Hv.
  assert (forall k e, resolve ns (Str k) = Ok e ->
            endpoint_id ns e = Some k) as Hres.
  { intros k e. cbn. destruct (find_ref ns k) as [i |] eqn:Hi; [| done].
    intros [= <-]. destruct (find_ref_lookup _ _ _ Hi) as (n & Hn & Hid).
    cbn. by rewrite Hn, <- Hid. }
  repeat split; try done; by apply Hres.
Qed.

(** X1.  Mounting keeps the edges whose two endpoints are keys of
    [nodeData], in order, and resolves each endpoint to the node object
    of that id: link by link, the source and target objects carry the
    source and target ids of the edge, and the value is the edge's. *)
Theorem mount_referential_integrity
    (initialPosition : nat -> number * number) (nd : Object.t)
    (ed : list EdgeData) :
  exists s : State,
    mount initialPosition nd ed = Ok s
    /\ Forall2 (link_of (nodes s)) (kept_edges nd ed) (links s)
    /\ Forall (fun l =>
                 exists a b na nb,
                   Link.source l = Obj a /\ nodes s !! a = Some na
                   /\ Link.target l = Obj b /\ nodes s !! b = Some nb
                   /\ Node.id na ∈ Object.keys nd
                   /\ Node.id nb ∈ Object.keys nd) (links s).
Proof.
  unfold mount.
  destruct (setup_ok initialPosition nd ed "all" 0 [])
    as (s & Hs & _ & _ & _ & Hn & Hl & _).
  rewrite Hs. exists (visibilityEffect s). split; [done |].
  rewrite visibilityEffect_nodes, visibilityEffect_links.
  assert (Forall2 (link_of (nodes s)) (kept_edges nd ed) (links s)) as H2.
  { rewrite build_links_filter, build_nodes_ids in Hl.
    assert (forall d, both_endpoints_known (map fst (Object.entries nd)) d
                      <-> both_endpoints_known (Object.keys nd) d) as Hk.
    { intros d. unfold both_endpoints_known, Object.keys.
      by rewrite (entries_perm nd). }
    rewrite (list_filter_iff _ _ _ Hk) in Hl. fold (kept_edges nd ed) in Hl.
    rewrite Forall2_fmap_l in Hl.
    eapply Forall2_impl; [exact Hl |]. intros d l.
    apply resolves_to_link_of. }
  split; [exact H2 |].
  apply Forall_forall. intros l Hl'.
  apply list_elem_of_lookup in Hl' as [i Hi].
  destruct (Forall2_lookup_r _ _ _ _ _ H2 Hi) as (d & Hd & Hlink).
  destruct Hlink as (Hs1 & Ht1 & Hrs & Hrt & _).
  apply resolved_endpoint in Hrs as (a & na & Ha & Hna).
  apply resolved_endpoint in Hrt as (b & nb & Hb & Hnb).
  exists a, b, na, nb. rewrite Ha, Hb in *. cbn in Hs1, Ht1.
  rewrite Hna in Hs1. rewrite Hnb in Ht1. cbn in Hs1, Ht1.
  injection Hs1 as Hs1. injection Ht1 as Ht1.
  apply list_elem_of_lookup_2 in Hd.
  unfold kept_edges in Hd. apply list_elem_of_filter in Hd as [[Hk1 Hk2] _].
  rewrite Hs1, Ht1. by repeat split.
Qed.

(** ** The legend handlers, composed *)

Lemma endpoint_id_None_length (ns ns' : list Node.t) (e : endpoint) :
  length ns = length ns' ->
  endpoint_id ns e = None -> endpoint_id ns' e = None.
Proof.
  intros Hlen. destruct e as [k | i]; [done |]. cbn.
  rewrite !fmap_None, !lookup_ge_None. by rewrite Hlen.
Qed.

Lemma link_display_None_length (f f' : string) (ns ns' : list Node.t)
    (d : Link.t) :
  length ns = length ns' ->
  link_display f ns d = None -> link_display f' ns' d = None.
Proof.
  intros Hlen. unfold link_display.
  destruct (endpoint_id ns (Link.source d)) eqn:Hs.
  - destruct (endpoint_id ns (Link.target d)) eqn:Ht; [done |]. intros _.
    rewrite (endpoint_id_None_length ns ns' _ Hlen Ht).
    by destruct (endpoint_id ns' (Link.source d)).
  - intros _. by rewrite (endpoint_id_None_length ns ns' _ Hlen Hs).
Qed.

(** A run of the visibility effect overwrites what an earlier run has set:
    only the node objects of the later run matter. *)
Lemma visibilityEffect_absorb (ns ns' : list Node.t) (s : State) :
  length ns = length ns' ->
  visibilityEffect (with_nodes ns' (visibilityEffect (with_nodes ns s)))
  = visibilityEffect (with_nodes ns' s).
Proof.
  intros Hlen. unfold visibilityEffect. cbn [simulation with_nodes].
  destruct (simulation s) as [sim |] eqn:Hsim; cbn; rewrite ?Hsim; [| done].
  unfold with_elts, with_nodes. cbn. unfold each. f_equal.
  - apply list_eq. intros i. rewrite !list_lookup_imap.
    destruct (linkElts s !! i) as [e |]; [| done]. cbn.
    destruct (links s !! i) as [d |]; [| done]. f_equal.
    destruct (link_display (currentFilter s) ns' d) eqn:H'.
    + by destruct (link_display (currentFilter s) ns d).
    + by rewrite (link_display_None_length (currentFilter s)
                   (currentFilter s) ns' ns d (eq_sym Hlen) H').
  - apply list_eq. intros i. rewrite !list_lookup_imap.
    destruct (nodeElts s !! i) as [e |]; [| done]. cbn.
    destruct (ns' !! i) as [n' |] eqn:Hn'; [by destruct (ns !! i) |].
    apply lookup_ge_None in Hn'. rewrite <- Hlen in Hn'.
    apply lookup_ge_None in Hn'. by rewrite Hn'.
  - apply list_eq. intros i. rewrite !list_lookup_imap.
    destruct (labelElts s !! i) as [e |]; [| done]. cbn.
    destruct (ns' !! i) as [n' |] eqn:Hn'; [by destruct (ns !! i) |].
    apply lookup_ge_None in Hn'. rewrite <- Hlen in Hn'.
    apply lookup_ge_None in Hn'. by rewrite Hn'.
Qed.

(** X2.  Legend clicks commute, and the bulk actions override whatever
    came before: toggling two nodes in either order gives the same
    state; Select All after Select None, or after itself, is Select All;
    Select None after Select All, or after itself, is Select None; and
    either bulk action after a toggle is the bulk action alone. *)
Theorem legend_actions_compose (s : State) (i j : nat) :
  updateNodeVisibility i (updateNodeVisibility j s)
  = updateNodeVisibility j (updateNodeVisibility i s)
  /\ selectAll (selectNone s) = selectAll s
  /\ selectAll (selectAll s) = selectAll s
  /\ selectNone (selectAll s) = selectNone s
  /\ selectNone (selectNone s) = selectNone s
  /\ selectAll (updateNodeVisibility i s) = selectAll s
  /\ selectNone (updateNodeVisibility i s) = selectNone s.
Proof.
  unfold updateNodeVisibility, selectAll, selectNone.
  rewrite !visibilityEffect_nodes. cbn [nodes with_nodes].
  repeat split.
  - rewrite !(visibilityEffect_absorb _ _ s)
      by (by rewrite !length_alter).
    do 2 f_equal. destruct (decide (i = j)) as [-> | Hij]; [done |].
    by apply list_alter_alter_ne.
  - rewrite visibilityEffect_absorb by (by rewrite !length_map).
    by rewrite map_map.
  - rewrite visibilityEffect_absorb by (by rewrite !length_map).
    by rewrite map_map.
  - rewrite visibilityEffect_absorb by (by rewrite !length_map).
    by rewrite map_map.
  - rewrite visibilityEffect_absorb by (by rewrite !length_map).
    by rewrite map_map.
  - rewrite visibilityEffect_absorb
      by (by rewrite length_map, length_alter).
    do 2 f_equal. apply list_eq. intros k. rewrite !list_lookup_fmap.
    destruct (decide (k = i)) as [-> | Hi].
    + rewrite list_lookup_alter_eq. by destruct (nodes s !! i).
    + by rewrite list_lookup_alter_ne.
  - rewrite visibilityEffect_absorb
      by (by rewrite length_map, length_alter).
    do 2 f_equal. apply list_eq. intros k. rewrite !list_lookup_fmap.
    destruct (decide (k = i)) as [-> | Hi].
    + rewrite list_lookup_alter_eq. by destruct (nodes s !! i).
    + by rewrite list_lookup_alter_ne.
Qed.

(** ** Select All and Select None *)

Lemma wf_with_nodes (ns : list Node.t) (s : State) :
  wf s -> map Node.id ns = map Node.id (nodes s) -> wf (with_nodes ns s).
Proof.
  intros [Hnd Hl H1 H2 H3] Hids.
  assert (length ns = length (nodes s)) as Hlen.
  { by rewrite <- (length_map Node.id ns), Hids, length_map. }
  split; cbn [nodes links linkElts nodeElts labelElts with_nodes].
  - by rewrite Hids.
  - eapply Forall_impl; [exact Hl |]. intros l [Ha Hb]. unfold resolved in *.
    destruct (Link.source l), (Link.target l); try done. by rewrite Hlen.
  - done.
  - congruence.
  - congruence.
Qed.

(** The visibility effect on a state whose nodes all have the same
    [visible] flag. *)
Lemma visibilityEffect_uniform (b : bool) (s : State) :
  wf s -> is_Some (simulation s) ->
  Forall (fun n => Node.visible n = b) (nodes s) ->
  Forall2 (fun d e =>
             display e
             = Some (if b && isLinkVisible (currentFilter s) d
                     then "inline" else "none"))
          (links s) (linkElts (visibilityEffect s))
  /\ Forall (fun e => opacity e
                      = Some (if b then config.highlightOpacity
                              else config.fadedOpacity))
            (nodeElts (visibilityEffect s))
  /\ Forall (fun e => label_opacity e
                      = Some (if b then config.highlightOpacity
                              else config.fadedOpacity))
            (labelElts (visibilityEffect s)).
Proof.
  intros Hwf [sim Hsim] Hb. assert (Hwf' := Hwf).
  destruct Hwf' as [Hnd Hl H1 H2 H3].
  rewrite Forall_forall in Hl. rewrite Forall_lookup in Hb.
  unfold visibilityEffect. rewrite Hsim.
  cbn [linkElts nodeElts labelElts with_elts].
  split; [| split].
  - apply Forall2_same_length_lookup. split; [by rewrite each_length |].
    intros i d e Hd He.
    destruct (lookup_lt_is_Some_2 (linkElts s) i) as [e0 He0].
    { rewrite H1. by eapply lookup_lt_Some. }
    rewrite (each_lookup _ _ _ i d e0) in He by done. injection He as <-.
    destruct (Hl d) as [Hs Ht]; [by eapply list_elem_of_lookup_2 |].
    rewrite link_display_resolved by done. cbn. f_equal.
    apply resolved_endpoint in Hs as (a & na & -> & Hna).
    apply resolved_endpoint in Ht as (c & nc & -> & Hnc).
    cbn. rewrite Hna, Hnc, (Hb _ _ Hna), (Hb _ _ Hnc).
    by destruct b.
  - apply Forall_lookup. intros i e He.
    destruct (lookup_lt_is_Some_2 (nodes s) i) as [n Hn].
    { rewrite <- H2. apply lookup_lt_Some in He.
      by rewrite each_length in He. }
    destruct (lookup_lt_is_Some_2 (nodeElts s) i) as [e0 He0].
    { rewrite H2. by eapply lookup_lt_Some. }
    rewrite (each_lookup _ _ _ i n e0) in He by done. injection He as <-.
    cbn. unfold baseline_opacity. by rewrite (Hb _ _ Hn).
  - apply Forall_lookup. intros i e He.
    destruct (lookup_lt_is_Some_2 (nodes s) i) as [n Hn].
    { rewrite <- H3. apply lookup_lt_Some in He.
      by rewrite each_length in He. }
    destruct (lookup_lt_is_Some_2 (labelElts s) i) as [e0 He0].
    { rewrite H3. by eapply lookup_lt_Some. }
    rewrite (each_lookup _ _ _ i n e0) in He by done. injection He as <-.
    cbn. unfold baseline_opacity. by rewrite (Hb _ _ Hn).
Qed.

(** X3.  Select None hides everything: every node's [visible] flag is
    false, every link has [display] ['none'] whatever the filter, and every
    circle and label is at [fadedOpacity]; ids and values are untouched. *)
Theorem selectNone_hides_everything (s : State) :
  wf s -> is_Some (simulation s) ->
  Forall (fun n => Node.visible n = false) (nodes (selectNone s))
  /\ map entry_of (nodes (selectNone s)) = map entry_of (nodes s)
  /\ Forall (fun e => display e = Some "none") (linkElts (selectNone s))
  /\ Forall (fun e => opacity e = Some config.fadedOpacity)
            (nodeElts (selectNone s))
  /\ Forall (fun e => label_opacity e = Some config.fadedOpacity)
            (labelElts (selectNone s)).
Proof.
  intros Hwf Hsim. unfold selectNone.
  set (s0 := with_nodes (map (Node.set_visible false) (nodes s)) s).
  assert (Forall (fun n => Node.visible n = false) (nodes s0)) as Hb.
  { apply Forall_fmap, Forall_forall. by intros n _. }
  assert (wf s0) as Hwf0.
  { apply wf_with_nodes; [done |]. by apply map_ids. }
  destruct (visibilityEffect_uniform false s0 Hwf0 Hsim Hb) as (Hd & Ho & Hl).
  rewrite visibilityEffect_nodes. split; [done |]. split; [| split; [| done]].
  - subst s0. cbn. rewrite map_map. by apply map_ext.
  - apply Forall_lookup. intros i e He.
    destruct (Forall2_lookup_r _ _ _ _ _ Hd He) as (d & _ & Hde). done.
Qed.

(** X4.  Select All makes every node visible, and then exactly the links
    that pass the current filter predicate are displayed; every circle and
    label is at [highlightOpacity]; ids and values are untouched. *)
Theorem selectAll_shows_passing (s : State) :
  wf s -> is_Some (simulation s) ->
  Forall (fun n => Node.visible n = true) (nodes (selectAll s))
  /\ map entry_of (nodes (selectAll s)) = map entry_of (nodes s)
  /\ Forall2 (fun d e =>
                display e
                = Some (if isLinkVisible (currentFilter s) d
                        then "inline" else "none"))
             (links s) (linkElts (selectAll s))
  /\ Forall (fun e => opacity e = Some config.highlightOpacity)
            (nodeElts (selectAll s))
  /\ Forall (fun e => label_opacity e = Some config.highlightOpacity)
            (labelElts (selectAll s)).
Proof.
  intros Hwf Hsim. unfold selectAll.
  set (s0 := with_nodes (map (Node.set_visible true) (nodes s)) s).
  assert (Forall (fun n => Node.visible n = true) (nodes s0)) as Hb.
  { apply Forall_fmap, Forall_forall. by intros n _. }
  assert (wf s0) as Hwf0.
  { apply wf_with_nodes; [done |]. by apply map_ids. }
  destruct (visibilityEffect_uniform true s0 Hwf0 Hsim Hb) as (Hd & Ho & Hl).
  rewrite visibilityEffect_nodes. split; [done |]. split; [| done].
  subst s0. cbn. rewrite map_map. by apply map_ext.
Qed.

Lemma selectNone_hides_everything_witness :
  Forall (fun e => display e = Some "none")
         (linkElts (selectNone app_state)).
Proof.
  apply (selectNone_hides_everything app_state app_state_wf).
  by eexists.
Defined.

Lemma selectAll_shows_passing_witness :
  Forall (fun n => Node.visible n = true)
         (nodes (selectAll (selectNone app_state))).
Proof.
  apply (selectAll_shows_passing (selectNone app_state)).
  - split; compute_done.
  - by eexists.
Defined.

(** ** The filter buttons *)

Lemma mount_link_values (ip : nat -> number * number) (nd : Object.t)
    (ed : list EdgeData) :
  exists s : State,
    mount ip nd ed = Ok s
    /\ map Link.value (links s) = map edge_value (kept_edges nd ed).
Proof.
  unfold mount.
  destruct (setup_ok ip nd ed "all" 0 []) as (s & Hs & _ & _ & _ & _ & Hl & _).
  rewrite Hs. exists (visibilityEffect s). split; [done |].
  rewrite visibilityEffect_links.
  rewrite (resolves_to_values _ _ _ Hl), build_links_filter, build_nodes_ids.
  assert (forall d, both_endpoints_known (map fst (Object.entries nd)) d
                    <-> both_endpoints_known (Object.keys nd) d) as Hk.
  { intros d. unfold both_endpoints_known, Object.keys.
    by rewrite (entries_perm nd). }
  rewrite (list_filter_iff _ _ _ Hk). unfold kept_edges.
  by rewrite map_map.
Qed.

(** X5.  The filter buttons are offered exactly when some kept edge has a
    negative value: an edge that was dropped for a missing endpoint does
    not count.  When they are not offered, no link would pass the
    ['negative'] filter. *)
Theorem hasNegativeLinks_kept (initialPosition : nat -> number * number)
    (nd : Object.t) (ed : list EdgeData) :
  exists s : State,
    mount initialPosition nd ed = Ok s
    /\ (hasNegativeLinks s = true <->
        exists d : EdgeData,
          d ∈ ed /\ both_endpoints_known (Object.keys nd) d
          /\ JS.lt (edge_value d) JS.zero = true)
    /\ (hasNegativeLinks s = false ->
        Forall (fun l => isLinkVisible "negative" l = false) (links s)).
Proof.
  destruct (mount_link_values initialPosition nd ed) as (s & Hs & Hv).
  exists s. split; [done |].
  assert (forall v, v ∈ map Link.value (links s) <->
            exists d, d ∈ ed /\ both_endpoints_known (Object.keys nd) d
                      /\ edge_value d = v) as Hmem.
  { intros v. rewrite Hv, list_elem_of_fmap. unfold kept_edges. split.
    - intros (d & -> & Hd). apply list_elem_of_filter in Hd as [Hk Hd].
      by exists d.
    - intros (d & Hd & Hk & <-). exists d. split; [done |].
      by apply list_elem_of_filter. }
  unfold hasNegativeLinks. split.
  - rewrite existsb_exists. split.
    + intros (l & Hl%list_elem_of_In & Hlt).
      destruct (proj1 (Hmem (Link.value l))) as (d & Hd & Hk & He).
      { apply list_elem_of_fmap. by exists l. }
      exists d. by rewrite He.
    + intros (d & Hd & Hk & Hlt).
      assert (edge_value d ∈ map Link.value (links s)) as Hin
        by (apply Hmem; by exists d).
      apply list_elem_of_fmap in Hin as (l & Hl & Hin).
      exists l. split; [by apply list_elem_of_In | by rewrite <- Hl].
  - intros Hno. apply Forall_forall. intros l Hl.
    unfold isLinkVisible. cbn.
    destruct (JS.lt (Link.value l) JS.zero) eqn:Hlt; [| done].
    exfalso. apply not_true_iff_false in Hno. apply Hno.
    apply existsb_exists. exists l. split; [by apply list_elem_of_In | done].
Qed.

(** ** What the handlers leave alone *)

Lemma each_fill {D : Type} (f : nat -> D -> NodeElt -> NodeElt)
    (data : list D) (es : list NodeElt) :
  (forall i d e, fill (f i d e) = fill e) ->
  map fill (each f data es) = map fill es.
Proof.
  intros Hf. apply list_eq. intros i. unfold each.
  rewrite !list_lookup_fmap, list_lookup_imap.
  destruct (es !! i) as [e |]; [| done]. cbn.
  destruct (data !! i); by rewrite ?Hf.
Qed.

Lemma keeps_setup_trans (s1 s2 s3 : State) :
  keeps_setup s1 s2 -> keeps_setup s2 s3 -> keeps_setup s1 s3.
Proof.
  intros (A1 & A2 & A3 & A4 & A5 & A6 & A7 & A8 & A9 & A10)
         (B1 & B2 & B3 & B4 & B5 & B6 & B7 & B8 & B9 & B10).
  repeat split; try congruence; eauto.
Qed.

Lemma visibilityEffect_keeps (s : State) :
  keeps_setup s (visibilityEffect s).
Proof.
  unfold keeps_setup, positioned. rewrite visibilityEffect_nodes,
    visibilityEffect_retired, visibilityEffect_generation,
    visibilityEffect_simulation, visibilityEffect_filter,
    visibilityEffect_links.
  destruct (visibilityEffect_props s) as [-> ->].
  repeat split; try done.
  unfold visibilityEffect. destruct (simulation s); [| done].
  cbn. by apply each_fill.
Qed.

Lemma with_nodes_keeps (ns : list Node.t) (s : State) :
  map entry_of ns = map entry_of (nodes s) ->
  (positioned s ->
   Forall (fun n => is_Some (Node.x n) /\ is_Some (Node.y n)) ns) ->
  keeps_setup s (with_nodes ns s).
Proof. intros Hlen Hpos. by repeat split. Qed.

Lemma alter_keeps (f : Node.t -> Node.t) (i : nat) (s : State) :
  (forall n, entry_of (f n) = entry_of n
             /\ Node.x (f n) = Node.x n /\ Node.y (f n) = Node.y n) ->
  keeps_setup s (with_nodes (alter f i (nodes s)) s).
Proof.
  intros Hf. apply with_nodes_keeps.
  - apply list_eq. intros j. rewrite !list_lookup_fmap.
    destruct (decide (j = i)) as [-> | Hne].
    + rewrite list_lookup_alter_eq. destruct (nodes s !! i) as [n |]; [| done].
      cbn. by destruct (Hf n) as [-> _].
    + by rewrite list_lookup_alter_ne.
  - intros Hpos. apply Forall_alter; [done |].
    intros n _. destruct (Hf n) as (_ & -> & ->). done.
Qed.

Lemma map_keeps (f : Node.t -> Node.t) (s : State) :
  (forall n, entry_of (f n) = entry_of n
             /\ Node.x (f n) = Node.x n /\ Node.y (f n) = Node.y n) ->
  keeps_setup s (with_nodes (map f (nodes s)) s).
Proof.
  intros Hf. apply with_nodes_keeps.
  - rewrite map_map. apply map_ext. intros n. by destruct (Hf n).
  - intros Hpos. apply Forall_fmap. eapply Forall_impl; [exact Hpos |].
    intros n. cbn. by destruct (Hf n) as (_ & -> & ->).
Qed.

Lemma with_simulation_keeps (sim : option d3.Simulation) (s : State) :
  (is_Some (simulation s) -> is_Some sim) ->
  keeps_setup s (with_simulation sim s).
Proof. intros Hsim. by repeat split. Qed.

Lemma with_elts_keeps (le : list LinkElt) (ne : list NodeElt)
    (lb : list LabelElt) (s : State) :
  map fill ne = map fill (nodeElts s) ->
  keeps_setup s (with_elts le ne lb s).
Proof. intros Hfill. by repeat split. Qed.

Lemma keeps_setup_refl (s : State) : keeps_setup s s.
Proof. by repeat split. Qed.

(** Every handler but the set-up effect keeps the set-up. *)
Lemma handlers_keep_setup (s : State) :
  (forall i, keeps_setup s (updateNodeVisibility i s))
  /\ keeps_setup s (selectAll s)
  /\ keeps_setup s (selectNone s)
  /\ (forall h, keeps_setup s (highlightConnectedNodes h s))
  /\ keeps_setup s (resetHighlightedNodes s)
  /\ (forall i, keeps_setup s (highlightLink i s))
  /\ keeps_setup s (resetLinkHighlight s)
  /\ (forall a d, keeps_setup s (dragstarted a d s))
  /\ (forall ex ey d, keeps_setup s (dragged ex ey d s))
  /\ (forall a d, keeps_setup s (dragended a d s))
  /\ (forall ps, keeps_setup s (tick ps s)).
Proof.
  split; [| split; [| split; [| split; [| split; [| split; [| split;
    [| split; [| split; [| split]]]]]]]]].
  - intros i. eapply keeps_setup_trans; [| apply visibilityEffect_keeps].
    by apply alter_keeps.
  - eapply keeps_setup_trans; [| apply visibilityEffect_keeps].
    by apply map_keeps.
  - eapply keeps_setup_trans; [| apply visibilityEffect_keeps].
    by apply map_keeps.
  - intros h. unfold highlightConnectedNodes.
    destruct (nodes s !! h) as [d |]; [| apply keeps_setup_refl].
    destruct (negb (Node.visible d)); [apply keeps_setup_refl |].
    destruct (connected _ _ _ d) as [ids ixs].
    apply with_elts_keeps. by apply each_fill.
  - apply with_elts_keeps. by apply each_fill.
  - intros i. unfold highlightLink.
    destruct (links s !! i) as [d |]; [| apply keeps_setup_refl].
    apply with_elts_keeps. by apply each_fill.
  - apply with_elts_keeps. by apply each_fill.
  - intros a d. unfold dragstarted. cbn zeta.
    eapply keeps_setup_trans;
      [| by apply (alter_keeps _ d (with_simulation _ s))].
    apply with_simulation_keeps. intros [sim ->]. by destruct (Nat.eqb a 0).
  - intros ex ey d. by apply alter_keeps.
  - intros a d. unfold dragended. cbn zeta.
    eapply keeps_setup_trans;
      [| by apply (alter_keeps _ d (with_simulation _ s))].
    apply with_simulation_keeps. intros [sim ->]. by destruct (Nat.eqb a 0).
  - intros ps. apply with_nodes_keeps.
    { apply list_eq. intros i. rewrite !list_lookup_fmap, list_lookup_imap.
      destruct (nodes s !! i) as [n0 |]; [| done]. cbn.
      by destruct (ps !! i). }
    intros Hpos. apply Forall_lookup. intros i n.
    rewrite list_lookup_imap.
    destruct (nodes s !! i) as [n0 |] eqn:Hn0; [| done]. cbn.
    intros [= <-]. destruct (ps !! i); [done |].
    unfold positioned in Hpos. rewrite Forall_lookup in Hpos. by eapply Hpos.
Qed.

(** Induction over the reachable states, with every handler but the
    set-up effect treated at once. *)
Lemma reachable_setup_ind (ip : nat -> number * number)
    (P : State -> Prop) :
  (forall nd ed s,
     NoDup (Object.keys nd) -> mount ip nd ed = Ok s -> P s) ->
  (forall m s s',
     reachable ip s -> P s -> mode_name m <> currentFilter s ->
     setCurrentFilter ip (mode_name m) s = Ok s' -> P s') ->
  (forall s s', P s -> keeps_setup s s' -> P s') ->
  forall s, reachable ip s -> P s.
Proof.
  intros Hmount Hfilter Hkeep s Hs.
  induction Hs as [nd ed s Hk Hs | m s s' Hr IH Hs | i s _ IH | s _ IH
                   | s _ IH | h s _ IH | s _ IH | i s _ IH | s _ IH
                   | a d s _ IH | ex ey d s _ IH | a d s _ IH | ps s _ IH];
    try (eapply Hkeep; [exact IH |]; by apply handlers_keep_setup).
  - by eapply Hmount.
  - destruct (decide (mode_name m = currentFilter s)) as [Heq | Hne].
    + unfold setCurrentFilter in Hs. rewrite Heq, String.eqb_refl in Hs.
      by injection Hs as <-.
    + by eapply Hfilter.
Qed.

(** ** What holds in every reachable state *)

Lemma entry_of_ids (ns ns' : list Node.t) :
  map entry_of ns' = map entry_of ns -> map Node.id ns' = map Node.id ns.
Proof.
  intros H. apply (f_equal (map fst)) in H. by rewrite !map_map in H.
Qed.

Lemma link_of_ids (ns ns' : list Node.t) (d : EdgeData) (l : Link.t) :
  map Node.id ns' = map Node.id ns -> link_of ns d l -> link_of ns' d l.
Proof.
  intros Hids (Hs & Ht & Hrs & Hrt & Hv).
  assert (length ns' = length ns) as Hlen.
  { by rewrite <- (length_map Node.id ns'), Hids, length_map. }
  assert (forall e, endpoint_id ns' e = endpoint_id ns e) as He.
  { intros [k | i]; [done |]. cbn.
    apply (f_equal (fun ks => ks !! i)) in Hids.
    by rewrite !list_lookup_fmap in Hids. }
  unfold link_of. rewrite !He. unfold resolved in *.
  destruct (Link.source l), (Link.target l); rewrite ?Hlen; done.
Qed.

Lemma setup_model (ip : nat -> number * number) (nd : Object.t)
    (ed : list EdgeData) (f : string) (gen : nat)
    (old : list d3.Simulation) (s : State) :
  setup ip nd ed f gen old = Ok s ->
  map entry_of (nodes s) = Object.entries nd
  /\ Forall2 (link_of (nodes s)) (kept_edges nd ed) (links s).
Proof.
  intros Hs.
  destruct (setup_ok ip nd ed f gen old)
    as (s' & Hs' & _ & _ & _ & Hn & Hl & _).
  rewrite Hs in Hs'. injection Hs' as <-. split.
  - rewrite Hn, initializeNodes_map by done. apply build_nodes_entries.
  - rewrite build_links_filter, build_nodes_ids in Hl.
    assert (forall d, both_endpoints_known (map fst (Object.entries nd)) d
                      <-> both_endpoints_known (Object.keys nd) d) as Hk.
    { intros d. unfold both_endpoints_known, Object.keys.
      by rewrite (entries_perm nd). }
    rewrite (list_filter_iff _ _ _ Hk) in Hl. fold (kept_edges nd ed) in Hl.
    rewrite Forall2_fmap_l in Hl.
    eapply Forall2_impl; [exact Hl |]. intros d l.
    apply resolves_to_link_of.
Qed.

(** X6.  In every reachable state the model is the one built from the
    current props: the nodes carry the entries of [nodeData] in the order
    of [Object.entries], and the links are the kept edges of [edgeData],
    in order, with their endpoints resolved to the nodes of those ids.  No
    handler adds, removes or reorders a node or a link. *)
Theorem reachable_model_matches_props
    (initialPosition : nat -> number * number) (s : State) :
  reachable initialPosition s ->
  map entry_of (nodes s) = Object.entries (nodeData s)
  /\ Forall2 (link_of (nodes s)) (kept_edges (nodeData s) (edgeData s))
             (links s).
Proof.
  revert s. apply reachable_setup_ind.
  - intros nd ed s _ Hs. unfold mount in Hs.
    destruct (setup_ok initialPosition nd ed "all" 0 [])
      as (s0 & Hs0 & Hnd & Hed & _).
    rewrite Hs0 in Hs. injection Hs as <-.
    rewrite visibilityEffect_nodes, visibilityEffect_links.
    destruct (visibilityEffect_props s0) as [-> ->]. rewrite Hnd, Hed.
    by eapply setup_model.
  - intros m s s' _ _ Hne Hs. unfold setCurrentFilter in Hs.
    destruct (String.eqb _ _) eqn:Heq;
      [by apply eqb_true_iff in Heq |].
    destruct (setup_ok initialPosition (nodeData s) (edgeData s)
                (mode_name m) (generation s) (cleanup s))
      as (s0 & Hs0 & Hnd & Hed & _).
    rewrite Hs0 in Hs. injection Hs as <-.
    rewrite visibilityEffect_nodes, visibilityEffect_links.
    destruct (visibilityEffect_props s0) as [-> ->]. rewrite Hnd, Hed.
    by eapply setup_model.
  - intros s s' [Hn Hl] (-> & -> & _ & _ & _ & _ & He & -> & _).
    split; [congruence |].
    eapply Forall2_impl; [exact Hl |]. intros d l.
    by apply link_of_ids, entry_of_ids.
Qed.

Lemma reachable_model_matches_props_witness :
  map entry_of (nodes (dragged JS.one JS.one 2 (selectNone app_state)))
  = Object.entries app_nodeData.
Proof.
  apply (reachable_model_matches_props origin).
  apply reach_dragged, reach_selectNone.
  apply (reach_mount origin app_nodeData app_edgeData);
    [compute_done | reflexivity].
Defined.

Lemma initializeNodes_positioned (ip : nat -> number * number)
    (ns : list Node.t) :
  Forall (fun n => is_Some (Node.x n) /\ is_Some (Node.y n))
         (initializeNodes ip ns).
Proof.
  apply Forall_lookup. intros i n. unfold initializeNodes.
  rewrite list_lookup_imap. destruct (ns !! i) as [n0 |]; [| done]. cbn.
  intros [= <-].
  destruct (match Node.fx n0 with JS.Num v => Some v | _ => Node.x n0 end)
    as [px |]; [| by cbn].
  destruct (match Node.fy n0 with JS.Num v => Some v | _ => Node.y n0 end)
    as [py |]; [| cbn; by rewrite orb_true_r].
  by destruct (_ || _).
Qed.

(** X7.  In every reachable state every node has a position, so the
    fallback 0 of [getNodeX] and [getNodeY] is never used: on every tick
    each link is drawn between the coordinates of its two endpoint
    nodes. *)
Theorem reachable_positions_defined
    (initialPosition : nat -> number * number) (s : State) :
  reachable initialPosition s ->
  positioned s
  /\ forall l : Link.t,
       l ∈ links s ->
       exists (a b : nat) (na nb : Node.t) (xa ya xb yb : number),
         Link.source l = Obj a /\ nodes s !! a = Some na
         /\ Link.target l = Obj b /\ nodes s !! b = Some nb
         /\ Node.x na = Some xa /\ Node.y na = Some ya
         /\ Node.x nb = Some xb /\ Node.y nb = Some yb
         /\ tick_link (nodes s) l = Some (xa, ya, xb, yb).
Proof.
  intros Hs.
  assert (positioned s) as Hpos.
  { revert s Hs. apply reachable_setup_ind.
    - intros nd ed s _ Hs. unfold mount in Hs.
      destruct (setup_ok initialPosition nd ed "all" 0 [])
        as (s0 & Hs0 & _ & _ & _ & Hn & _).
      rewrite Hs0 in Hs. injection Hs as <-.
      unfold positioned. rewrite visibilityEffect_nodes, Hn.
      apply initializeNodes_positioned.
    - intros m s s' _ _ Hne Hs. unfold setCurrentFilter in Hs.
      destruct (String.eqb _ _) eqn:Heq;
        [by apply eqb_true_iff in Heq |].
      destruct (setup_ok initialPosition (nodeData s) (edgeData s)
                  (mode_name m) (generation s) (cleanup s))
        as (s0 & Hs0 & _ & _ & _ & Hn & _).
      rewrite Hs0 in Hs. injection Hs as <-.
      unfold positioned. rewrite visibilityEffect_nodes, Hn.
      apply initializeNodes_positioned.
    - intros s s' Hp Hk. by apply Hk. }
  split; [exact Hpos |]. intros l Hl.
  destruct (reachable_invariant initialPosition s Hs)
    as ([_ Hlinks _ _ _] & _).
  rewrite Forall_forall in Hlinks. destruct (Hlinks l Hl) as [Hrs Hrt].
  apply resolved_endpoint in Hrs as (a & na & Ha & Hna).
  apply resolved_endpoint in Hrt as (b & nb & Hb & Hnb).
  unfold positioned in Hpos. rewrite Forall_lookup in Hpos.
  destruct (Hpos a na Hna) as [[xa Hxa] [ya Hya]].
  destruct (Hpos b nb Hnb) as [[xb Hxb] [yb Hyb]].
  exists a, b, na, nb, xa, ya, xb, yb.
  repeat split; try done.
  unfold tick_link. rewrite Ha, Hb. cbn. rewrite Hna, Hnb. cbn.
  by rewrite Hxa, Hya, Hxb, Hyb.
Qed.

Lemma reachable_positions_defined_witness : positioned app_state.
Proof.
  apply (reachable_positions_defined origin).
  apply (reach_mount origin app_nodeData app_edgeData);
    [compute_done | reflexivity].
Defined.

(** X8.  In every reachable state a simulation is current, every
    simulation of an earlier run of the set-up effect has been stopped,
    and there is exactly one of those for each earlier run: a superseded
    simulation never goes on ticking. *)
Theorem reachable_superseded_stopped
    (initialPosition : nat -> number * number) (s : State) :
  reachable initialPosition s ->
  is_Some (simulation s) /\ superseded_stopped s.
Proof.
  revert s. apply reachable_setup_ind.
  - intros nd ed s _ Hs. unfold mount in Hs.
    destruct (setup_ok initialPosition nd ed "all" 0 [])
      as (s0 & Hs0 & _ & _ & _ & _ & _ & Hsim & Hgen & Hret & _).
    rewrite Hs0 in Hs. injection Hs as <-. unfold superseded_stopped.
    rewrite visibilityEffect_simulation, visibilityEffect_retired,
      visibilityEffect_generation, Hsim, Hgen, Hret.
    by repeat split.
  - intros m s s' _ [[sim Hsim] [Hst Hlen]] Hne Hs.
    unfold setCurrentFilter in Hs.
    destruct (String.eqb _ _) eqn:Heq;
      [by apply eqb_true_iff in Heq |].
    destruct (setup_ok initialPosition (nodeData s) (edgeData s)
                (mode_name m) (generation s) (cleanup s))
      as (s0 & Hs0 & _ & _ & _ & _ & _ & Hsim0 & Hgen & Hret & _).
    rewrite Hs0 in Hs. injection Hs as <-. unfold superseded_stopped.
    rewrite visibilityEffect_simulation, visibilityEffect_retired,
      visibilityEffect_generation, Hsim0, Hgen, Hret.
    unfold cleanup. rewrite Hsim. split; [done |]. split.
    + by constructor.
    + cbn. by rewrite Hlen.
  - intros s s' [Hsim [Hst Hlen]] (_ & _ & _ & Hr & Hg & Hs' & _).
    unfold superseded_stopped. rewrite Hr, Hg. by eauto.
Qed.

Lemma reachable_superseded_stopped_witness :
  superseded_stopped (get (showNegativeLinks origin app_state)).
Proof.
  apply (reachable_superseded_stopped origin).
  apply (reach_filter origin Negative app_state); [| reflexivity].
  apply (reach_mount origin app_nodeData app_edgeData);
    [compute_done | reflexivity].
Defined.

(** ** The legend and the circles *)

Lemma index_of_None (k : string) (dom : list string) :
  k ∉ dom -> d3.index_of k dom = None.
Proof.
  induction dom as [| k' dom IH]; [done |]. intros Hk.
  apply not_elem_of_cons in Hk as [Hne Hk]. cbn.
  destruct (String.eqb k' k) eqn:Heq;
    [by apply eqb_true_iff in Heq; subst |].
  by rewrite IH.
Qed.

Lemma index_of_lookup (dom : list string) (i : nat) (k : string) :
  NoDup dom -> dom !! i = Some k -> d3.index_of k dom = Some i.
Proof.
  revert i. induction dom as [| k' dom IH]; intros i Hnd Hi; [done |].
  apply NoDup_cons in Hnd as [Hk' Hnd]. cbn.
  destruct i as [| i]; cbn in Hi.
  - injection Hi as ->. by rewrite String.eqb_refl.
  - destruct (String.eqb k' k) eqn:Heq.
    + apply eqb_true_iff in Heq. subst.
      exfalso. apply Hk'. by eapply list_elem_of_lookup_2.
    + by rewrite (IH i).
Qed.

Lemma ordinal_domain_NoDup (keys : list string) :
  NoDup keys -> d3.ordinal_domain keys = keys.
Proof.
  unfold d3.ordinal_domain.
  assert (forall acc, NoDup (acc ++ keys) ->
            fold_left
              (fun dom k => match d3.index_of k dom with
                            | Some _ => dom
                            | None => dom ++ [k]
                            end) keys acc = acc ++ keys) as H.
  { induction keys as [| k keys IH]; intros acc Hnd; cbn.
    - by rewrite app_nil_r.
    - rewrite index_of_None.
      + rewrite IH; rewrite <- app_assoc; done.
      + apply NoDup_app in Hnd as (_ & Hdis & _). intros Hk.
        apply (Hdis k Hk). by left. }
  intros Hnd. by apply (H []).
Qed.

Lemma legend_colors (s : State) :
  map legend_color (legend s)
  = imap (fun index _ =>
            config.colors !! (index mod length config.colors)%nat) (nodes s).
Proof. unfold legend. by rewrite fmap_imap. Qed.

Lemma legend_colors_length (s s' : State) :
  length (nodes s') = length (nodes s) ->
  map legend_color (legend s') = map legend_color (legend s).
Proof.
  intros Hlen. rewrite !legend_colors. apply list_eq. intros i.
  rewrite !list_lookup_imap.
  destruct (nodes s !! i) as [n |] eqn:Hn.
  - destruct (lookup_lt_is_Some_2 (nodes s') i) as [n' ->]; [| done].
    rewrite Hlen. by eapply lookup_lt_Some.
  - apply lookup_ge_None in Hn. rewrite <- Hlen in Hn.
    apply lookup_ge_None in Hn. by rewrite Hn.
Qed.

Lemma setup_fills (ip : nat -> number * number) (nd : Object.t)
    (ed : list EdgeData) (f : string) (gen : nat)
    (old : list d3.Simulation) (s : State) :
  NoDup (Object.keys nd) ->
  setup ip nd ed f gen old = Ok s ->
  map fill (nodeElts s) = map legend_color (legend s).
Proof.
  intros Hk Hs.
  assert (map Node.group (initializeNodes ip (build_nodes nd))
          = map fst (Object.entries nd)) as Hg.
  { rewrite initializeNodes_map by done. unfold build_nodes.
    rewrite !map_map. apply map_ext. by intros [k v]. }
  assert (NoDup (map fst (Object.entries nd))) as Hnd.
  { unfold Object.keys in Hk. by rewrite entries_perm. }
  unfold setup in Hs. destruct (forceLink _ _) as [ls |]; [| done].
  injection Hs as <-. rewrite legend_colors. cbn [nodeElts nodes].
  set (ns := initializeNodes ip (build_nodes nd)) in *.
  apply list_eq. intros i.
  rewrite list_lookup_fmap, list_lookup_fmap, list_lookup_imap.
  destruct (ns !! i) as [n |] eqn:Hn; [| done]. cbn. f_equal.
  unfold colorScale, d3.ordinal. rewrite Hg, ordinal_domain_NoDup by done.
  rewrite (index_of_lookup _ i); [done | done |].
  rewrite <- Hg, list_lookup_fmap, Hn. done.
Qed.

(** X9.  In every reachable state the colour of each legend swatch is the
    fill of the circle of that node: the palette colour at the node's
    index, wrapping round after the last colour. *)
Theorem reachable_legend_matches_circles
    (initialPosition : nat -> number * number) (s : State) :
  reachable initialPosition s ->
  map legend_color (legend s) = map fill (nodeElts s)
  /\ forall (i : nat) (e : NodeElt),
       nodeElts s !! i = Some e ->
       fill e = config.colors !! (i mod length config.colors)%nat.
Proof.
  intros Hs.
  assert (map fill (nodeElts s) = map legend_color (legend s)) as H.
  { revert s Hs. apply reachable_setup_ind.
    - intros nd ed s Hk Hs. unfold mount in Hs.
      destruct (setup _ _ _ _ _ _) as [s0 |] eqn:Hs0 in Hs; [| done].
      injection Hs as <-.
      destruct (visibilityEffect_keeps s0)
        as (_ & _ & _ & _ & _ & _ & He & _ & -> & _).
      rewrite (legend_colors_length s0)
        by (by rewrite <- !(length_map entry_of), He).
      by eapply setup_fills.
    - intros m s s' Hr _ Hne Hs. unfold setCurrentFilter in Hs.
      destruct (String.eqb _ _) eqn:Heq;
        [by apply eqb_true_iff in Heq |].
      destruct (setup _ _ _ _ _ _) as [s0 |] eqn:Hs0 in Hs; [| done].
      injection Hs as <-.
      destruct (visibilityEffect_keeps s0)
        as (_ & _ & _ & _ & _ & _ & He & _ & -> & _).
      rewrite (legend_colors_length s0)
        by (by rewrite <- !(length_map entry_of), He).
      eapply setup_fills; [| exact Hs0].
      by destruct (reachable_invariant initialPosition s Hr) as (_ & ? & _).
    - intros s s' IH (_ & _ & _ & _ & _ & _ & He & _ & -> & _).
      rewrite IH. symmetry. apply legend_colors_length.
      by rewrite <- !(length_map entry_of), He. }
  split; [done |]. intros i e He.
  apply (f_equal (fun l => l !! i)) in H.
  rewrite list_lookup_fmap, He, legend_colors, list_lookup_imap in H.
  destruct (nodes s !! i); [| done]. cbn in H. by injection H.
Qed.

Lemma reachable_legend_matches_circles_witness :
  map legend_color (legend (updateNodeVisibility 1 app_state))
  = map fill (nodeElts (updateNodeVisibility 1 app_state)).
Proof.
  apply (reachable_legend_matches_circles origin).
  apply reach_toggle.
  apply (reach_mount origin app_nodeData app_edgeData);
    [compute_done | reflexivity].
Defined.

(** ** Hovering and the model *)

Lemma each_display {D : Type} (f : nat -> D -> LinkElt -> LinkElt)
    (data : list D) (es : list LinkElt) :
  (forall i d e, display (f i d e) = display e) ->
  map display (each f data es) = map display es.
Proof.
  intros Hf. apply list_eq. intros i. unfold each.
  rewrite !list_lookup_fmap, list_lookup_imap.
  destruct (es !! i) as [e |]; [| done]. cbn.
  destruct (data !! i); by rewrite ?Hf.
Qed.

Lemma imap_display (f : nat -> LinkElt -> LinkElt) (es : list LinkElt) :
  (forall i e, display (f i e) = display e) ->
  map display (imap f es) = map display es.
Proof.
  intros Hf. apply list_eq. intros i.
  rewrite !list_lookup_fmap, list_lookup_imap.
  destruct (es !! i) as [e |]; [| done]. cbn. by rewrite Hf.
Qed.

(** X10.  The four hover handlers change appearance only: none of them
    changes a node object (so no [visible] flag and no position), a link,
    the simulation, the filter, or the [display] style that decides which
    links are shown. *)
Theorem hover_leaves_model_alone (s : State) (h i : nat) :
  Forall (fun s' =>
            nodes s' = nodes s /\ links s' = links s
            /\ simulation s' = simulation s
            /\ currentFilter s' = currentFilter s
            /\ map display (linkElts s') = map display (linkElts s))
         [highlightConnectedNodes h s; resetHighlightedNodes s;
          highlightLink i s; resetLinkHighlight s].
Proof.
  repeat constructor.
  all: try (unfold highlightConnectedNodes;
            destruct (nodes s !! h) as [d |]; [| done];
            destruct (negb (Node.visible d)); [done |];
            by destruct (connected _ _ _ d)).
  all: try (unfold highlightLink; by destruct (links s !! i)).
  - unfold highlightConnectedNodes.
    destruct (nodes s !! h) as [d |]; [| done].
    destruct (negb (Node.visible d)); [done |].
    destruct (connected _ _ _ d) as [ids ixs]. cbn.
    by apply imap_display.
  - cbn. rewrite map_map. done.
  - unfold highlightLink. destruct (links s !! i) as [d |]; [| done].
    cbn. apply imap_display. intros j e. by destruct (Nat.eqb j i).
  - cbn. rewrite map_map. done.
Qed.

(** ** A whole drag gesture *)

Lemma gesture_frame_refl (d : nat) (s : State) : gesture_frame d s s.
Proof. by repeat split. Qed.

Lemma gesture_frame_trans (d : nat) (s1 s2 s3 : State) :
  gesture_frame d s1 s2 -> gesture_frame d s2 s3 -> gesture_frame d s1 s3.
Proof.
  intros (A1 & A2 & A3 & A4 & A5 & A6 & A7 & A8 & A9 & A10 & A11)
         (B1 & B2 & B3 & B4 & B5 & B6 & B7 & B8 & B9 & B10 & B11).
  unfold gesture_frame.
  rewrite B1, B2, B3, B4, B5, B6, B7, B8, B9, B10.
  do 10 (split; [done |]). intros j Hj. by rewrite B11, A11.
Qed.

Lemma fixed_frame (d : nat) (f : Node.t -> Node.t)
    (sim : option d3.Simulation) (s : State) :
  gesture_frame d s (with_nodes (alter f d (nodes s)) (with_simulation sim s)).
Proof.
  unfold gesture_frame. cbn. rewrite length_alter.
  do 10 (split; [done |]). intros j Hj.
  by rewrite list_lookup_alter_ne.
Qed.

Lemma simulation_tick_frame (d : nat) (forces : nat -> number * number)
    (s : State) :
  gesture_frame d s (simulation_tick forces s).
Proof.
  unfold gesture_frame, simulation_tick, tick. cbn. rewrite length_imap.
  do 10 (split; [done |]). intros j _.
  rewrite list_lookup_imap.
  destruct (nodes s !! j) as [m |]; [| done]. cbn.
  by destruct (_ !! j).
Qed.

Lemma gesture_step_frame (d : nat) (e : GestureStep) (s : State) :
  gesture_frame d s (gesture_step d s e).
Proof.
  destruct e as [ex ey | forces]; [| apply simulation_tick_frame].
  apply (fixed_frame d _ (simulation s) s).
Qed.

Lemma gesture_steps_frame (d : nat) (steps : list GestureStep) (s : State) :
  gesture_frame d s (fold_left (gesture_step d) steps s).
Proof.
  revert s. induction steps as [| e steps IH]; intros s.
  - apply gesture_frame_refl.
  - cbn. eapply gesture_frame_trans; [apply gesture_step_frame | apply IH].
Qed.

Lemma gesture_steps_simulation (d : nat) (steps : list GestureStep)
    (s : State) :
  simulation (fold_left (gesture_step d) steps s) = simulation s.
Proof.
  revert s. induction steps as [| e steps IH]; intros s; [done |].
  cbn. rewrite IH. by destruct e.
Qed.

Lemma held_move (pos pin : number * number) (ex ey : number) (d : nat)
    (n : Node.t) (s : State) :
  nodes s !! d = Some (held pos pin n) ->
  nodes (dragged ex ey d s) !! d = Some (held pos (ex, ey) n).
Proof.
  intros H. unfold dragged. cbn. by rewrite list_lookup_alter_eq, H.
Qed.

(** A tick puts a held node at the position it is fixed at. *)
Lemma held_tick (pos pin : number * number)
    (forces : nat -> number * number) (d : nat) (n : Node.t) (s : State) :
  nodes s !! d = Some (held pos pin n) ->
  nodes (simulation_tick forces s) !! d = Some (held pin pin n).
Proof.
  intros H. unfold simulation_tick, tick. cbn.
  by rewrite !list_lookup_imap, H.
Qed.

(** Pointer moves change where a held node is fixed, not where it is. *)
Lemma held_moves (moves : list GestureStep) (pos pin : number * number)
    (d : nat) (n : Node.t) (s : State) :
  Forall is_move moves ->
  nodes s !! d = Some (held pos pin n) ->
  nodes (fold_left (gesture_step d) moves s) !! d
  = Some (held pos (last_pointer pin moves) n).
Proof.
  intros Hm. revert pin s.
  induction Hm as [| [ex ey | forces] moves He _ IH]; intros pin s H;
    [done | | done].
  cbn. apply IH. by eapply held_move.
Qed.

(** A held node is fixed at the last pointer position. *)
Lemma held_steps (steps : list GestureStep) (pos pin : number * number)
    (d : nat) (n : Node.t) (s : State) :
  nodes s !! d = Some (held pos pin n) ->
  exists pos' : number * number,
    nodes (fold_left (gesture_step d) steps s) !! d
    = Some (held pos' (last_pointer pin steps) n).
Proof.
  revert pos pin s.
  induction steps as [| [ex ey | forces] steps IH]; intros pos pin s H.
  - by exists pos.
  - cbn. eapply IH. by eapply held_move.
  - cbn. eapply IH. by eapply held_tick.
Qed.

Lemma dragstarted_held (d : nat) (n : Node.t) (x0 y0 : number) (s : State) :
  nodes s !! d = Some n -> Node.x n = Some x0 -> Node.y n = Some y0 ->
  nodes (dragstarted 0 d s) !! d = Some (held (x0, y0) (x0, y0) n).
Proof.
  intros H Hx Hy. unfold dragstarted. cbn.
  rewrite list_lookup_alter_eq, H. cbn. f_equal.
  destruct n. cbn in *. by subst.
Qed.



(** ** What is shown after the set-up effect *)

Lemma setup_effect_display (ip : nat -> number * number) (nd : Object.t)
    (ed : list EdgeData) (f : string) (gen : nat)
    (old : list d3.Simulation) (s : State) :
  NoDup (Object.keys nd) ->
  setup ip nd ed f gen old = Ok s ->
  Forall (fun n => Node.visible n = true) (nodes (visibilityEffect s))
  /\ Forall2 (fun d e =>
                display e
                = Some (if isLinkVisible f d then "inline" else "none"))
             (links (visibilityEffect s)) (linkElts (visibilityEffect s))
  /\ Forall (fun e => opacity e = Some config.highlightOpacity)
            (nodeElts (visibilityEffect s))
  /\ Forall (fun e => label_opacity e = Some config.highlightOpacity)
            (labelElts (visibilityEffect s)).
Proof.
  intros Hk Hs.
  destruct (setup_ok ip nd ed f gen old)
    as (s' & Hs' & _ & _ & Hf & Hn & _ & Hsim & _).
  rewrite Hs in Hs'. injection Hs' as <-.
  assert (Forall (fun n => Node.visible n = true) (nodes s)) as Hv.
  { rewrite Hn. apply build_nodes_visible. }
  destruct (visibilityEffect_uniform true s) as (Hd & Ho & Hl);
    [by eapply setup_wf | by rewrite Hsim | done |].
  rewrite visibilityEffect_nodes, visibilityEffect_links.
  rewrite Hf in Hd. by repeat split.
Qed.

(** X12.  Once mounted, the component shows everything: the filter is
    ['all'], every node is visible, every kept link is displayed, every
    circle and label is at [highlightOpacity], and a fresh simulation is
    running. *)
Theorem mount_shows_everything (initialPosition : nat -> number * number)
    (nd : Object.t) (ed : list EdgeData) :
  NoDup (Object.keys nd) ->
  exists s : State,
    mount initialPosition nd ed = Ok s
    /\ currentFilter s = "all"
    /\ simulation s = Some d3.forceSimulation
    /\ Forall (fun n => Node.visible n = true) (nodes s)
    /\ length (linkElts s) = length (kept_edges nd ed)
    /\ Forall (fun e => display e = Some "inline") (linkElts s)
    /\ Forall (fun e => opacity e = Some config.highlightOpacity)
              (nodeElts s)
    /\ Forall (fun e => label_opacity e = Some config.highlightOpacity)
              (labelElts s).
Proof.
  intros Hk. unfold mount.
  destruct (setup_ok initialPosition nd ed "all" 0 [])
    as (s & Hs & _ & _ & Hf & _ & _ & Hsim & _).
  rewrite Hs. exists (visibilityEffect s). split; [done |].
  destruct (setup_effect_display _ _ _ _ _ _ _ Hk Hs) as (Hv & Hd & Ho & Hl).
  destruct (setup_model _ _ _ _ _ _ _ Hs) as [_ Hlinks].
  rewrite visibilityEffect_filter, visibilityEffect_simulation.
  repeat split; try done.
  - apply Forall2_length in Hd. apply Forall2_length in Hlinks.
    rewrite visibilityEffect_links in Hd. congruence.
  - apply Forall_lookup. intros i e He.
    by destruct (Forall2_lookup_r _ _ _ _ _ Hd He) as (d & _ & Hde).
Qed.

Lemma mount_shows_everything_witness :
  exists s : State,
    mount origin app_nodeData app_edgeData = Ok s
    /\ Forall (fun e => display e = Some "inline") (linkElts s).
Proof.
  destruct (mount_shows_everything origin app_nodeData app_edgeData)
    as (s & Hs & _ & _ & _ & _ & Hd & _); [compute_done |].
  by exists s.
Defined.

(** X13.  Switching to another filter mode shows exactly the links whose
    value passes the new mode, whichever nodes had been hidden before:
    every node is visible again and every circle and label is at
    [highlightOpacity]. *)
Theorem filter_switch_shows_passing
    (initialPosition : nat -> number * number) (s : State)
    (m : FilterMode) :
  reachable initialPosition s ->
  mode_name m <> currentFilter s ->
  exists s' : State,
    setCurrentFilter initialPosition (mode_name m) s = Ok s'
    /\ Forall (fun n => Node.visible n = true) (nodes s')
    /\ Forall2 (fun d e =>
                  display e
                  = Some (if passes m (Link.value d)
                          then "inline" else "none"))
               (links s') (linkElts s')
    /\ Forall (fun e => opacity e = Some config.highlightOpacity)
              (nodeElts s')
    /\ Forall (fun e => label_opacity e = Some config.highlightOpacity)
              (labelElts s').
Proof.
  intros Hr Hne. unfold setCurrentFilter.
  destruct (String.eqb _ _) eqn:Heq; [by apply eqb_true_iff in Heq |].
  destruct (setup_ok initialPosition (nodeData s) (edgeData s)
              (mode_name m) (generation s) (cleanup s)) as (s0 & Hs0 & _).
  rewrite Hs0. exists (visibilityEffect s0). split; [done |].
  destruct (reachable_invariant initialPosition s Hr) as (_ & Hk & _).
  destruct (setup_effect_display _ _ _ _ _ _ _ Hk Hs0) as (Hv & Hd & Ho & Hl).
  repeat split; try done.
  eapply Forall2_impl; [exact Hd |]. intros d e. cbn.
  by rewrite isLinkVisible_passes.
Qed.

Lemma filter_switch_shows_passing_witness :
  exists s' : State,
    setCurrentFilter origin (mode_name Negative)
      (updateNodeVisibility 0 app_state) = Ok s'
    /\ Forall (fun n => Node.visible n = true) (nodes s').
Proof.
  destruct (filter_switch_shows_passing origin
              (updateNodeVisibility 0 app_state) Negative)
    as (s' & Hs' & Hv & _).
  - apply reach_toggle.
    apply (reach_mount origin app_nodeData app_edgeData);
      [compute_done | reflexivity].
  - discriminate.
  - by exists s'.
Defined.

(** ** What a hover shows *)

(** The two sets of [highlightConnectedNodes], by node and link index. *)
Lemma connected_sets (s : State) (h : nat) (d : Node.t) :
  wf s -> nodes s !! h = Some d ->
  let sets := connected (currentFilter s) (nodes s) (links s) d in
  (forall (j : nat) (n : Node.t),
     nodes s !! j = Some n ->
     Node.id n ∈ sets.1 <->
     j = h \/ exists (i : nat) (l : Link.t),
                links s !! i = Some l
                /\ qualifies (currentFilter s) (nodes s) h l j)
  /\ (forall i : nat,
        i ∈ sets.2 <->
        exists (l : Link.t) (o : nat),
          links s !! i = Some l
          /\ qualifies (currentFilter s) (nodes s) h l o).
Proof.
  intros [Hnd Hlinks _ _ _] Hh. cbn zeta. unfold connected.
  rewrite Forall_forall in Hlinks.
  assert (forall i l, links s !! i = Some l ->
            (connects (currentFilter s) (nodes s) d l = true
             <-> exists o, qualifies (currentFilter s) (nodes s) h l o)
            /\ exists a na b nb,
                 Link.source l = Obj a /\ nodes s !! a = Some na
                 /\ Link.target l = Obj b /\ nodes s !! b = Some nb)
    as Hq.
  { intros i l Hl. destruct (Hlinks l) as [Hs Ht];
      [by eapply list_elem_of_lookup_2 |].
    split; [by apply connects_qualifies |].
    apply resolved_endpoint in Hs as (a & na & ? & ?).
    apply resolved_endpoint in Ht as (b & nb & ? & ?).
    by exists a, na, b, nb. }
  destruct (connected_fold (currentFilter s) (nodes s) d (links s) 0
              ({[Node.id d]}, ∅)) as [H1 H2].
  cbn zeta in H1, H2. cbn [fst snd] in H1, H2. split.
  - intros j n Hj. rewrite H1, elem_of_singleton. clear H1 H2. split.
    + intros [Hid | (i & l & n' & Hl & Hc & Hn & Hid)].
      { left. by eapply (id_lookup_inj (nodes s)). }
      destruct (Hq i l Hl) as [Hcq (a & na & b & nb & Ha & Hna & Hb & Hnb)].
      apply Hcq in Hc as [o Ho]. assert (Ho' := Ho).
      destruct Ho' as ([[Hs Ht] | [Ht Hs]] & Hv & Hf);
        rewrite Hs, Ht in Hn; cbn in Hn; destruct Hn as [Hn | Hn].
      * left. by eapply (id_lookup_inj (nodes s)).
      * right. exists i, l.
        by rewrite (id_lookup_inj (nodes s) j o n n').
      * right. exists i, l.
        by rewrite (id_lookup_inj (nodes s) j o n n').
      * left. by eapply (id_lookup_inj (nodes s)).
    + intros [-> | (i & l & Ho)].
      { left. congruence. }
      right. exists i, l, n. destruct Ho as [Hl Ho]. split; [done |].
      destruct (Hq i l Hl) as [Hcq _]. split; [apply Hcq; by eauto |].
      split; [| done].
      destruct Ho as ([[Hs Ht] | [Ht Hs]] & _).
      * right. by rewrite Ht.
      * left. by rewrite Hs.
  - intros i. rewrite H2. clear H1 H2. split.
    + intros [?%elem_of_empty | (i' & l & Hl & Hc & ->)]; [done |].
      destruct (Hq i' l Hl) as [Hcq _]. apply Hcq in Hc as [o Ho].
      by exists l, o.
    + intros (l & o & Hl & Ho). right. exists i, l.
      destruct (Hq i l Hl) as [Hcq _]. split; [done |].
      split; [apply Hcq; by eauto | done].
Qed.

(** X14.  While a visible node is hovered: a circle (and its label) is
    at [highlightOpacity] exactly when its node is visible and is the
    hovered node or the other end of a link that qualifies, and at
    [fadedOpacity] otherwise; a link is at [highlightOpacity], in the
    hovered node's colour and with the class [highlighted], exactly when it
    qualifies, and faded without a stroke colour otherwise.  A link
    qualifies when the hovered node is one endpoint, the other endpoint is
    visible and the link passes the filter. *)
Theorem node_hover_projection (s : State) (h : nat) (d : Node.t) :
  wf s ->
  nodes s !! h = Some d ->
  Node.visible d = true ->
  let s' := highlightConnectedNodes h s in
  (forall (j : nat) (n : Node.t),
     nodes s !! j = Some n ->
     let lit :=
       Node.visible n = true
       /\ (j = h \/ exists (i : nat) (l : Link.t),
                      links s !! i = Some l
                      /\ qualifies (currentFilter s) (nodes s) h l j) in
     (lit -> opacity <$> nodeElts s' !! j
             = Some (Some config.highlightOpacity)
             /\ label_opacity <$> labelElts s' !! j
                = Some (Some config.highlightOpacity))
     /\ (~ lit -> opacity <$> nodeElts s' !! j
                  = Some (Some config.fadedOpacity)
                  /\ label_opacity <$> labelElts s' !! j
                     = Some (Some config.fadedOpacity)))
  /\ (forall (i : nat) (e : LinkElt),
        linkElts s !! i = Some e ->
        let lit :=
          exists (l : Link.t) (o : nat),
            links s !! i = Some l
            /\ qualifies (currentFilter s) (nodes s) h l o in
        (lit -> linkElts s' !! i
                = Some (mkLinkElt (negative e) false true (stroke_width e)
                          (colorScale (nodes s) (Node.group d))
                          (Some config.highlightOpacity) (display e)))
        /\ (~ lit -> linkElts s' !! i
                     = Some (mkLinkElt (negative e) true false
                               (stroke_width e) None
                               (Some config.fadedOpacity) (display e)))).
Proof.
  intros Hwf Hh Hv. cbn zeta.
  destruct (connected_sets s h d Hwf Hh) as [Hids Hixs]. cbn zeta in Hids.
  cbn zeta in Hixs. destruct Hwf as [_ _ _ Hne Hle].
  unfold highlightConnectedNodes. rewrite Hh, Hv. cbn [negb].
  destruct (connected _ _ _ d) as [ids ixs]. cbn [fst snd] in Hids, Hixs.
  cbn [linkElts nodeElts labelElts with_elts]. split.
  - intros j n Hj.
    destruct (lookup_lt_is_Some_2 (nodeElts s) j) as [e He].
    { rewrite Hne. by eapply lookup_lt_Some. }
    destruct (lookup_lt_is_Some_2 (labelElts s) j) as [e' He'].
    { rewrite Hle. by eapply lookup_lt_Some. }
    rewrite (each_lookup _ _ _ j n e), (each_lookup _ _ _ j n e') by done.
    cbn. specialize (Hids j n Hj). split.
    + intros [Hvn Hlit]. rewrite Hvn. cbn.
      by rewrite bool_decide_eq_true_2 by (by apply Hids).
    + intros Hnot. destruct (Node.visible n) eqn:Hvn; [| done]. cbn.
      rewrite bool_decide_eq_false_2; [done |].
      intros Hin. apply Hnot. split; [done | by apply Hids].
  - intros i e He. rewrite list_lookup_imap, He. cbn.
    specialize (Hixs i). split.
    + intros Hlit.
      by rewrite bool_decide_eq_true_2 by (by apply Hixs).
    + intros Hnot. rewrite bool_decide_eq_false_2; [done |].
      intros Hin. apply Hnot. by apply Hixs.
Qed.

Lemma node_hover_projection_witness :
  opacity <$> nodeElts (highlightConnectedNodes 0 app_state) !! 0
  = Some (Some config.highlightOpacity).
Proof.
  destruct (node_hover_projection app_state 0 _ app_state_wf eq_refl
              eq_refl) as [Hn _].
  destruct (Hn 0 _ eq_refl) as [Hlit _].
  apply Hlit. split; [reflexivity | by left].
Defined.

(** X15.  While a link is hovered: that link is at opacity 1 and at one
    and a half times its scaled width, every other link is at
    [fadedOpacity] with its width unchanged; a circle (and its label) is at
    [highlightOpacity] exactly when its node is visible and is one of the
    two endpoints of the hovered link, and at [fadedOpacity] otherwise. *)
Theorem link_hover_projection (s : State) (i : nat) (d : Link.t)
    (a b : nat) :
  wf s ->
  links s !! i = Some d ->
  Link.source d = Obj a -> Link.target d = Obj b ->
  let s' := highlightLink i s in
  let width :=
    JS.mul (to_number (d3.call (linkScale (links s))
                               (Math.abs (Link.value d))))
           (JS.of_Q (3 # 2)) in
  (forall (j : nat) (e : LinkElt),
     linkElts s !! j = Some e ->
     linkElts s' !! j
     = Some (if decide (j = i)
             then mkLinkElt (negative e) (faded_link e) (highlighted e)
                    (Some width) (stroke e) (Some (JS.of_Z 1)) (display e)
             else mkLinkElt (negative e) (faded_link e) (highlighted e)
                    (stroke_width e) (stroke e) (Some config.fadedOpacity)
                    (display e)))
  /\ (forall (j : nat) (n : Node.t),
        nodes s !! j = Some n ->
        let shown :=
          Some (Some (if Node.visible n && bool_decide (j = a \/ j = b)
                      then config.highlightOpacity
                      else config.fadedOpacity)) in
        opacity <$> nodeElts s' !! j = shown
        /\ label_opacity <$> labelElts s' !! j = shown).
Proof.
  intros Hwf Hd Ha Hb. cbn zeta. assert (Hwf' := Hwf).
  destruct Hwf' as [Hnd Hlinks _ Hne Hle].
  rewrite Forall_forall in Hlinks.
  destruct (Hlinks d) as [Hrs Hrt]; [by eapply list_elem_of_lookup_2 |].
  rewrite Ha in Hrs. rewrite Hb in Hrt. cbn in Hrs, Hrt.
  apply lookup_lt_is_Some in Hrs as [na Hna].
  apply lookup_lt_is_Some in Hrt as [nb Hnb].
  unfold highlightLink. rewrite Hd.
  cbn [linkElts nodeElts labelElts with_elts]. split.
  - intros j e He. rewrite list_lookup_imap, He. cbn.
    destruct (decide (j = i)) as [-> | Hne'].
    + by rewrite Nat.eqb_refl.
    + by rewrite (proj2 (Nat.eqb_neq j i) Hne').
  - intros j n Hj.
    destruct (lookup_lt_is_Some_2 (nodeElts s) j) as [e He].
    { rewrite Hne. by eapply lookup_lt_Some. }
    destruct (lookup_lt_is_Some_2 (labelElts s) j) as [e' He'].
    { rewrite Hle. by eapply lookup_lt_Some. }
    rewrite (each_lookup _ _ _ j n e), (each_lookup _ _ _ j n e') by done.
    cbn. rewrite Ha, Hb. cbn. rewrite Hna, Hnb. cbn.
    assert (bool_decide (Some (Node.id n) = Some (Node.id na))
            || bool_decide (Some (Node.id n) = Some (Node.id nb))
            = bool_decide (j = a \/ j = b)) as ->.
    { apply eq_true_iff_eq.
      rewrite orb_true_iff, !bool_decide_eq_true. split.
      - intros [[= Hid] | [= Hid]].
        + left. by eapply (id_lookup_inj (nodes s)).
        + right. by eapply (id_lookup_inj (nodes s)).
      - intros [-> | ->]; [left | right]; congruence. }
    by destruct (Node.visible n), (bool_decide (j = a \/ j = b)).
Qed.

Lemma link_hover_projection_witness :
  opacity <$> nodeElts (highlightLink 0 app_state) !! 2
  = Some (Some config.fadedOpacity).
Proof.
  destruct (link_hover_projection app_state 0
              (Link.mk (Obj 0) (Obj 1) (JS.of_Z 1)) 0 1
              app_state_wf eq_refl eq_refl eq_refl) as [_ Hn].
  by destruct (Hn 2 _ eq_refl) as [Ho _].
Defined.

Lemma clear_node_hover_witness :
  Forall (fun e => stroke_opacity e = Some config.defaultLinkOpacity)
         (linkElts (resetHighlightedNodes
                      (highlightConnectedNodes 1 app_state))).
Proof. apply (clear_node_hover app_state 1 app_state_wf). Defined.

(** ** Radii and stroke widths stay within the configured range *)

Section RangeFacts.
Local Open Scope Qc_scope.

Lemma interpolation_within (a b r : Qc) :
  a <= b -> 0 <= r -> r <= 1 ->
  a <= a + (b - a) * r /\ a + (b - a) * r <= b.
Proof.
  intros Hab H0 H1.
  assert (0 <= b - a) as Hd.
  { apply Qcle_minus_iff in Hab. done. }
  split.
  - rewrite <- (Qcplus_0_r a) at 1. apply Qcplus_le_mono_l.
    by apply Qcmult_nonneg_nonneg.
  - replace b with (a + (b - a) * 1) at 2 by ring.
    apply Qcplus_le_mono_l. by apply Qcmult_le_mono_nonneg_l.
Qed.

Lemma ratio_within (x y : Qc) :
  0 <= x -> x <= y -> 0 < y -> 0 <= x / y /\ x / y <= 1.
Proof.
  intros Hx Hxy Hy. pose proof (Qcinv_pos y Hy) as Hi.
  unfold Qcdiv. split.
  - apply Qcmult_nonneg_nonneg; [done | by apply Qclt_le_weak].
  - rewrite <- (Qcmult_inv_r y) by (by apply Qclt_not_eq in Hy).
    apply Qcmult_le_mono_nonneg_r; [by apply Qclt_le_weak | done].
Qed.

Lemma between_Fin (a b w : Qc) :
  a <= w -> w <= b -> between (JS.Fin a) (JS.Fin b) (JS.Fin w).
Proof. intros H1 H2. split; [done |]. split; by apply ge_Fin. Qed.

Lemma linear_within (t a b q : Qc) :
  0 < t -> a <= b -> 0 <= q -> q <= t ->
  exists w, d3.call (d3.scaleLinear (JS.zero, JS.Fin t) (JS.Fin a, JS.Fin b))
                    (JS.Fin q) = Some w
            /\ between (JS.Fin a) (JS.Fin b) w.
Proof.
  intros Ht Hab Hq Hqt. eexists. split.
  - apply linear_call. by apply Qclt_not_eq in Ht.
  - destruct (ratio_within q t Hq Hqt Ht) as [H0 H1].
    destruct (interpolation_within a b (q / t) Hab H0 H1).
    by apply between_Fin.
Qed.

Lemma half_within : 0 <= Q2Qc (1 # 2) /\ Q2Qc (1 # 2) <= 1.
Proof. split; by vm_compute. Qed.

Lemma pow_within (t a b q : Qc) :
  0 < t -> a <= b -> 0 <= q -> q <= t ->
  JS.isFinite (Math.pow (JS.Fin t) 3) = true ->
  exists w, d3.call (d3.scalePow 3 (JS.zero, JS.Fin t) (JS.Fin a, JS.Fin b))
                    (JS.Fin q) = Some w
            /\ between (JS.Fin a) (JS.Fin b) w.
Proof.
  intros Ht Hab Hq Hqt Hfin. pose proof (Qclt_le_weak _ _ Ht) as Ht0.
  destruct (Math.pow (JS.Fin t) 3) as [| | | c] eqn:Hc; try done.
  destruct (pow_mono q t c Hq Hqt Hc) as (c' & Hc' & Hc0 & Hcc).
  destruct (decide (c = 0)) as [-> | Hne].
  - eexists. split; [by apply pow_call_underflow |].
    destruct half_within as [H0 H1].
    destruct (interpolation_within a b _ Hab H0 H1).
    replace (d3.interpolateNumber (JS.Fin a) (JS.Fin b) (JS.of_Q (1 # 2)))
      with (JS.Fin (a + (b - a) * Q2Qc (1 # 2)));
      [by apply between_Fin |].
    unfold d3.interpolateNumber, JS.of_Q. cbn. f_equal. ring.
  - eexists. split; [by eapply pow_call |].
    assert (0 < c) as Hpos.
    { apply pos_of_nonneg; [by eapply Qcle_trans | done]. }
    destruct (ratio_within _ _ Hc0 Hcc Hpos) as [H0 H1].
    destruct (interpolation_within a b _ Hab H0 H1).
    by apply between_Fin.
Qed.

Lemma pow_finite (v : number) :
  JS.isFinite (Math.pow v 3) = true -> JS.isFinite v = true.
Proof. by destruct v. Qed.

(** When no cube overflows, the cube of the domain's upper end does not
    either. *)
Lemma top_cube_finite {A : Type} (f : A -> number) (vs : list A) :
  Forall (fun a => JS.isFinite (Math.pow (f a) 3) = true) vs ->
  JS.isFinite (Math.pow (JS.or_else (d3.max vs f) JS.one) 3) = true.
Proof.
  intros Hvs.
  assert (Forall (fun a => JS.isFinite (f a) = true) vs) as Hfin.
  { eapply Forall_impl; [exact Hvs |]. intros a. apply pow_finite. }
  pose proof (max_finite f vs Hfin) as Hmax.
  destruct (d3.max vs f) as [m |]; [| exact (f_equal JS.isFinite pow_one)].
  destruct Hmax as (_ & Hin & _). unfold JS.or_else.
  destruct (JS.truthy m); [| exact (f_equal JS.isFinite pow_one)].
  apply list_elem_of_fmap in Hin as (a & -> & Hin).
  rewrite Forall_forall in Hvs. by apply Hvs.
Qed.

Lemma widths_within (ls : list Link.t) :
  Forall (fun l => JS.isFinite (Math.pow (Math.abs (Link.value l)) 3) = true)
         ls ->
  Forall (fun l =>
            exists w, d3.call (linkScale ls) (Math.abs (Link.value l))
                      = Some w
                      /\ between config.minLinkWidth config.maxLinkWidth w)
         ls.
Proof.
  intros Hcube.
  pose proof (top_cube_finite (fun l => Math.abs (Link.value l)) ls Hcube)
    as Htop.
  destruct (top_within (fun l => Math.abs (Link.value l)) ls)
    as (t & Ht & Ho & Hall).
  { eapply Forall_impl; [exact Hcube |]. intros l Hl.
    apply abs_nonneg. apply pow_finite in Hl.
    by destruct (Link.value l). }
  rewrite Ho in Htop.
  eapply Forall_impl; [exact Hall |]. cbn.
  intros l (q & Hq & Hq0 & Hqt). unfold linkScale. rewrite Ho, Hq.
  by apply pow_within.
Qed.

Lemma radii_within (ns : list Node.t) :
  Forall (fun n => exists q, Node.value n = JS.Fin q /\ 0 <= q) ns ->
  Forall (fun n =>
            exists w, d3.call (sizeScale ns) (Node.value n) = Some w
                      /\ between config.minNodeSize config.maxNodeSize w)
         ns.
Proof.
  intros Hfin.
  destruct (top_within Node.value ns Hfin) as (t & Ht & Ho & Hall).
  eapply Forall_impl; [exact Hall |]. cbn.
  intros n (q & Hq & Hq0 & Hqt). unfold sizeScale. rewrite Ho, Hq.
  by apply linear_within.
Qed.

Lemma mount_scale_calls (ip : nat -> number * number) (nd : Object.t)
    (ed : list EdgeData) :
  exists s : State,
    mount ip nd ed = Ok s
    /\ map entry_of (nodes s) = Object.entries nd
    /\ map Link.value (links s) = map edge_value (kept_edges nd ed)
    /\ map r (nodeElts s)
       = map (fun n => d3.call (sizeScale (nodes s)) (Node.value n))
             (nodes s)
    /\ map stroke_width (linkElts s)
       = map (fun l => d3.call (linkScale (links s))
                             (Math.abs (Link.value l))) (links s).
Proof.
  destruct (mount_link_values ip nd ed) as (s & Hs & Hv).
  exists s. split; [done |]. unfold mount in Hs.
  destruct (setup _ _ _ _ _ _) as [s0 |] eqn:Hs0 in Hs; [| done].
  injection Hs as <-.
  destruct (setup_model _ _ _ _ _ _ _ Hs0) as [He _].
  destruct (setup_scale_calls _ _ _ _ _ _ _ Hs0) as [Hr Hw].
  destruct (visibilityEffect_attrs s0) as [-> ->].
  rewrite visibilityEffect_nodes, visibilityEffect_links in *.
  unfold sizeScale_inputs, linkScale_inputs in *.
  rewrite map_map in Hr, Hw. done.
Qed.

End RangeFacts.

Lemma Forall_of_map {A B : Type} (f : A -> B) (P : B -> Prop)
    (l : list A) :
  Forall P (map f l) <-> Forall (fun a => P (f a)) l.
Proof. apply Forall_fmap. Qed.

(** X17.  When the cube of no edge value overflows (the cube of each
    absolute value is a finite double), every line drawn at mount has a
    stroke width within [minLinkWidth, maxLinkWidth], whatever the sign of
    its value, also where cubes underflow. *)
Theorem mount_widths_in_range (initialPosition : nat -> number * number)
    (nd : Object.t) (ed : list EdgeData) :
  Forall (fun d =>
            JS.isFinite (Math.pow (Math.abs (edge_value d)) 3) = true) ed ->
  exists s : State,
    mount initialPosition nd ed = Ok s
    /\ Forall (fun e =>
                 exists w : number,
                   stroke_width e = Some w
                   /\ between config.minLinkWidth config.maxLinkWidth w)
              (linkElts s).
Proof.
  intros Hfin.
  destruct (mount_scale_calls initialPosition nd ed)
    as (s & Hs & _ & Hv & _ & Hw).
  exists s. split; [done |].
  assert (Forall (fun l => JS.isFinite
                             (Math.pow (Math.abs (Link.value l)) 3) = true)
                 (links s)) as Hl.
  { apply (Forall_of_map Link.value
             (fun v => JS.isFinite (Math.pow (Math.abs v) 3) = true)).
    rewrite Hv. apply Forall_of_map. unfold kept_edges.
    rewrite Forall_forall in Hfin. apply Forall_forall.
    intros d [_ Hd]%list_elem_of_filter. by apply Hfin. }
  apply (Forall_of_map stroke_width
           (fun o => exists w, o = Some w
                      /\ between config.minLinkWidth config.maxLinkWidth w)).
  rewrite Hw. apply Forall_of_map. exact (widths_within (links s) Hl).
Qed.

Lemma mount_widths_in_range_witness :
  exists s : State,
    mount origin app_nodeData app_edgeData = Ok s
    /\ Forall (fun e =>
                 exists w : number,
                   stroke_width e = Some w
                   /\ between config.minLinkWidth config.maxLinkWidth w)
              (linkElts s).
Proof.
  apply (mount_widths_in_range origin app_nodeData app_edgeData).
  compute_done.
Defined.

(** X18.  When every node value is finite and not negative, every circle
    drawn at mount has a radius within [minNodeSize, maxNodeSize]. *)
Theorem mount_radii_in_range (initialPosition : nat -> number * number)
    (nd : Object.t) (ed : list EdgeData) :
  Forall (fun e => JS.isFinite e.2 = true /\ JS.ge e.2 JS.zero = true) nd ->
  exists s : State,
    mount initialPosition nd ed = Ok s
    /\ Forall (fun e =>
                 exists w : number,
                   r e = Some w
                   /\ between config.minNodeSize config.maxNodeSize w)
              (nodeElts s).
Proof.
  intros Hfin.
  destruct (mount_scale_calls initialPosition nd ed)
    as (s & Hs & He & _ & Hr & _).
  exists s. split; [done |].
  assert (Forall (fun n => exists q, Node.value n = JS.Fin q /\ (0 <= q)%Qc)
                 (nodes s)) as Hn.
  { apply (Forall_of_map entry_of
             (fun e => exists q, e.2 = JS.Fin q /\ (0 <= q)%Qc)).
    rewrite He, (entries_perm nd).
    eapply Forall_impl; [exact Hfin |]. intros [k v] [Hv Hge]. cbn in *.
    destruct v as [| | | q]; try done. exists q. split; [done |].
    by apply ge_Fin. }
  apply (Forall_of_map r
           (fun o => exists w, o = Some w
                      /\ between config.minNodeSize config.maxNodeSize w)).
  rewrite Hr. apply Forall_of_map. exact (radii_within (nodes s) Hn).
Qed.

Lemma mount_radii_in_range_witness :
  exists s : State,
    mount origin app_nodeData app_edgeData = Ok s
    /\ Forall (fun e =>
                 exists w : number,
                   r e = Some w
                   /\ between config.minNodeSize config.maxNodeSize w)
              (nodeElts s).
Proof.
  apply (mount_radii_in_range origin app_nodeData app_edgeData).
  repeat constructor.
Defined.

(** ** Values that are not numbers *)

Lemma max_step_NaN (m : option number) : d3.max_step m JS.NaN = m.
Proof. by destruct m as [[| | |] |]. Qed.

Lemma max_skips_NaN {A : Type} (f : A -> number) (vs : list A) :
  d3.max vs f = d3.max (filter (fun a => f a <> JS.NaN) vs) f.
Proof.
  unfold d3.max. generalize (@None number).
  induction vs as [| a vs IH]; intros m; [done |].
  rewrite filter_cons. cbn [fold_left].
  destruct (decide (f a <> JS.NaN)) as [Hne | Heq].
  - cbn [fold_left]. apply IH.
  - apply dec_stable in Heq. rewrite Heq, max_step_NaN. apply IH.
Qed.

(** X19.  A value that is [NaN] takes no part in a scale's domain: the
    size scale is the one of the nodes whose value is a number, and the
    width scale is the one of the links whose value is a number.  Called
    on [NaN], either scale gives [undefined]. *)
Theorem nan_values_ignored (ns : list Node.t) (ls : list Link.t) :
  sizeScale ns = sizeScale (filter (fun n => Node.value n <> JS.NaN) ns)
  /\ linkScale ls = linkScale (filter (fun l => Link.value l <> JS.NaN) ls)
  /\ d3.call (sizeScale ns) JS.NaN = None
  /\ d3.call (linkScale ls) (Math.abs JS.NaN) = None.
Proof.
  split; [| split; [| done]].
  - unfold sizeScale. by rewrite max_skips_NaN.
  - unfold linkScale. rewrite max_skips_NaN.
    rewrite (list_filter_iff (fun l => Link.value l <> JS.NaN)
               (fun l => Math.abs (Link.value l) <> JS.NaN)); [done |].
    intros l. destruct (Link.value l) as [| | | q]; try done.
    cbn. by destruct (q ?= 0)%Qc.
Qed.
